(** * GBWT: dynamic records, ranges and the sampled document array

    A shallow embedding of the parts of [utils.h], [dynamic_gbwt.h] and
    [support.cpp] that the properties below are about.  Machine integers
    are integers of [Z] with the wrap-around of their C++ type written
    out: [size_type], [node_type] and [rank_type] are 64 bits wide, and
    with [GBWT_SAVE_MEMORY] defined (utils.h:54) the components of
    [edge_type], [run_type] and [sample_type] are 32 bits wide.  Vectors
    are lists, indexed with stdpp's lookup; an access outside a vector is
    undefined in C++ and is [None] here. *)

From Stdlib Require Import ZArith Lia Bool.
From stdpp Require Import base list sorting.

Open Scope Z_scope.

(** ** Machine integers (utils.h:58-63) *)

Definition wrap64 (x : Z) : Z := x mod 2 ^ 64.
Definition wrap32 (x : Z) : Z := x mod 2 ^ 32.

Definition is_size_type (x : Z) : Prop := 0 <= x < 2 ^ 64.
Definition is_short_type (x : Z) : Prop := 0 <= x < 2 ^ 32.

(** utils.h:92-96 *)
Definition ENDMARKER : Z := 0.
Definition invalid_sequence : Z := wrap64 (Z.lnot 0).
Definition invalid_offset : Z := wrap64 (Z.lnot 0).

(** [edge_type] is [std::pair<short_type, short_type>]: both components
    of [invalid_edge()] are narrowed to 32 bits. *)
Abbreviation edge_type := (Z * Z)%type (only parsing).
Abbreviation run_type := (Z * Z)%type (only parsing).
Abbreviation sample_type := (Z * Z)%type (only parsing).
Abbreviation range_type := (Z * Z)%type (only parsing).

Definition invalid_edge : edge_type := (wrap32 ENDMARKER, wrap32 invalid_offset).

(** ** Ranges (utils.h:105-150) *)

Module Range.

Definition length (range : range_type) : Z :=
  wrap64 (wrap64 (range.2 + 1) - range.1).

Definition empty (range : range_type) : bool :=
  wrap64 (range.1 + 1) >? wrap64 (range.2 + 1).

Definition empty_range : range_type := (1, 0).

(** utils.h:125-128, [empty(sp, ep)] *)
Definition empty_at (sp ep : Z) : bool := wrap64 (sp + 1) >? wrap64 (ep + 1).

(** utils.h:135-138 and 130-133 *)
Definition bound (value low high : Z) : Z := Z.max (Z.min value high) low.

Definition bound_in (value : Z) (bounds : range_type) : Z :=
  bound value bounds.1 bounds.2.

End Range.

(** ** Dynamic records (support.cpp:54-202) *)

(** Modelled from the spec: [DynamicRecord] is declared in a header that
    support.cpp includes through internal.h.  Its fields are the ones [DynamicRecord::swap]
    exchanges (support.cpp:44-48) with the types of section 3 of the
    specification: [body_size] is a [size_type], [incoming] and
    [outgoing] are vectors of [edge_type], [body] is a vector of
    [run_type] and [ids] a vector of [sample_type]. *)
Record DynamicRecord : Type := mkRecord {
  body_size : Z;
  incoming : list edge_type;
  outgoing : list edge_type;
  body : list run_type;
  ids : list sample_type
}.

Module Rec.

(** Modelled from the spec: the accessors are declared with the record;
    section 4.3 calls [size], [runs], [indegree], [outdegree] and
    [samples] trivial accessors and has [successor] and [offset]
    extract the two components of [outgoing[r]].  [empty] is
    [size() == 0], as for [DynamicGBWT::empty] (dynamic_gbwt.h:91). *)
Definition size (rec : DynamicRecord) : Z := body_size rec.
Definition empty (rec : DynamicRecord) : bool := size rec =? 0.
Definition runs (rec : DynamicRecord) : Z := Z.of_nat (length (body rec)).
Definition indegree (rec : DynamicRecord) : Z := Z.of_nat (length (incoming rec)).
Definition outdegree (rec : DynamicRecord) : Z := Z.of_nat (length (outgoing rec)).
Definition samples (rec : DynamicRecord) : Z := Z.of_nat (length (ids rec)).

Definition successor (rec : DynamicRecord) (outrank : Z) : option Z :=
  fst <$> outgoing rec !! Z.to_nat outrank.
Definition offset (rec : DynamicRecord) (outrank : Z) : option Z :=
  snd <$> outgoing rec !! Z.to_nat outrank.

(** support.cpp:165-173.  The loop over [outrank] from 0 is a
    recursion over the vector that carries the index. *)
Fixpoint edgeTo_from (out : list edge_type) (outrank to : Z) : Z :=
  match out with
  | [] => outrank
  | e :: rest => if e.1 =? to then outrank else edgeTo_from rest (outrank + 1) to
  end.

Definition edgeTo (rec : DynamicRecord) (to : Z) : Z :=
  edgeTo_from (outgoing rec) 0 to.

(** support.cpp:81-87: the loop of [LF(i)], from the state
    [(result, last_edge, offset)]; it stops after the first run that
    brings [offset] above [i]. *)
Fixpoint LF_loop (runs : list run_type) (i : Z) (result : list edge_type)
    (last_edge offset : Z) : option (list edge_type * Z * Z) :=
  match runs with
  | [] => Some (result, last_edge, offset)
  | run :: rest =>
      let last_edge := run.1 in
      match result !! Z.to_nat run.1 with
      | None => None
      | Some e =>
          let result := <[Z.to_nat run.1 := (e.1, wrap32 (e.2 + run.2))]> result in
          let offset := wrap64 (offset + run.2) in
          if offset >? i then Some (result, last_edge, offset)
          else LF_loop rest i result last_edge offset
      end
  end.

(** support.cpp:73-91.  [result[last_edge].second -= (offset - i)]
    subtracts in 64 bits and narrows the difference to the 32 bits of
    the field. *)
Definition LF (rec : DynamicRecord) (i : Z) : option edge_type :=
  if i >=? size rec then Some invalid_edge
  else
    match LF_loop (body rec) i (outgoing rec) 0 0 with
    | None => None
    | Some (result, last_edge, offset) =>
        match result !! Z.to_nat last_edge with
        | None => None
        | Some e => Some (e.1, wrap32 (wrap64 (e.2 - wrap64 (offset - i))))
        end
    end.

(** support.cpp:100-109 *)
Fixpoint LF_to_loop (runs : list run_type) (outrank i result offset : Z) : Z :=
  match runs with
  | [] => result
  | run :: rest =>
      let result := if run.1 =? outrank then wrap64 (result + run.2) else result in
      let offset := wrap64 (offset + run.2) in
      if offset >=? i then
        if run.1 =? outrank then wrap64 (result - wrap64 (offset - i)) else result
      else LF_to_loop rest outrank i result offset
  end.

(** support.cpp:93-111 *)
Definition LF_to (rec : DynamicRecord) (i to : Z) : option Z :=
  let outrank := edgeTo rec to in
  if outrank >=? outdegree rec then Some invalid_offset
  else
    match offset rec outrank with
    | None => None
    | Some result => Some (LF_to_loop (body rec) outrank i result 0)
    end.

(** The iterator state of [LF(range, to)]: [it_end] says that [iter]
    has reached [body.end()], [it_rest] are the runs after [*iter],
    [it_run] is the local copy [run]. *)
Record cursor : Type := mkCursor {
  it_end : bool;
  it_rest : list run_type;
  it_run : run_type;
  it_result : Z;
  it_offset : Z
}.

(** support.cpp:125-132 and 135-142: the two [while] loops have the
    same body and differ in the bound only.  The recursion is over the
    runs after [*iter]. *)
Fixpoint advance_from (rest : list run_type) (outrank bound : Z)
    (at_end : bool) (run : run_type) (result offset : Z) : cursor :=
  match rest with
  | [] =>
      if negb at_end && (offset <? bound)
      then mkCursor true [] run result offset
      else mkCursor at_end [] run result offset
  | next :: rest' =>
      if negb at_end && (offset <? bound)
      then
        advance_from rest' outrank bound false next
          (if next.1 =? outrank then wrap64 (result + next.2) else result)
          (wrap64 (offset + next.2))
      else mkCursor at_end rest run result offset
  end.

Definition advance (outrank bound : Z) (c : cursor) : cursor :=
  advance_from (it_rest c) outrank bound (it_end c) (it_run c)
    (it_result c) (it_offset c).

(** support.cpp:113-146.  [*iter] at [body.begin()] is read before any
    test: on an empty body the access is out of bounds. *)
Definition LF_range (rec : DynamicRecord) (range : range_type) (to : Z)
    : option range_type :=
  if Range.empty range then Some Range.empty_range
  else
    let outrank := edgeTo rec to in
    if outrank >=? outdegree rec then Some Range.empty_range
    else
      match body rec with
      | [] => None
      | run :: rest =>
          match offset rec outrank with
          | None => None
          | Some off =>
              let result := wrap64 (off + (if run.1 =? outrank then run.2 else 0)) in
              let c1 := advance outrank range.1 (mkCursor false rest run result run.2) in
              let first :=
                wrap64 (it_result c1 -
                        (if (it_run c1).1 =? outrank
                         then wrap64 (it_offset c1 - range.1) else 0)) in
              let c2 := advance outrank range.2 c1 in
              let second :=
                wrap64 (it_result c2 -
                        (if (it_run c2).1 =? outrank
                         then wrap64 (it_offset c2 - range.2) else 0)) in
              Some (first, second)
          end
      end.

(** support.cpp:153-160 *)
Fixpoint index_loop (rec : DynamicRecord) (runs : list run_type) (i offset : Z)
    : option Z :=
  match runs with
  | [] => Some ENDMARKER
  | run :: rest =>
      let offset := wrap64 (offset + run.2) in
      if offset >? i then successor rec run.1
      else index_loop rec rest i offset
  end.

(** support.cpp:148-161, [operator[]] *)
Definition op_index (rec : DynamicRecord) (i : Z) : option Z :=
  if i >=? size rec then Some ENDMARKER
  else index_loop rec (body rec) i 0.

(** [operator<] of [std::pair], negated: [a] may stand before [b]. *)
Definition edge_le (a b : edge_type) : Prop :=
  a.1 < b.1 \/ (a.1 = b.1 /\ a.2 <= b.2).

#[export] Instance edge_le_dec (a b : edge_type) : Decision (edge_le a b).
Proof. unfold edge_le. apply _. Defined.

(** utils.h:353-362: [std::sort] with the order of pairs.  The order is
    total and antisymmetric, so the sorted arrangement of a vector is
    unique ([sequentialSort_unique] below) and any sorting function
    computes it; merge sort is taken here. *)
Definition sequentialSort (v : list edge_type) : list edge_type :=
  merge_sort edge_le v.

(** support.cpp:59-63 *)
Fixpoint sorted_after (prev : Z) (out : list edge_type) : bool :=
  match out with
  | [] => true
  | e :: rest => if e.1 <? prev then false else sorted_after e.1 rest
  end.

Definition sorted_check (out : list edge_type) : bool :=
  match out with
  | [] => true
  | e :: rest => sorted_after e.1 rest
  end.

(** support.cpp:54-69.  Both passes over the body assign to the 32-bit
    [run.first]; the first reads [outgoing] at the old out-rank. *)
Definition recode (rec : DynamicRecord) : option DynamicRecord :=
  if empty rec then Some rec
  else if sorted_check (outgoing rec) then Some rec
  else
    match mapM (fun run : run_type =>
                  (fun s => (wrap32 s, run.2)) <$> successor rec run.1) (body rec) with
    | None => None
    | Some body1 =>
        let out := sequentialSort (outgoing rec) in
        Some (mkRecord (body_size rec) (incoming rec) out
                (map (fun run : run_type =>
                        (wrap32 (edgeTo_from out 0 run.1), run.2)) body1)
                (ids rec))
    end.

(** Modelled from the spec: [predecessor] and [count] are declared with
    the record; section 4.3 has them extract the two components of
    [incoming[r]]. *)
Definition predecessor (rec : DynamicRecord) (inrank : Z) : option Z :=
  fst <$> incoming rec !! Z.to_nat inrank.
Definition count (rec : DynamicRecord) (inrank : Z) : option Z :=
  snd <$> incoming rec !! Z.to_nat inrank.

(** support.cpp:177-185 *)
Fixpoint findFirst_from (inc : list edge_type) (i from : Z) : Z :=
  match inc with
  | [] => i
  | e :: rest => if e.1 >=? from then i else findFirst_from rest (i + 1) from
  end.

Definition findFirst (rec : DynamicRecord) (from : Z) : Z :=
  findFirst_from (incoming rec) 0 from.

(** support.cpp:197-202 *)
Definition addIncoming (rec : DynamicRecord) (inedge : edge_type) : DynamicRecord :=
  mkRecord (body_size rec) (sequentialSort (incoming rec ++ [inedge]))
    (outgoing rec) (body rec) (ids rec).

(** support.cpp:190-193: the loop of [increment]; [None] when no entry
    has the predecessor [from].  The count is a 32-bit component. *)
Fixpoint increment_loop (inc : list edge_type) (from : Z) : option (list edge_type) :=
  match inc with
  | [] => None
  | e :: rest =>
      if e.1 =? from then Some ((e.1, wrap32 (e.2 + 1)) :: rest)
      else (fun rest' => e :: rest') <$> increment_loop rest from
  end.

(** support.cpp:187-195; [edge_type(from, 1)] narrows [from] to 32 bits. *)
Definition increment (rec : DynamicRecord) (from : Z) : DynamicRecord :=
  match increment_loop (incoming rec) from with
  | Some inc =>
      mkRecord (body_size rec) inc (outgoing rec) (body rec) (ids rec)
  | None => addIncoming rec (wrap32 from, 1)
  end.

(** support.cpp:32-37: [clear] swaps in a default-constructed record. *)
Definition clear (rec : DynamicRecord) : DynamicRecord := mkRecord 0 [] [] [] [].

End Rec.

(** ** Sorting and removing duplicates (utils.h:292-399) *)

Section RemoveDuplicates.

Context {A : Type} `{EqDecision A}.

(** The order [!(b < a)] of the elements, with its decision. *)
Context (le : relation A) `{forall x y, Decision (le x y)}.

(** utils.h:306-318 and 353-362: both are [std::sort]; see
    [Rec.sequentialSort] for the choice of merge sort. *)
Definition parallelQuickSort (v : list A) : list A := merge_sort le v.
Definition sequentialSort (v : list A) : list A := merge_sort le v.

(** [std::unique]: every element equal to the last one kept is dropped. *)
Fixpoint unique_after (kept : A) (v : list A) : list A :=
  match v with
  | [] => []
  | x :: rest =>
      if decide (kept = x) then unique_after kept rest
      else x :: unique_after x rest
  end.

Definition unique (v : list A) : list A :=
  match v with
  | [] => []
  | x :: rest => x :: unique_after x rest
  end.

(** utils.h:392-399: the vector is cut to what [std::unique] kept. *)
Definition removeDuplicates (vec : list A) (parallel : bool) : list A :=
  unique (if parallel then parallelQuickSort vec else sequentialSort vec).

End RemoveDuplicates.

(** ** The FNV-1a hash (utils.h:205-226) *)

Definition FNV_OFFSET_BASIS : Z := 0xcbf29ce484222325.
Definition FNV_PRIME : Z := 0x100000001b3.

(** utils.h:208-211, [fnv1a_hash(byte_type b, size_type seed)] *)
Definition fnv1a_hash_byte (b seed : Z) : Z := wrap64 (Z.lxor seed b * FNV_PRIME).

(** utils.h:213-218: the bytes of [val] in the order of memory, which
    is from the lowest byte on where the library is built (x86-64). *)
Fixpoint fnv1a_hash_bytes (n : nat) (val seed : Z) : Z :=
  match n with
  | O => seed
  | S n' => fnv1a_hash_bytes n' (val / 256) (fnv1a_hash_byte (val mod 256) seed)
  end.

Definition fnv1a_hash (val seed : Z) : Z := fnv1a_hash_bytes 8 val seed.

(** utils.h:220-226: every element is cast to [byte_type]. *)
Definition fnv1a_hash_array (array : list Z) : Z :=
  foldl (fun res x => fnv1a_hash_byte (x mod 256) res) FNV_OFFSET_BASIS array.

(** ** The byte codes of the compressed records *)

(** The bytes of a buffer are integers of [0, 256); a buffer with its
    cursor is the list of the bytes from the cursor on. *)

Module ByteCode.

(** Modelled from the spec: [ByteCode] is declared in a header included
    through internal.h (support.cpp only calls [ByteCode::write] and
    [ByteCode::read]).
    Section 4.1: "emit lowest 7 bits of value with high bit set while
    value >= 128; emit final 7 bits with high bit clear".  The loop runs
    once per 7 bits of the value, so the binary logarithm of the value
    bounds the number of its turns. *)
Fixpoint write_loop (fuel : nat) (value : Z) : list Z :=
  match fuel with
  | O => [value mod 128]
  | S fuel' =>
      if value >=? 128
      then (value mod 128 + 128) :: write_loop fuel' (value / 128)
      else [value mod 128]
  end.

Definition write (value : Z) : list Z :=
  write_loop (Z.to_nat (Z.log2 value)) value.

(** Modelled from the spec: section 4.1, "consume bytes while high bit is
    set, accumulating payload left-shifted by 7*i; return the integer and
    advance cursor".  A stream that ends inside a code is undefined there
    and [None] here. *)
Fixpoint read_loop (buf : list Z) (shift acc : Z) : option (Z * list Z) :=
  match buf with
  | [] => None
  | b :: rest =>
      let acc := acc + Z.shiftl (b mod 128) shift in
      if b >=? 128 then read_loop rest (shift + 7) acc else Some (acc, rest)
  end.

Definition read (buf : list Z) : option (Z * list Z) := read_loop buf 0 0.

End ByteCode.

Module Run.

(** Modelled from the spec: [Run] is declared beside [ByteCode]
    (support.cpp:370-371 constructs it with [outdegree() > 0] and calls
    [write]).  Section 4.2: "Let RUN_CONTINUES = 256 / sigma if
    sigma > 0 (number of lengths that fit in a single byte)". *)
Definition RUN_CONTINUES (sigma : Z) : Z := 256 / sigma.

(** Modelled from the spec: section 4.2, "if length < RUN_CONTINUES:
    emit one byte rank * RUN_CONTINUES + length.  Else emit
    rank * RUN_CONTINUES + (RUN_CONTINUES - 1) then
    ByteCode(length - (RUN_CONTINUES - 1))".  What is emitted is a byte:
    the value is reduced to 8 bits. *)
Definition write (sigma : Z) (run : run_type) : list Z :=
  let rc := RUN_CONTINUES sigma in
  if run.2 <? rc then [(run.1 * rc + run.2) mod 256]
  else ((run.1 * rc + (rc - 1)) mod 256) :: ByteCode.write (run.2 - (rc - 1)).

(** Modelled from the spec: section 4.2, "decode byte b;
    rank = b / RUN_CONTINUES; short_len = b mod RUN_CONTINUES; if
    short_len < RUN_CONTINUES - 1, length = short_len; else
    length = (RUN_CONTINUES - 1) + ByteCode::read".  The quotient by a
    [RUN_CONTINUES] of 0 is undefined, as is reading past the end. *)
Definition read (sigma : Z) (buf : list Z) : option (run_type * list Z) :=
  let rc := RUN_CONTINUES sigma in
  match buf with
  | [] => None
  | b :: rest =>
      if rc =? 0 then None
      else
        let rank := b / rc in
        let short_len := b mod rc in
        if short_len <? rc - 1 then Some ((rank, short_len), rest)
        else
          match ByteCode.read rest with
          | None => None
          | Some (more, rest') => Some ((rank, rc - 1 + more), rest')
          end
  end.

(** The body of a record: the codes of its runs one after the other
    (support.cpp:371), and their decoding in order until the buffer is
    used up.  Every [read] takes at least one byte, so the length of the
    buffer bounds the number of runs. *)
Definition write_all (sigma : Z) (runs : list run_type) : list Z :=
  concat (map (write sigma) runs).

Fixpoint read_all_fuel (fuel : nat) (sigma : Z) (buf : list Z) : option (list run_type) :=
  match buf with
  | [] => Some []
  | _ :: _ =>
      match fuel with
      | O => None
      | S fuel' =>
          match read sigma buf with
          | None => None
          | Some (run, rest) => (fun runs => run :: runs) <$> read_all_fuel fuel' sigma rest
          end
      end
  end.

Definition read_all (sigma : Z) (buf : list Z) : option (list run_type) :=
  read_all_fuel (length buf) sigma buf.

End Run.

(** ** The succinct vectors of sdsl *)

Module Sdsl.

(** Modelled from the spec: sdsl's [bit_vector], [sd_vector],
    [sd_vector_builder], [int_vector] and their rank and select supports
    belong to the sdsl library.  They are modelled by what they hold
    (section 3: a "bitvector over records", a "sparse bitvector" that
    "marks" positions, "rank1 support", "select support", a "packed
    integer vector"): a plain bit vector is the list of its bits, a
    sparse one its length with the increasing list of its marked
    positions, and a packed vector its width with the list of its
    values.  An index outside a vector is [None]. *)
Abbreviation bit_vector := (list bool) (only parsing).

Definition bit_vector_new (n : nat) : bit_vector := replicate n false.

Definition bv_get (v : bit_vector) (i : Z) : option bool := v !! Z.to_nat i.

(** [rank(i)]: the number of set bits among the first [i]. *)
Definition bv_rank (v : bit_vector) (i : Z) : Z :=
  Z.of_nat (length (filter (fun b => b = true) (take (Z.to_nat i) v))).

Record sd_vector : Type := mkSd {
  sd_size : Z;
  sd_ones : list Z
}.

Definition sd_get (v : sd_vector) (i : Z) : option bool :=
  if (0 <=? i) && (i <? sd_size v) then Some (bool_decide (i ∈ sd_ones v)) else None.

(** [rank_1(i)]: the number of marked positions below [i]. *)
Definition sd_rank (v : sd_vector) (i : Z) : Z :=
  Z.of_nat (length (filter (fun p => p < i) (sd_ones v))).

(** [select_1(k)]: the [k]-th marked position, counted from 1. *)
Definition sd_select (v : sd_vector) (k : Z) : option Z :=
  if 1 <=? k then sd_ones v !! Z.to_nat (k - 1) else None.

(** The builder takes a length and a number of positions, which may not
    exceed the length; [set(i)] wants [i] at or after the position that
    follows the last one set, below the length, and room for one more
    position; the vector is made from a builder that is full. *)
Record sd_vector_builder : Type := mkBuilder {
  b_size : Z;
  b_capacity : Z;
  b_tail : Z;
  b_items : list Z
}.

Definition builder_new (n m : Z) : option sd_vector_builder :=
  if m <=? n then Some (mkBuilder n m 0 []) else None.

Definition builder_set (b : sd_vector_builder) (i : Z) : option sd_vector_builder :=
  if (b_tail b <=? i) && (i <? b_size b)
     && (Z.of_nat (length (b_items b)) <? b_capacity b)
  then Some (mkBuilder (b_size b) (b_capacity b) (i + 1) (b_items b ++ [i]))
  else None.

Definition sd_of_builder (b : sd_vector_builder) : option sd_vector :=
  if Z.of_nat (length (b_items b)) =? b_capacity b
  then Some (mkSd (b_size b) (b_items b))
  else None.

Record int_vector : Type := mkIv {
  iv_width : Z;
  iv_data : list Z
}.

Definition int_vector_new (n : Z) (default width : Z) : int_vector :=
  mkIv width (replicate (Z.to_nat n) (default mod 2 ^ width)).

Definition iv_get (a : int_vector) (i : Z) : option Z := iv_data a !! Z.to_nat i.

Definition iv_set (a : int_vector) (i x : Z) : option int_vector :=
  if (0 <=? i) && (i <? Z.of_nat (length (iv_data a)))
  then Some (mkIv (iv_width a) (<[Z.to_nat i := x mod 2 ^ iv_width a]> (iv_data a)))
  else None.

End Sdsl.

(** utils.h:196-201.  [sdsl::bits::hi] is the position of the highest
    set bit, and 0 for 0. *)
Definition bit_length (val : Z) : Z := Z.log2 val + 1.

(** ** The sampled document array (support.cpp:479-526, 635-646) *)

(** Modelled from the spec: the members of [DASamples] are declared in
    a header included through internal.h; they are the ones [DASamples::swap]
    exchanges (support.cpp:533-542), with the types section 3 gives
    them.  The rank and select supports hold no data of their own: they
    answer from the vector they are bound to. *)
Record DASamples : Type := mkDASamples {
  sampled_records : Sdsl.bit_vector;
  bwt_ranges : Sdsl.sd_vector;
  sampled_offsets : Sdsl.sd_vector;
  array : Sdsl.int_vector
}.

Module DA.

(** support.cpp:484-491: the first loop, from index [i] on, over the
    state [(records, offsets, sample_count, sampled_records)]. *)
Fixpoint mark (bwt : list DynamicRecord) (i : nat)
    (st : Z * Z * Z * Sdsl.bit_vector) : Z * Z * Z * Sdsl.bit_vector :=
  match bwt with
  | [] => st
  | rec :: rest =>
      let '(records, offsets, sample_count, marks) := st in
      if Rec.samples rec >? 0
      then mark rest (S i)
             (wrap64 (records + 1), wrap64 (offsets + Rec.size rec),
              wrap64 (sample_count + Rec.samples rec), <[i := true]> marks)
      else mark rest (S i) st
  end.

(** support.cpp:503-507: the samples of one record. *)
Fixpoint set_samples (ids : list sample_type) (offset : Z)
    (ob : Sdsl.sd_vector_builder) (max_sample : Z)
    : option (Sdsl.sd_vector_builder * Z) :=
  match ids with
  | [] => Some (ob, max_sample)
  | sample :: rest =>
      match Sdsl.builder_set ob (wrap64 (offset + sample.1)) with
      | None => None
      | Some ob' => set_samples rest offset ob' (Z.max max_sample sample.2)
      end
  end.

(** support.cpp:498-510: the second loop, over the state
    [(offset, max_sample)] and the two builders. *)
Fixpoint build (bwt : list DynamicRecord) (offset max_sample : Z)
    (rb ob : Sdsl.sd_vector_builder)
    : option (Sdsl.sd_vector_builder * Sdsl.sd_vector_builder * Z) :=
  match bwt with
  | [] => Some (rb, ob, max_sample)
  | rec :: rest =>
      if Rec.samples rec >? 0
      then
        match Sdsl.builder_set rb offset with
        | None => None
        | Some rb' =>
            match set_samples (ids rec) offset ob max_sample with
            | None => None
            | Some (ob', max_sample') =>
                build rest (wrap64 (offset + Rec.size rec)) max_sample' rb' ob'
            end
        end
      else build rest offset max_sample rb ob
  end.

(** support.cpp:523: the samples of one record. *)
Fixpoint store_samples (ids : list sample_type) (curr : Z) (a : Sdsl.int_vector)
    : option (Z * Sdsl.int_vector) :=
  match ids with
  | [] => Some (curr, a)
  | sample :: rest =>
      match Sdsl.iv_set a curr sample.2 with
      | None => None
      | Some a' => store_samples rest (wrap64 (curr + 1)) a'
      end
  end.

(** support.cpp:519-525: the third loop. *)
Fixpoint store (bwt : list DynamicRecord) (curr : Z) (a : Sdsl.int_vector)
    : option Sdsl.int_vector :=
  match bwt with
  | [] => Some a
  | rec :: rest =>
      if Rec.samples rec >? 0
      then
        match store_samples (ids rec) curr a with
        | None => None
        | Some (curr', a') => store rest curr' a'
        end
      else store rest curr a
  end.

(** support.cpp:479-526, [DASamples::DASamples(bwt)] *)
Definition from_bwt (bwt : list DynamicRecord) : option DASamples :=
  let '(records, offsets, sample_count, marks) :=
    mark bwt 0 (0, 0, 0, Sdsl.bit_vector_new (length bwt)) in
  match Sdsl.builder_new offsets records, Sdsl.builder_new offsets sample_count with
  | Some range_builder, Some offset_builder =>
      match build bwt 0 0 range_builder offset_builder with
      | None => None
      | Some (rb, ob, max_sample) =>
          match Sdsl.sd_of_builder rb, Sdsl.sd_of_builder ob with
          | Some ranges, Some offs =>
              match store bwt 0 (Sdsl.int_vector_new sample_count 0 (bit_length max_sample)) with
              | None => None
              | Some a => Some (mkDASamples marks ranges offs a)
              end
          | _, _ => None
          end
      end
  | _, _ => None
  end.

(** support.cpp:635-646 *)
Definition tryLocate (das : DASamples) (record offset : Z) : option Z :=
  match Sdsl.bv_get (sampled_records das) record with
  | None => None
  | Some false => Some invalid_sequence
  | Some true =>
      match Sdsl.sd_select (bwt_ranges das)
              (wrap64 (Sdsl.bv_rank (sampled_records das) record + 1)) with
      | None => None
      | Some record_start =>
          match Sdsl.sd_get (sampled_offsets das) (wrap64 (record_start + offset)) with
          | None => None
          | Some true =>
              Sdsl.iv_get (array das)
                (Sdsl.sd_rank (sampled_offsets das) (wrap64 (record_start + offset)))
          | Some false => Some invalid_sequence
          end
      end
  end.

End DA.

(** ** The array of compressed records (support.cpp:328-457) *)

(** Modelled from the spec: the members of [RecordArray] are declared
    in a header included through internal.h; they are the ones [RecordArray::swap]
    exchanges (support.cpp:387-390): the number of records, the sparse
    vector of the record starts and the bytes.  The select support is
    bound to [index] and holds no data of its own. *)
Record RecordArray : Type := mkRecordArray {
  records : Z;
  index : Sdsl.sd_vector;
  data : list Z
}.

Module RA.

(** support.cpp:359-365: the outgoing edges as (gap, offset) pairs; the
    gap is formed in [node_type]. *)
Fixpoint write_outgoing (out : list edge_type) (prev : Z) : list Z :=
  match out with
  | [] => []
  | outedge :: rest =>
      ByteCode.write (wrap64 (outedge.1 - prev)) ++ ByteCode.write outedge.2
        ++ write_outgoing rest outedge.1
  end.

(** support.cpp:357-372: what one record adds to [data]. *)
Definition write_record (current : DynamicRecord) : list Z :=
  ByteCode.write (Rec.outdegree current)
    ++ write_outgoing (outgoing current) 0
    ++ (if Rec.outdegree current >? 0
        then Run.write_all (Rec.outdegree current) (body current) else []).

(** support.cpp:351-373: the loop over the records, with the bytes and
    the starting offsets collected so far. *)
Fixpoint compress (bwt : list DynamicRecord) (bytes offsets : list Z)
    : list Z * list Z :=
  match bwt with
  | [] => (bytes, offsets)
  | current :: rest =>
      compress rest (bytes ++ write_record current)
        (offsets ++ [Z.of_nat (length bytes)])
  end.

(** support.cpp:377 *)
Fixpoint set_all (offsets : list Z) (builder : Sdsl.sd_vector_builder)
    : option Sdsl.sd_vector_builder :=
  match offsets with
  | [] => Some builder
  | offset :: rest =>
      match Sdsl.builder_set builder offset with
      | None => None
      | Some builder' => set_all rest builder'
      end
  end.

(** support.cpp:347-380, [RecordArray::RecordArray(bwt)] *)
Definition from_bwt (bwt : list DynamicRecord) : option RecordArray :=
  let '(bytes, offsets) := compress bwt [] [] in
  match Sdsl.builder_new (Z.of_nat (length bytes)) (Z.of_nat (length offsets)) with
  | None => None
  | Some builder =>
      match set_all offsets builder with
      | None => None
      | Some builder' =>
          match Sdsl.sd_of_builder builder' with
          | None => None
          | Some idx => Some (mkRecordArray (Z.of_nat (length bwt)) idx bytes)
          end
      end
  end.

(** support.cpp:328-331, [RecordArray::RecordArray()]: no record, and
    the empty vectors the members are constructed with. *)
Definition empty : RecordArray := mkRecordArray 0 (Sdsl.mkSd 0 []) [].

End RA.

(** ** Compressed records (support.cpp:223-236, 316-324) *)

(** Modelled from the spec: the members of [CompressedRecord] are
    declared in a header included through internal.h; they are the ones
    its constructor assigns (support.cpp:225-235): the vector of
    outgoing edges, the pointer [body] into the source, modelled by the
    bytes from it on, and [data_size]. *)
Record CompressedRecord : Type := mkCompressed {
  c_outgoing : list edge_type;
  c_body : list Z;
  c_data_size : Z
}.

Module CRec.

Definition outdegree (rec : CompressedRecord) : Z :=
  Z.of_nat (length (c_outgoing rec)).
Definition successor (rec : CompressedRecord) (outrank : Z) : option Z :=
  fst <$> c_outgoing rec !! Z.to_nat outrank.

(** support.cpp:226-232: the loop over the edges [outgoing] was resized
    to.  The sum of gap and [prev] is formed in [node_type] and stored
    in the 32-bit [outedge.first], from which [prev] is read back. *)
Fixpoint read_outgoing (n : nat) (buf : list Z) (prev : Z)
    : option (list edge_type * list Z) :=
  match n with
  | O => Some ([], buf)
  | S n' =>
      match ByteCode.read buf with
      | None => None
      | Some (gap, buf1) =>
          let first := wrap32 (wrap64 (gap + prev)) in
          match ByteCode.read buf1 with
          | None => None
          | Some (off, buf2) =>
              match read_outgoing n' buf2 first with
              | None => None
              | Some (edges, rest) => Some ((first, wrap32 off) :: edges, rest)
              end
          end
      end
  end.

(** support.cpp:223-236.  [start] has moved past the edges when [body]
    and [data_size] are set. *)
Definition from_bytes (source : list Z) (start limit : Z) : option CompressedRecord :=
  match ByteCode.read (drop (Z.to_nat start) source) with
  | None => None
  | Some (n, buf) =>
      match read_outgoing (Z.to_nat n) buf 0 with
      | None => None
      | Some (edges, rest) =>
          let start := Z.of_nat (length source) - Z.of_nat (length rest) in
          Some (mkCompressed edges rest (wrap64 (limit - start)))
      end
  end.

(** support.cpp:316-324: the loop of [DynamicRecord::edgeTo] over the
    edges of the compressed record. *)
Definition edgeTo (rec : CompressedRecord) (to : Z) : Z :=
  Rec.edgeTo_from (c_outgoing rec) 0 to.

End CRec.

(** ** Serialization (support.cpp:414-448, 574-608) *)

(** A stream is the list of the bytes still to be read.  What sdsl
    writes for a value and reads back is the library's own format: a
    codec is any pair of a writer and a reader, and it is lawful when
    reading what was written gives the value back and leaves the stream
    after it. *)
Class Codec (A : Type) : Type := mkCodec {
  put : A -> list Z;
  get : list Z -> option (A * list Z)
}.


(** A rank or select support is bound to its vector when loaded: what it
    writes may depend on the vector, and reading it yields no value. *)
Class SupportCodec (V : Type) : Type := mkSupportCodec {
  put_support : V -> list Z;
  get_support : list Z -> option (list Z)
}.


(** support.cpp:446-447: [data.resize(n)] followed by [in.read] of [n]
    bytes; where the stream is short the rest of [data] stays 0. *)
Definition read_bytes (n : Z) (stream : list Z) : list Z * list Z :=
  (take (Z.to_nat n) stream ++ replicate (Z.to_nat n - length stream) 0,
   drop (Z.to_nat n) stream).

Section Serialization.

Context {size_codec : Codec Z}.
Context {sd_codec : Codec Sdsl.sd_vector}.
Context {bv_codec : Codec (list bool)}.
Context {iv_codec : Codec Sdsl.int_vector}.
Context (select_codec : SupportCodec Sdsl.sd_vector).
Context (sd_rank_codec : SupportCodec Sdsl.sd_vector).
Context (bv_rank_codec : SupportCodec (list bool)).

(** support.cpp:414-434 *)
Definition RecordArray_serialize (x : RecordArray) : list Z :=
  put (records x)
    ++ put (index x)
    ++ put_support (SupportCodec := select_codec) (index x)
    ++ data x.

(** support.cpp:436-448 *)
Definition RecordArray_load (stream : list Z) : option (RecordArray * list Z) :=
  match get stream with
  | None => None
  | Some (n, stream1) =>
      match get stream1 with
      | None => None
      | Some (idx, stream2) =>
          match get_support (SupportCodec := select_codec) stream2 with
          | None => None
          | Some stream3 =>
              let '(bytes, stream4) := read_bytes (Sdsl.sd_size idx) stream3 in
              Some (mkRecordArray n idx bytes, stream4)
          end
      end
  end.



End Serialization.

(** *** A family of codecs over bytes

    Integers as the ByteCode of their zigzag code, vectors as their
    length followed by their elements, records as their members in
    order, and supports that write nothing.  They show that lawful codecs
    exist; nothing else depends on them. *)

Definition zigzag (z : Z) : Z := if z <? 0 then - 2 * z - 1 else 2 * z.
Definition unzigzag (n : Z) : Z := if Z.even n then n / 2 else - ((n + 1) / 2).

Definition put_Z (z : Z) : list Z := ByteCode.write (zigzag z).
Definition get_Z (stream : list Z) : option (Z * list Z) :=
  match ByteCode.read stream with
  | None => None
  | Some (n, rest) => Some (unzigzag n, rest)
  end.

Definition Z_codec : Codec Z := mkCodec Z put_Z get_Z.

Section ListCodec.

Context {A : Type} (codec : Codec A).

Definition put_elements (l : list A) : list Z := concat (map put l).

Fixpoint get_elements (n : nat) (stream : list Z) : option (list A * list Z) :=
  match n with
  | O => Some ([], stream)
  | S n' =>
      match get stream with
      | None => None
      | Some (a, stream') =>
          match get_elements n' stream' with
          | None => None
          | Some (l, stream'') => Some (a :: l, stream'')
          end
      end
  end.

Definition put_list (l : list A) : list Z :=
  put_Z (Z.of_nat (length l)) ++ put_elements l.

Definition get_list (stream : list Z) : option (list A * list Z) :=
  match get_Z stream with
  | None => None
  | Some (n, stream') => get_elements (Z.to_nat n) stream'
  end.

Definition list_codec : Codec (list A) := mkCodec (list A) put_list get_list.

End ListCodec.

Section IsoCodec.

Context {A B : Type} (codec : Codec A) (to : A -> B) (from : B -> A).

Definition put_iso (b : B) : list Z := put (from b).
Definition get_iso (stream : list Z) : option (B * list Z) :=
  match get stream with
  | None => None
  | Some (a, rest) => Some (to a, rest)
  end.

Definition iso_codec : Codec B := mkCodec B put_iso get_iso.

End IsoCodec.

Section PairCodec.

Context {A B : Type} (codec_a : Codec A) (codec_b : Codec B).

Definition put_pair (p : A * B) : list Z := put p.1 ++ put p.2.
Definition get_pair (stream : list Z) : option (A * B * list Z) :=
  match get stream with
  | None => None
  | Some (a, stream') =>
      match get stream' with
      | None => None
      | Some (b, rest) => Some ((a, b), rest)
      end
  end.

Definition pair_codec : Codec (A * B) := mkCodec (A * B) put_pair get_pair.

End PairCodec.


Definition sd_vector_codec : Codec Sdsl.sd_vector :=
  iso_codec (pair_codec Z_codec (list_codec Z_codec))
    (fun p => Sdsl.mkSd p.1 p.2) (fun v => (Sdsl.sd_size v, Sdsl.sd_ones v)).


Definition silent_support (V : Type) : SupportCodec V :=
  mkSupportCodec V (fun _ => []) (fun stream => Some stream).

(** ** What the properties of a record are stated with *)

(** The sum of the run lengths of a body. *)
Definition run_sum (runs : list run_type) : Z :=
  foldr (fun run acc => run.2 + acc) 0 runs.

(** The total length of the runs with out-rank [r]. *)
Definition run_total (r : Z) (runs : list run_type) : Z :=
  run_sum (filter (fun run => run.1 = r) runs).

(** The body written out: the out-rank of every position, in order. *)
Fixpoint positions (runs : list run_type) : list Z :=
  match runs with
  | [] => []
  | run :: rest => replicate (Z.to_nat run.2) run.1 ++ positions rest
  end.

(** The number of body positions [j < i] whose out-rank is [r]. *)
Definition rank_before (r : Z) (runs : list run_type) (i : Z) : Z :=
  Z.of_nat (length (filter (fun x => x = r) (take (Z.to_nat i) (positions runs)))).

(** The record invariants: the run lengths sum to [body_size], and every
    out-rank of the body is below [outdegree()]. *)
Definition record_inv (rec : DynamicRecord) : Prop :=
  run_sum (body rec) = body_size rec /\
  Forall (fun run => run.1 < Rec.outdegree rec) (body rec).

(** Every field holds a value of its C++ type. *)
Definition pair_typed (p : Z * Z) : Prop := is_short_type p.1 /\ is_short_type p.2.

Definition well_typed (rec : DynamicRecord) : Prop :=
  is_size_type (body_size rec) /\
  Forall pair_typed (incoming rec) /\
  Forall pair_typed (outgoing rec) /\
  Forall pair_typed (body rec) /\
  Forall pair_typed (ids rec).

(** The number of incoming edges recorded for the predecessor [from]. *)
Definition incoming_count (inc : list edge_type) (from : Z) : Z :=
  foldr (fun e acc => (if e.1 =? from then e.2 else 0) + acc) 0 inc.

(** What [LF(i)] is to return for one record and one index, with the sum
    of offset and rank taken as [sum] takes it. *)
Definition LF_result (sum : Z -> Z) (rec : DynamicRecord) (i : Z) : Prop :=
  (Rec.size rec <= i -> Rec.LF rec i = Some invalid_edge) /\
  (i < Rec.size rec ->
     exists r s off,
       positions (body rec) !! Z.to_nat i = Some r /\
       Rec.successor rec r = Some s /\
       Rec.offset rec r = Some off /\
       Rec.LF rec i = Some (s, sum (off + rank_before r (body rec) i))).

(** A record at the limit of the 32-bit components: one outgoing edge
    with offset 2^32 - 1 and a single run of length 2. *)
Definition wrapping_record : DynamicRecord :=
  mkRecord 2 [] [(5, 4294967295)] [(0, 2)] [].

(** A record at the limit of the 64-bit [size_type]: one outgoing edge
    with offset 1 and 2^32 + 1 runs of length 2^32 - 1 to it, 2^64 - 1
    positions in all. *)
Definition long_record : DynamicRecord :=
  mkRecord (2 ^ 64 - 1) [] [(5, 1)]
    (replicate (Z.to_nat (2 ^ 32 + 1)) (0, 2 ^ 32 - 1)) [].

(** A record with two outgoing edges to the same node. *)
Definition twin_record : DynamicRecord :=
  mkRecord 5 [] [(4, 10); (4, 20)] [(0, 2); (1, 1); (0, 2)] [].

(** Two records that satisfy the record invariants; the sample of the
    first one stands past the end of its body. *)
Definition stray_sample_bwt : list DynamicRecord :=
  [mkRecord 2 [] [(4, 0)] [(0, 2)] [(3, 7)];
   mkRecord 4 [] [(5, 0)] [(0, 4)] [(2, 5)]].

(** Two sampled records with 2^64 positions between them. *)
Definition overflowing_bwt : list DynamicRecord :=
  [mkRecord (2 ^ 63) [] [] [] [(0, 1)]; mkRecord (2 ^ 63) [] [] [] [(0, 2)]].

(** A run before and after [recode()]: the same length, and an out-rank
    that names the same outgoing edge in the record it belongs to. *)
Definition same_edge (rec rec' : DynamicRecord) (run run' : run_type) : Prop :=
  run'.2 = run.2 /\ is_short_type run'.1 /\
  exists e, outgoing rec !! Z.to_nat run.1 = Some e /\
            outgoing rec' !! Z.to_nat run'.1 = Some e.

(** A record with two successors and three runs. *)
Definition two_edge_record : DynamicRecord :=
  mkRecord 5 [] [(4, 10); (7, 20)] [(0, 2); (1, 1); (0, 2)] [].

(** ** What the properties of the samples are stated with *)

(** What a record needs for its samples to be stored: the sample
    offsets are positions of the body, in strictly increasing order. *)
Definition samples_inv (rec : DynamicRecord) : Prop :=
  is_size_type (body_size rec) /\
  Forall pair_typed (ids rec) /\
  Forall (fun s : Z * Z => s.1 < body_size rec) (ids rec) /\
  StronglySorted Z.lt (ids rec).*1.

Definition sampled (rec : DynamicRecord) : bool := Rec.samples rec >? 0.

(** The positions of all sampled records, laid end to end from [off]. *)
Fixpoint total (bwt : list DynamicRecord) : Z :=
  match bwt with
  | [] => 0
  | rec :: rest => (if sampled rec then body_size rec else 0) + total rest
  end.

(** Where the range of each sampled record starts. *)
Fixpoint starts (bwt : list DynamicRecord) (off : Z) : list Z :=
  match bwt with
  | [] => []
  | rec :: rest =>
      if sampled rec then off :: starts rest (off + body_size rec)
      else starts rest off
  end.

(** Where the samples stand, and their identifiers in the same order. *)
Fixpoint sample_positions (bwt : list DynamicRecord) (off : Z) : list Z :=
  match bwt with
  | [] => []
  | rec :: rest =>
      if sampled rec
      then map (fun s : Z * Z => off + s.1) (ids rec)
             ++ sample_positions rest (off + body_size rec)
      else sample_positions rest off
  end.

Fixpoint sample_ids (bwt : list DynamicRecord) : list Z :=
  match bwt with
  | [] => []
  | rec :: rest => if sampled rec then (ids rec).*2 ++ sample_ids rest else sample_ids rest
  end.

(** A builder that has taken the positions [l] more. *)
Definition extends (b b' : Sdsl.sd_vector_builder) (l : list Z) : Prop :=
  Sdsl.b_size b' = Sdsl.b_size b /\
  Sdsl.b_capacity b' = Sdsl.b_capacity b /\
  Sdsl.b_items b' = Sdsl.b_items b ++ l.

(** ** What the properties of the record array are stated with *)

(** Where the bytes of each record start, the first one at [off]. *)
Fixpoint record_starts (bwt : list DynamicRecord) (off : Z) : list Z :=
  match bwt with
  | [] => []
  | rec :: rest =>
      off :: record_starts rest (off + Z.of_nat (length (RA.write_record rec)))
  end.

(** ** The header fields read by [DynamicGBWT::contains] *)

(** Modelled from the spec: [GBWTHeader] is declared in gbwt.h, which
    dynamic_gbwt.h includes; its fields are the scalars of the specification's data model
    (size, sequences, alphabet_size, offset), each a [size_type]. *)
Record GBWTHeader : Type := mkHeader {
  h_size : Z;
  h_sequences : Z;
  h_alphabet_size : Z;
  h_offset : Z
}.

Module DynamicGBWT.

(** dynamic_gbwt.h:93 *)
Definition sigma (header : GBWTHeader) : Z := h_alphabet_size header.

(** dynamic_gbwt.h:97-100 *)
Definition contains (header : GBWTHeader) (node : Z) : bool :=
  ((node <? sigma header) && (node >? h_offset header)) || (node =? 0).

(** dynamic_gbwt.h:102 *)
Definition toComp (header : GBWTHeader) (node : Z) : Z :=
  if node =? 0 then node else wrap64 (node - h_offset header).

(** dynamic_gbwt.h:94 *)
Definition effective (header : GBWTHeader) : Z :=
  wrap64 (h_alphabet_size header - h_offset header).

(** dynamic_gbwt.h:155-163: [bwt[toComp(node)]]. *)
Definition record (header : GBWTHeader) (bwt : list DynamicRecord) (node : Z)
    : option DynamicRecord :=
  bwt !! Z.to_nat (toComp header node).

(** dynamic_gbwt.h:95 *)
Definition count (header : GBWTHeader) (bwt : list DynamicRecord) (node : Z)
    : option Z :=
  Rec.size <$> record header bwt node.

(** dynamic_gbwt.h:115-118, 127-130 and 139-142 *)
Definition LF (header : GBWTHeader) (bwt : list DynamicRecord) (from i : Z)
    : option edge_type :=
  match record header bwt from with
  | None => None
  | Some rec => Rec.LF rec i
  end.

Definition LF_to (header : GBWTHeader) (bwt : list DynamicRecord) (from i to : Z)
    : option Z :=
  match record header bwt from with
  | None => None
  | Some rec => Rec.LF_to rec i to
  end.

Definition LF_range (header : GBWTHeader) (bwt : list DynamicRecord)
    (from : Z) (range : range_type) (to : Z) : option range_type :=
  match record header bwt from with
  | None => None
  | Some rec => Rec.LF_range rec range to
  end.

End DynamicGBWT.

(** * Properties *)

(** ** The records of two small indexes

    The endmarker's record of the index of the two paths [3, 4, 0] and
    [3, 4, 0], and a record with two successors whose edges are not yet
    sorted, evaluated with the embedding. *)

Example endmarker_LF :
  Rec.LF (mkRecord 2 [(4, 2)] [(3, 0)] [(0, 2)] [(0, 0); (1, 1)]) 1 = Some (3, 1).
Proof. reflexivity. Qed.

Example endmarker_LF_range :
  Rec.LF_range (mkRecord 2 [(4, 2)] [(3, 0)] [(0, 2)] [(0, 0); (1, 1)]) (0, 1) 3
    = Some (0, 1).
Proof. reflexivity. Qed.

Example endmarker_LF_past_end :
  Rec.LF (mkRecord 2 [(4, 2)] [(3, 0)] [(0, 2)] [(0, 0); (1, 1)]) 2 = Some invalid_edge.
Proof. reflexivity. Qed.

Example unsorted_LF_to :
  Rec.LF_to (mkRecord 4 [] [(7, 5); (4, 0)] [(0, 1); (1, 2); (0, 1)] []) 3 4 = Some 2.
Proof. reflexivity. Qed.

Example unsorted_index :
  Rec.op_index (mkRecord 4 [] [(7, 5); (4, 0)] [(0, 1); (1, 2); (0, 1)] []) 2 = Some 4.
Proof. reflexivity. Qed.

Example unsorted_recode :
  Rec.recode (mkRecord 4 [] [(7, 5); (4, 0)] [(0, 1); (1, 2); (0, 1)] [])
    = Some (mkRecord 4 [] [(4, 0); (7, 5)] [(1, 1); (0, 2); (1, 1)] []).
Proof. reflexivity. Qed.

(** ** Ranges *)

Lemma wrap64_small x : 0 <= x < 2 ^ 64 -> wrap64 x = x.
Proof. intros H. unfold wrap64. now apply Z.mod_small. Qed.

Lemma wrap32_small x : 0 <= x < 2 ^ 32 -> wrap32 x = x.
Proof. intros H. unfold wrap32. now apply Z.mod_small. Qed.

Lemma wrap64_succ_max : wrap64 (invalid_offset + 1) = 0.
Proof. reflexivity. Qed.

Lemma wrap64_succ x : 0 <= x < 2 ^ 64 - 1 -> wrap64 (x + 1) = x + 1.
Proof. intros H. apply wrap64_small. lia. Qed.

(** C10. [Range::empty] compares [first + 1] with [second + 1], both
    computed modulo 2^64.  Hence a range ending in [invalid_offset()] is
    empty unless it also starts there, the range
    [(invalid_offset(), invalid_offset())] is not empty, and
    [empty_range()] = (1, 0) is empty. *)
Theorem range_empty_wraps :
  (forall first second : Z,
      Range.empty (first, second) = true <->
      (first + 1) mod 2 ^ 64 > (second + 1) mod 2 ^ 64) /\
  (forall first : Z,
      is_size_type first -> first <> invalid_offset ->
      Range.empty (first, invalid_offset) = true) /\
  Range.empty (invalid_offset, invalid_offset) = false /\
  Range.empty_range = (1, 0) /\
  invalid_offset = 2 ^ 64 - 1 /\
  Range.empty Range.empty_range = true.
Proof.
  split; [|split; [|repeat split]].
  - intros first second. unfold Range.empty, wrap64. simpl.
    rewrite Z.gtb_lt. lia.
  - intros first [Hlo Hhi] Hne. unfold Range.empty. simpl.
    rewrite wrap64_succ_max.
    assert (Hv : invalid_offset = 2 ^ 64 - 1) by reflexivity.
    rewrite wrap64_succ by lia. apply Z.gtb_lt. lia.
Qed.

Lemma range_empty_wraps_witness :
  Range.empty (5, invalid_offset) = true.
Proof.
  apply (proj1 (proj2 range_empty_wraps) 5).
  - unfold is_size_type. lia.
  - vm_compute. discriminate.
Defined.

(** ** Node identifiers *)

(** C3. [contains(n)] holds exactly for the endmarker and for the
    identifiers of [offset + 1 .. alphabet_size - 1]: the comparison
    [node > offset] rejects the dead range [1 .. offset] and accepts the
    boundary identifier [offset + 1] whenever it is below the alphabet
    size. *)
Theorem contains_iff (header : GBWTHeader) (n : Z) :
  (DynamicGBWT.contains header n = true <->
     n = 0 \/ (h_offset header + 1 <= n < h_alphabet_size header)) /\
  (1 <= n <= h_offset header -> DynamicGBWT.contains header n = false) /\
  (h_alphabet_size header <= n -> n <> 0 ->
     DynamicGBWT.contains header n = false) /\
  (h_offset header + 1 < h_alphabet_size header ->
     DynamicGBWT.contains header (h_offset header + 1) = true).
Proof.
  unfold DynamicGBWT.contains, DynamicGBWT.sigma.
  repeat split.
  - intros H. apply orb_true_iff in H as [H|H].
    + apply andb_true_iff in H as [H1 H2]. right. lia.
    + left. lia.
  - intros [->|H]; apply orb_true_iff.
    + right. reflexivity.
    + left. apply andb_true_iff. lia.
  - intros H. apply orb_false_iff. split; [apply andb_false_iff|]; lia.
  - intros H Hn. apply orb_false_iff. split; [apply andb_false_iff|]; lia.
  - intros H. apply orb_true_iff. left. apply andb_true_iff. lia.
Qed.

(** ** Dynamic records: targets that are not successors *)

Lemma edgeTo_from_bounds out k to :
  k <= Rec.edgeTo_from out k to <= k + Z.of_nat (length out).
Proof.
  revert k. induction out as [|e rest IH]; intros k; simpl.
  - lia.
  - destruct (e.1 =? to); [lia|]. specialize (IH (k + 1)). lia.
Qed.

Lemma edgeTo_from_missing out k to :
  Rec.edgeTo_from out k to = k + Z.of_nat (length out) <-> to ∉ out.*1.
Proof.
  revert k. induction out as [|e rest IH]; intros k; simpl.
  - split; [intros _; apply not_elem_of_nil | lia].
  - rewrite not_elem_of_cons. destruct (e.1 =? to) eqn:He.
    + apply Z.eqb_eq in He. split; [lia | intros [Hne _]; congruence].
    + apply Z.eqb_neq in He. rewrite <- (IH (k + 1)).
      split; [intros H; split; [congruence | lia] | intros [_ H]; lia].
Qed.

Lemma edgeTo_from_found out k to :
  Rec.edgeTo_from out k to < k + Z.of_nat (length out) ->
  exists e, out !! Z.to_nat (Rec.edgeTo_from out k to - k) = Some e /\ e.1 = to.
Proof.
  revert k. induction out as [|e rest IH]; intros k; simpl.
  - lia.
  - destruct (e.1 =? to) eqn:He.
    + intros _. apply Z.eqb_eq in He. exists e.
      replace (k - k) with 0 by lia. auto.
    + intros H. destruct (IH (k + 1)) as (e' & Hl & He'); [lia|].
      exists e'. split; [|exact He'].
      pose proof (edgeTo_from_bounds rest (k + 1) to) as Hb.
      replace (Z.to_nat (Rec.edgeTo_from rest (k + 1) to - k))
        with (S (Z.to_nat (Rec.edgeTo_from rest (k + 1) to - (k + 1)))) by lia.
      exact Hl.
Qed.

Lemma edgeTo_bounds rec to : 0 <= Rec.edgeTo rec to <= Rec.outdegree rec.
Proof. apply (edgeTo_from_bounds (outgoing rec) 0 to). Qed.

Lemma offset_is_Some rec r :
  0 <= r < Rec.outdegree rec -> is_Some (Rec.offset rec r).
Proof.
  intros H. unfold Rec.offset, Rec.outdegree in *.
  apply fmap_is_Some, lookup_lt_is_Some. lia.
Qed.

(** C6. A target that is not a successor of the record ([edgeTo]
    returns [outdegree()]) makes [LF(i, to)] return [invalid_offset()]
    for every [i] and [LF(range, to)] return the empty range for every
    range; an empty input range gives the empty range for any target. *)
Theorem LF_missing_target (rec : DynamicRecord) (to : Z) :
  (Rec.edgeTo rec to = Rec.outdegree rec <-> to ∉ (outgoing rec).*1) /\
  (Rec.edgeTo rec to = Rec.outdegree rec ->
     (forall i, Rec.LF_to rec i to = Some invalid_offset) /\
     (forall range, Rec.LF_range rec range to = Some Range.empty_range)) /\
  (forall range,
     Range.empty range = true ->
     Rec.LF_range rec range to = Some Range.empty_range).
Proof.
  split; [|split].
  - apply (edgeTo_from_missing (outgoing rec) 0 to).
  - intros H. split.
    + intros i. unfold Rec.LF_to. rewrite H.
      now rewrite (proj2 (Z.geb_le _ _) (Z.le_refl _)).
    + intros range. unfold Rec.LF_range. rewrite H.
      rewrite (proj2 (Z.geb_le _ _) (Z.le_refl _)).
      now destruct (Range.empty range).
  - intros range H. unfold Rec.LF_range. now rewrite H.
Qed.

Lemma LF_missing_target_witness :
  Rec.LF_to (mkRecord 3 [] [(4, 0); (7, 1)] [(0, 2); (1, 1)] []) 1 5
    = Some invalid_offset /\
  Rec.LF_range (mkRecord 3 [] [(4, 0); (7, 1)] [(0, 2); (1, 1)] []) (0, 2) 5
    = Some Range.empty_range.
Proof.
  pose proof (LF_missing_target
                (mkRecord 3 [] [(4, 0); (7, 1)] [(0, 2); (1, 1)] []) 5)
    as (_ & H & _).
  destruct (H eq_refl) as [H1 H2]. split; [apply H1 | apply H2].
Defined.

(** ** Dynamic records: the unguarded read in the range mapping *)

(** C9. [LF(range, to)] reads [*body.begin()] without testing that the
    body is non-empty.  The read is out of bounds exactly when the range
    is non-empty, the target is a successor and the body is empty: a
    record whose body is non-empty whenever it has an outgoing edge never
    reaches it, and a record with outgoing edges and an empty body does,
    for every non-empty range and successor target. *)
Theorem LF_range_unguarded_read (rec : DynamicRecord) (range : range_type) (to : Z) :
  (Rec.LF_range rec range to = None <->
     Range.empty range = false /\
     Rec.edgeTo rec to < Rec.outdegree rec /\ body rec = []) /\
  ((outgoing rec <> [] -> body rec <> []) ->
     is_Some (Rec.LF_range rec range to)) /\
  (outgoing rec <> [] -> body rec = [] ->
   Range.empty range = false -> Rec.edgeTo rec to < Rec.outdegree rec ->
     Rec.LF_range rec range to = None).
Proof.
  assert (Hiff : Rec.LF_range rec range to = None <->
     Range.empty range = false /\
     Rec.edgeTo rec to < Rec.outdegree rec /\ body rec = []).
  { unfold Rec.LF_range. destruct (Range.empty range); [split; [discriminate|intros [? _]; discriminate]|].
    destruct (Rec.edgeTo rec to >=? Rec.outdegree rec) eqn:Hge.
    - apply Z.geb_le in Hge. split; [discriminate | lia].
    - rewrite Z.geb_leb in Hge. apply Z.leb_gt in Hge.
      destruct (body rec) as [|run rest].
      + split; auto.
      + destruct (offset_is_Some rec (Rec.edgeTo rec to)) as [off ->].
        { pose proof (edgeTo_bounds rec to). lia. }
        split; [discriminate | intros (_ & _ & ?); discriminate]. }
  split; [exact Hiff | split].
  - intros Hbody. apply not_eq_None_Some. intros E.
    apply Hiff in E as (_ & Hlt & Hnil). apply Hbody; [|exact Hnil].
    intros Hout. unfold Rec.outdegree in Hlt. rewrite Hout in Hlt.
    pose proof (edgeTo_bounds rec to). simpl in Hlt. lia.
  - intros _ Hnil He Hlt. apply Hiff. auto.
Qed.

Lemma LF_range_unguarded_read_witness :
  is_Some (Rec.LF_range (mkRecord 3 [] [(4, 0); (7, 1)] [(0, 2); (1, 1)] []) (0, 2) 7) /\
  Rec.LF_range (mkRecord 0 [] [(4, 0)] [] []) (0, 0) 4 = None.
Proof.
  split.
  - apply (proj1 (proj2 (LF_range_unguarded_read
                           (mkRecord 3 [] [(4, 0); (7, 1)] [(0, 2); (1, 1)] []) (0, 2) 7))).
    intros _. discriminate.
  - apply (proj2 (proj2 (LF_range_unguarded_read (mkRecord 0 [] [(4, 0)] [] []) (0, 0) 4))).
    + discriminate.
    + reflexivity.
    + reflexivity.
    + reflexivity.
Defined.

(** ** Dynamic records: offsets past the end *)

Lemma wrap64_idemp_l a b : wrap64 (wrap64 a + b) = wrap64 (a + b).
Proof. unfold wrap64. apply Zplus_mod_idemp_l. Qed.

Lemma wrap64_wrap64 a : wrap64 (wrap64 a) = wrap64 a.
Proof. unfold wrap64. apply Zmod_mod. Qed.

Lemma run_sum_cons run rest : run_sum (run :: rest) = run.2 + run_sum rest.
Proof. reflexivity. Qed.

Lemma run_sum_nonneg runs :
  Forall (fun run : Z * Z => 0 <= run.2) runs -> 0 <= run_sum runs.
Proof.
  induction 1 as [|run rest H _ IH]; [reflexivity|].
  rewrite run_sum_cons. lia.
Qed.

Lemma run_total_cons r run rest :
  run_total r (run :: rest) = (if run.1 =? r then run.2 else 0) + run_total r rest.
Proof.
  unfold run_total. rewrite filter_cons.
  destruct (Z.eqb_spec run.1 r) as [E|E]; destruct (decide (run.1 = r)); try contradiction;
    [apply run_sum_cons | reflexivity].
Qed.

Lemma run_total_bounds r runs :
  Forall (fun run : Z * Z => 0 <= run.2) runs ->
  0 <= run_total r runs <= run_sum runs.
Proof.
  induction 1 as [|run rest H _ IH].
  - unfold run_total. simpl. lia.
  - rewrite run_total_cons, run_sum_cons. destruct (run.1 =? r); lia.
Qed.

Lemma pair_typed_nonneg runs :
  Forall pair_typed runs -> Forall (fun run : Z * Z => 0 <= run.2) runs.
Proof. intros H. eapply Forall_impl; [exact H|]. intros run [_ [Hr _]]. exact Hr. Qed.

Lemma wrap64_range x : 0 <= wrap64 x < 2 ^ 64.
Proof. unfold wrap64. apply Z.mod_pos_bound. lia. Qed.

(** Once [offset] plus the remaining run lengths cannot exceed [i], the
    loop of [LF(i, to)] adds every remaining run of the chosen out-rank:
    the test [offset >= i] can only succeed with [offset = i], where
    nothing is subtracted and only runs of length 0 are skipped. *)
Lemma LF_to_loop_clamped runs r i result offset :
  Forall (fun run : Z * Z => 0 <= run.2) runs ->
  0 <= result < 2 ^ 64 ->
  0 <= offset -> offset + run_sum runs <= i -> i < 2 ^ 64 ->
  Rec.LF_to_loop runs r i result offset = wrap64 (result + run_total r runs).
Proof.
  intros Hnn. revert result offset.
  induction Hnn as [|run rest Hrun Hrest IH]; intros result offset Hres Hoff Hsum Hi.
  - simpl. unfold run_total. simpl. rewrite Z.add_0_r. symmetry. now apply wrap64_small.
  - rewrite run_sum_cons in Hsum.
    pose proof (run_sum_nonneg rest Hrest) as Hrs.
    pose proof (run_total_bounds r rest Hrest) as Hrt.
    simpl Rec.LF_to_loop. rewrite run_total_cons.
    rewrite (wrap64_small (offset + run.2)) by lia.
    destruct (offset + run.2 >=? i) eqn:Hge.
    + apply Z.geb_le in Hge.
      assert (Hz : run_total r rest = 0) by lia.
      rewrite Hz, Z.add_0_r.
      replace (offset + run.2 - i) with 0 by lia.
      destruct (run.1 =? r).
      * change (wrap64 0) with 0. rewrite Z.sub_0_r. apply wrap64_wrap64.
      * rewrite Z.add_0_r. symmetry. now apply wrap64_small.
    + rewrite Z.geb_leb in Hge. apply Z.leb_gt in Hge.
      rewrite IH; try lia.
      * destruct (run.1 =? r).
        -- rewrite wrap64_idemp_l. f_equal. lia.
        -- f_equal.
      * destruct (run.1 =? r); [apply wrap64_range | exact Hres].
Qed.

Lemma edgeTo_from_before (out : list (Z * Z)) : forall k to (j : nat) e,
  out !! j = Some e -> k + Z.of_nat j < Rec.edgeTo_from out k to -> e.1 <> to.
Proof.
  induction out as [|e0 rest IH]; intros k to j e Hl Hlt; [discriminate|].
  simpl in Hlt. destruct (e0.1 =? to) eqn:E; [lia|].
  apply Z.eqb_neq in E. destruct j as [|j]; simpl in Hl.
  - now injection Hl as <-.
  - apply (IH (k + 1) to j e Hl). lia.
Qed.

(** The out-rank [edgeTo] finds: the first one whose successor is
    [to], which is the only one when the successors are pairwise
    distinct. *)
Lemma edgeTo_first rec to r :
  0 <= r -> Rec.successor rec r = Some to ->
  NoDup (outgoing rec).*1 \/
    (forall r', 0 <= r' < r -> Rec.successor rec r' <> Some to) ->
  Rec.edgeTo rec to = r.
Proof.
  intros Hr Hs Hfirst. unfold Rec.successor in Hs.
  apply fmap_Some in Hs as (e & He & Hto).
  pose proof (lookup_lt_Some _ _ _ He) as Hlen.
  pose proof (edgeTo_bounds rec to) as Hb.
  assert (Hle : Rec.edgeTo rec to <= r).
  { destruct (Z.le_gt_cases (Rec.edgeTo rec to) r) as [H|H]; [exact H|].
    exfalso. apply (edgeTo_from_before (outgoing rec) 0 to (Z.to_nat r) e He);
      [unfold Rec.edgeTo in H; lia | now symmetry]. }
  destruct (edgeTo_from_found (outgoing rec) 0 to) as (e' & He' & Hto');
    [unfold Rec.edgeTo in Hle; lia|].
  rewrite Z.sub_0_r in He'. fold (Rec.edgeTo rec to) in He'.
  destruct Hfirst as [Hnd|Hfirst].
  - assert (H1 : (outgoing rec).*1 !! Z.to_nat r = Some to)
      by (rewrite list_lookup_fmap, He; simpl; congruence).
    assert (H2 : (outgoing rec).*1 !! Z.to_nat (Rec.edgeTo rec to) = Some to)
      by (rewrite list_lookup_fmap, He'; simpl; congruence).
    pose proof (NoDup_lookup _ _ _ _ Hnd H1 H2). lia.
  - destruct (Z.eq_dec (Rec.edgeTo rec to) r) as [Heq|Hne]; [exact Heq|].
    exfalso. apply (Hfirst (Rec.edgeTo rec to)); [lia|].
    unfold Rec.successor. rewrite He'. simpl. now rewrite Hto'.
Qed.

Lemma run_sum_replicate n (run : Z * Z) :
  run_sum (replicate n run) = Z.of_nat n * run.2.
Proof.
  induction n as [|n IH]; [reflexivity|].
  change (replicate (S n) run) with (run :: replicate n run).
  rewrite run_sum_cons, IH. lia.
Qed.

Lemma run_total_replicate r n (run : Z * Z) :
  run.1 = r -> run_total r (replicate n run) = Z.of_nat n * run.2.
Proof.
  intros Hr. induction n as [|n IH]; [reflexivity|].
  change (replicate (S n) run) with (run :: replicate n run).
  rewrite run_total_cons, IH, (proj2 (Z.eqb_eq _ _) Hr). lia.
Qed.

(** C8, as amended.  For a successor [to] of a record that satisfies the
    record invariants, with [r] its out-rank (the first one whose
    successor is [to], which [edgeTo] finds, and the only one when the
    successors are pairwise distinct), and for an offset [i] at or past
    the end of the record, [LF(i, to)] is [offset(r)] plus the total
    length of the runs with out-rank [r], formed in the 64 bits of
    [size_type], that is modulo 2^64, and the plain sum whenever
    [size()] is at most 2^64 - 2^32: the offset is clamped to the end
    of the record, where [LF(i)] returns [invalid_edge()]. *)
Theorem LF_to_clamps_past_end (rec : DynamicRecord) (i to r : Z) :
  well_typed rec -> record_inv rec ->
  0 <= r -> Rec.successor rec r = Some to ->
  NoDup (outgoing rec).*1 \/
    (forall r', 0 <= r' < r -> Rec.successor rec r' <> Some to) ->
  is_size_type i -> Rec.size rec <= i ->
  exists off,
    Rec.offset rec r = Some off /\
    Rec.LF_to rec i to = Some (wrap64 (off + run_total r (body rec))) /\
    (Rec.size rec <= 2 ^ 64 - 2 ^ 32 ->
       Rec.LF_to rec i to = Some (off + run_total r (body rec))) /\
    Rec.LF rec i = Some invalid_edge.
Proof.
  intros (Hsize & _ & Hout & Hbody & _) [Hsum Hranks] Hr Hsucc Hfirst Hi Hge.
  pose proof (edgeTo_first rec to r Hr Hsucc Hfirst) as Hedge.
  assert (Hlt : r < Rec.outdegree rec).
  { unfold Rec.successor in Hsucc. apply fmap_Some in Hsucc as (e & He & _).
    apply lookup_lt_Some in He. unfold Rec.outdegree. lia. }
  destruct (offset_is_Some rec r) as [off Hoff]; [lia|].
  assert (Htyped : is_short_type off).
  { unfold Rec.offset in Hoff. apply fmap_Some in Hoff as (e & Hl & ->).
    rewrite Forall_lookup in Hout. apply (Hout _ _ Hl). }
  pose proof (pair_typed_nonneg _ Hbody) as Hnn.
  pose proof (run_total_bounds r _ Hnn) as Hrt.
  unfold is_size_type, is_short_type, Rec.size in *.
  assert (HLF : Rec.LF_to rec i to = Some (wrap64 (off + run_total r (body rec)))).
  { unfold Rec.LF_to. rewrite Hedge, Z.geb_leb, (proj2 (Z.leb_gt _ _) Hlt), Hoff.
    f_equal. apply LF_to_loop_clamped; auto; lia. }
  exists off. repeat split; auto.
  - intros Hsmall. rewrite HLF. f_equal. apply wrap64_small. lia.
  - unfold Rec.LF, Rec.size. now rewrite (proj2 (Z.geb_le _ _) Hge).
Qed.

Lemma LF_to_clamps_past_end_witness :
  exists off,
    Rec.offset (mkRecord 5 [] [(4, 10); (7, 20)] [(0, 2); (1, 1); (0, 2)] []) 0 = Some off /\
    Rec.LF_to (mkRecord 5 [] [(4, 10); (7, 20)] [(0, 2); (1, 1); (0, 2)] []) 9 4
      = Some (off + 4).
Proof.
  destruct (LF_to_clamps_past_end
              (mkRecord 5 [] [(4, 10); (7, 20)] [(0, 2); (1, 1); (0, 2)] []) 9 4 0)
    as (off & H1 & _ & H3 & _).
  - unfold well_typed, pair_typed, is_size_type, is_short_type. simpl.
    repeat split; repeat constructor; simpl; lia.
  - split; [reflexivity | repeat constructor].
  - lia.
  - reflexivity.
  - right. intros r' Hr'. lia.
  - unfold is_size_type. lia.
  - simpl. lia.
  - exists off. split; [exact H1 | apply H3; simpl; lia].
Defined.

(** C8 as stated fails in two places.  On [long_record], which
    satisfies the record invariants, the successor 5 has out-rank 0,
    offset 1 and runs of 2^64 - 1 positions in all, and [LF(i, 5)] at
    [i = size()] is 0 where the stated sum is 2^64.  On [twin_record],
    which satisfies them as well, the node 4 is the successor at
    out-rank 1, with offset 20 and one position, and [LF(9, 4)] is 14,
    the answer for out-rank 0, where the stated sum is 21. *)
Lemma LF_to_plain_sum_fails :
  (well_typed long_record /\ record_inv long_record /\
   Rec.successor long_record 0 = Some 5 /\
   Rec.offset long_record 0 = Some 1 /\
   run_total 0 (body long_record) = 2 ^ 64 - 1 /\
   is_size_type (2 ^ 64 - 1) /\ Rec.size long_record <= 2 ^ 64 - 1 /\
   Rec.LF_to long_record (2 ^ 64 - 1) 5 = Some 0 /\
   Some 0 <> Some (1 + run_total 0 (body long_record))) /\
  (well_typed twin_record /\ record_inv twin_record /\
   Rec.successor twin_record 1 = Some 4 /\
   Rec.offset twin_record 1 = Some 20 /\
   run_total 1 (body twin_record) = 1 /\
   is_size_type 9 /\ Rec.size twin_record <= 9 /\
   Rec.LF_to twin_record 9 4 = Some 14 /\
   Some 14 <> Some (20 + run_total 1 (body twin_record))).
Proof.
  assert (Hn : Z.of_nat (Z.to_nat (2 ^ 32 + 1)) = 2 ^ 32 + 1)
    by (apply Z2Nat.id; lia).
  assert (Htotal : run_total 0 (body long_record) = 2 ^ 64 - 1).
  { unfold long_record. cbn [body].
    rewrite run_total_replicate by reflexivity. rewrite Hn. cbn [snd]. lia. }
  assert (Hsum : run_sum (body long_record) = 2 ^ 64 - 1).
  { unfold long_record. cbn [body]. rewrite run_sum_replicate, Hn. cbn [snd]. lia. }
  assert (Hbody : Forall pair_typed (body long_record)).
  { unfold long_record. cbn [body]. apply Forall_replicate.
    unfold pair_typed, is_short_type. cbn [fst snd]. lia. }
  split.
  - split; [|split; [|split; [|split; [|split; [|split; [|split]]]]]].
    + unfold well_typed. split; [|split; [|split; [|split]]].
      * unfold long_record, is_size_type. cbn [body_size]. lia.
      * unfold long_record. cbn [incoming]. constructor.
      * unfold long_record. cbn [outgoing]. repeat constructor;
          unfold is_short_type; cbn [fst snd]; lia.
      * exact Hbody.
      * unfold long_record. cbn [ids]. constructor.
    + split; [rewrite Hsum; reflexivity|].
      unfold long_record. cbn [body]. apply Forall_replicate.
      unfold Rec.outdegree. cbn [outgoing fst length]. lia.
    + reflexivity.
    + reflexivity.
    + exact Htotal.
    + unfold is_size_type. lia.
    + unfold Rec.size, long_record. cbn [body_size]. lia.
    + split.
      * assert (He : Rec.edgeTo long_record 5 = 0) by reflexivity.
        assert (Hd : Rec.outdegree long_record = 1) by reflexivity.
        assert (Ho : Rec.offset long_record 0 = Some 1) by reflexivity.
        assert (Hg : (0 >=? 1) = false) by reflexivity.
        assert (Hloop : Rec.LF_to_loop (body long_record) 0 (2 ^ 64 - 1) 1 0 = 0).
        { rewrite LF_to_loop_clamped.
          - rewrite Htotal. reflexivity.
          - now apply pair_typed_nonneg.
          - lia.
          - lia.
          - rewrite Hsum. lia.
          - lia. }
        unfold Rec.LF_to. cbv zeta. rewrite He, Hd, Hg, Ho, Hloop. reflexivity.
      * rewrite Htotal. intros H. injection H as H. lia.
  - split; [|split; [|split; [|split; [|split; [|split; [|split; [|split]]]]]]].
    + unfold well_typed, pair_typed, is_size_type, is_short_type. simpl.
      repeat split; repeat constructor; simpl; lia.
    + split; [reflexivity | repeat constructor].
    + reflexivity.
    + reflexivity.
    + reflexivity.
    + unfold is_size_type. lia.
    + simpl. lia.
    + reflexivity.
    + discriminate.
Qed.

(** ** Dynamic records: the LF mapping of a position *)

Lemma wrap32_idemp_l a b : wrap32 (wrap32 a + b) = wrap32 (a + b).
Proof. unfold wrap32. apply Zplus_mod_idemp_l. Qed.

Lemma wrap32_wrap64 a : wrap32 (wrap64 a) = wrap32 a.
Proof.
  unfold wrap32, wrap64. apply Z.mod_mod_divide.
  exists (2 ^ 32). reflexivity.
Qed.

Lemma wrap32_sub_l a b : wrap32 (wrap32 a - b) = wrap32 (a - b).
Proof. unfold wrap32. apply Zminus_mod_idemp_l. Qed.

Lemma positions_lookup_here (run : Z * Z) rest (j : nat) :
  (j < Z.to_nat run.2)%nat -> positions (run :: rest) !! j = Some run.1.
Proof.
  intros H. simpl. rewrite lookup_app_l by (now rewrite length_replicate).
  now apply lookup_replicate_2.
Qed.

Lemma positions_lookup_later (run : Z * Z) rest (j : nat) :
  (Z.to_nat run.2 <= j)%nat ->
  positions (run :: rest) !! j = positions rest !! (j - Z.to_nat run.2)%nat.
Proof.
  intros H. simpl. rewrite lookup_app_r; rewrite length_replicate; auto.
Qed.

Lemma filter_replicate_length (r x : Z) (n : nat) :
  length (filter (fun y => y = r) (replicate n x)) = if decide (x = r) then n else 0%nat.
Proof.
  induction n as [|n IH]; simpl.
  - now destruct (decide (x = r)).
  - rewrite filter_cons. destruct (decide (x = r)); simpl; now rewrite IH.
Qed.

Lemma rank_before_here r (run : Z * Z) rest i :
  0 <= i <= run.2 ->
  rank_before r (run :: rest) i = if run.1 =? r then i else 0.
Proof.
  intros H. unfold rank_before. simpl.
  rewrite take_app_le by (rewrite length_replicate; lia).
  rewrite take_replicate, filter_replicate_length.
  destruct (Z.eqb_spec run.1 r); destruct (decide (run.1 = r)); try contradiction; lia.
Qed.

Lemma rank_before_later r (run : Z * Z) rest i :
  0 <= run.2 <= i ->
  rank_before r (run :: rest) i
    = (if run.1 =? r then run.2 else 0) + rank_before r rest (i - run.2).
Proof.
  intros H. unfold rank_before. simpl.
  rewrite take_app_ge by (rewrite length_replicate; lia).
  rewrite filter_app, length_app, filter_replicate_length, length_replicate.
  replace (Z.to_nat i - Z.to_nat run.2)%nat with (Z.to_nat (i - run.2)) by lia.
  destruct (Z.eqb_spec run.1 r); destruct (decide (run.1 = r)); try contradiction; lia.
Qed.

(** The loop of [LF(i)] stops at the run that covers position [i]; the
    entry of that run's out-rank then holds, in 32 bits, what it held
    before plus the positions of that out-rank before [i] plus the
    overshoot [offset - i]. *)
Lemma LF_loop_spec runs : forall i result last offset,
  Forall (fun run : Z * Z =>
            0 <= run.2 /\ 0 <= run.1 < Z.of_nat (length result)) runs ->
  0 <= offset <= i -> i < offset + run_sum runs ->
  offset + run_sum runs < 2 ^ 64 ->
  exists result' r offset',
    Rec.LF_loop runs i result last offset = Some (result', r, offset') /\
    positions runs !! Z.to_nat (i - offset) = Some r /\
    i < offset' < 2 ^ 64 /\
    0 <= r < Z.of_nat (length result) /\
    forall e, result !! Z.to_nat r = Some e ->
      result' !! Z.to_nat r
        = Some (e.1, wrap32 (e.2 + rank_before r runs (i - offset) + (offset' - i))).
Proof.
  induction runs as [|run rest IH]; intros i result last offset Hruns Hoff Hlt Hmax.
  - simpl in Hlt. lia.
  - rewrite run_sum_cons in Hlt, Hmax.
    apply Forall_cons in Hruns as [[Hlen Hrank] Hrest].
    assert (Hrs : 0 <= run_sum rest).
    { apply run_sum_nonneg. eapply Forall_impl; [exact Hrest|]. now intros ? [? _]. }
    destruct (lookup_lt_is_Some_2 result (Z.to_nat run.1)) as [e0 He0]; [lia|].
    simpl Rec.LF_loop. rewrite He0.
    rewrite (wrap64_small (offset + run.2)) by lia.
    destruct (offset + run.2 >? i) eqn:Hgt.
    + apply Z.gtb_lt in Hgt.
      exists (<[Z.to_nat run.1 := (e0.1, wrap32 (e0.2 + run.2))]> result), run.1, (offset + run.2).
      repeat split; try lia.
      * apply positions_lookup_here. lia.
      * intros e He. rewrite He0 in He. injection He as <-.
        rewrite list_lookup_insert_eq by lia.
        rewrite rank_before_here by lia. rewrite Z.eqb_refl.
        do 3 f_equal. lia.
    + rewrite Z.gtb_ltb in Hgt. apply Z.ltb_ge in Hgt.
      destruct (IH i (<[Z.to_nat run.1 := (e0.1, wrap32 (e0.2 + run.2))]> result)
                  run.1 (offset + run.2))
        as (result' & r & offset' & Hloop & Hpos & Hoff' & Hr & Hres);
        try lia.
      { rewrite length_insert. exact Hrest. }
      rewrite length_insert in Hr.
      exists result', r, offset'. repeat split; try lia; try exact Hloop.
      * rewrite positions_lookup_later by lia.
        replace (Z.to_nat (i - offset) - Z.to_nat run.2)%nat
          with (Z.to_nat (i - (offset + run.2))) by lia.
        exact Hpos.
      * intros e He. rewrite rank_before_later by lia.
        replace (i - offset - run.2) with (i - (offset + run.2)) by lia.
        destruct (Z.eqb_spec run.1 r) as [E|E].
        -- subst r. rewrite He0 in He. injection He as <-.
           rewrite (Hres (e0.1, wrap32 (e0.2 + run.2)))
             by (apply list_lookup_insert_eq; lia).
           simpl. f_equal. f_equal.
           rewrite <- Z.add_assoc, wrap32_idemp_l. f_equal. lia.
        -- rewrite (Hres e).
           ++ do 3 f_equal.
           ++ rewrite list_lookup_insert_ne by lia. exact He.
Qed.

Lemma rank_before_bounds r runs i : 0 <= rank_before r runs i <= Z.max 0 i.
Proof.
  unfold rank_before.
  pose proof (length_filter (fun x => x = r) (take (Z.to_nat i) (positions runs))) as H.
  rewrite length_take in H. lia.
Qed.

Lemma record_inv_runs rec :
  well_typed rec -> record_inv rec ->
  Forall (fun run : Z * Z =>
            0 <= run.2 /\ 0 <= run.1 < Z.of_nat (length (outgoing rec))) (body rec).
Proof.
  intros (_ & _ & _ & Hbody & _) [_ Hranks].
  rewrite Forall_forall in *. intros run Hin.
  destruct (Hbody run Hin) as [[? _] [? _]].
  specialize (Hranks run Hin). unfold Rec.outdegree in Hranks. lia.
Qed.

(** C1, as amended.  On a record that satisfies the record invariants,
    [LF(i)] is [invalid_edge()] for [i >= size()], and otherwise the pair
    of [successor(r)] and [offset(r)] plus the number of body positions
    [j < i] with out-rank [r], for [r] the out-rank of the run covering
    position [i]; the sum is formed in the 32-bit second component of
    [edge_type], that is modulo 2^32, and is the plain sum whenever that
    is below 2^32. *)
Theorem LF_position (rec : DynamicRecord) (i : Z) :
  well_typed rec -> record_inv rec -> is_size_type i ->
  LF_result wrap32 rec i /\
  ((forall r off, Rec.offset rec r = Some off ->
                  off + rank_before r (body rec) i < 2 ^ 32) ->
   LF_result (fun sum => sum) rec i).
Proof.
  intros Hwt Hinv Hi.
  assert (Hmain : LF_result wrap32 rec i).
  { split.
    - intros Hge. unfold Rec.LF. now rewrite (proj2 (Z.geb_le _ _) Hge).
    - intros Hlt. pose proof (record_inv_runs rec Hwt Hinv) as Hruns.
      destruct Hwt as (Hsize & _ & _ & _ & _). destruct Hinv as [Hsum _].
      unfold is_size_type, Rec.size in *.
      destruct (LF_loop_spec (body rec) i (outgoing rec) 0 0 Hruns)
        as (result' & r & offset' & Hloop & Hpos & Hoff' & Hr & Hres); try lia.
      destruct (lookup_lt_is_Some_2 (outgoing rec) (Z.to_nat r)) as [e He]; [lia|].
      specialize (Hres e He).
      exists r, e.1, e.2. rewrite Z.sub_0_r in Hpos.
      unfold Rec.successor, Rec.offset. rewrite He. repeat split; auto.
      unfold Rec.LF, Rec.size. rewrite Z.geb_leb, (proj2 (Z.leb_gt _ _) Hlt).
      rewrite Hloop, Hres. simpl. do 2 f_equal.
      rewrite wrap32_wrap64, (wrap64_small (offset' - i)) by lia.
      rewrite wrap32_sub_l, Z.sub_0_r. f_equal. lia. }
  split; [exact Hmain|].
  intros Hfits. destruct Hmain as [Hge Hlt]. split; [exact Hge|].
  intros H. destruct (Hlt H) as (r & s & off & Hpos & Hs & Ho & HLF).
  exists r, s, off. repeat split; auto.
  rewrite HLF. do 2 f_equal. apply wrap32_small. split; [|now apply Hfits].
  destruct Hwt as (_ & _ & Hout & _).
  unfold Rec.offset in Ho. apply fmap_Some in Ho as (e & Hl & ->).
  rewrite Forall_lookup in Hout. destruct (Hout _ _ Hl) as [_ [? _]].
  unfold rank_before. lia.
Qed.

Lemma LF_position_witness :
  LF_result (fun sum => sum)
    (mkRecord 5 [] [(4, 10); (7, 20)] [(0, 2); (1, 1); (0, 2)] []) 3.
Proof.
  apply (LF_position (mkRecord 5 [] [(4, 10); (7, 20)] [(0, 2); (1, 1); (0, 2)] []) 3).
  - unfold well_typed, pair_typed, is_size_type, is_short_type. simpl.
    repeat split; repeat constructor; simpl; lia.
  - split; [reflexivity | repeat constructor].
  - unfold is_size_type. lia.
  - intros r off. unfold Rec.offset. simpl.
    pose proof (rank_before_bounds r [(0, 2); (1, 1); (0, 2)] 3) as Hb.
    destruct (Z.to_nat r) as [|[|n]]; simpl; intros [= <-]; lia.
Defined.

(** C1 as stated, with the plain sum, fails on [wrapping_record] at
    position 1: the record satisfies the record invariants, [LF(1)] is
    [(5, 0)], and the stated pair is [(5, 4294967296)]. *)
Lemma LF_position_plain_sum_fails :
  well_typed wrapping_record /\ record_inv wrapping_record /\
  is_size_type 1 /\
  Rec.LF wrapping_record 1 = Some (5, 0) /\
  ~ LF_result (fun sum => sum) wrapping_record 1.
Proof.
  split; [|split; [|split; [|split]]].
  - unfold well_typed, pair_typed, is_size_type, is_short_type. simpl.
    repeat split; repeat constructor; simpl; lia.
  - split; [reflexivity | repeat constructor].
  - unfold is_size_type. lia.
  - reflexivity.
  - intros [_ H]. destruct H as (r & s & off & Hpos & Hs & Ho & HLF); [reflexivity|].
    vm_compute in Hpos. injection Hpos as <-.
    vm_compute in Ho. injection Ho as <-.
    vm_compute in HLF. discriminate.
Qed.

(** ** Dynamic records: sorting the outgoing edges *)

#[local] Instance edge_le_total : Total Rec.edge_le.
Proof. intros [a1 a2] [b1 b2]. unfold Rec.edge_le. simpl. lia. Qed.

#[local] Instance edge_le_trans : Transitive Rec.edge_le.
Proof. intros [a1 a2] [b1 b2] [c1 c2]. unfold Rec.edge_le. simpl. lia. Qed.

#[local] Instance edge_le_antisymm : AntiSymm (=) Rec.edge_le.
Proof.
  intros [a1 a2] [b1 b2]. unfold Rec.edge_le. simpl. intros H1 H2.
  f_equal; lia.
Qed.

Lemma sequentialSort_perm v : Rec.sequentialSort v ≡ₚ v.
Proof. apply merge_sort_Permutation. Qed.

Lemma sequentialSort_sorted v : StronglySorted Rec.edge_le (Rec.sequentialSort v).
Proof. apply StronglySorted_merge_sort; apply _. Qed.

(** What [std::sort] leaves in the vector is determined by the vector:
    every sorted rearrangement is the one [sequentialSort] computes. *)
Lemma sequentialSort_unique v v' :
  v' ≡ₚ v -> Sorted Rec.edge_le v' -> v' = Rec.sequentialSort v.
Proof.
  intros Hperm Hsorted. apply (Sorted_unique Rec.edge_le); auto.
  - apply Sorted_merge_sort. apply _.
  - now rewrite Hperm, sequentialSort_perm.
Qed.

Lemma sorted_after_iff prev out :
  Rec.sorted_after prev out = true <-> Sorted Z.le (prev :: out.*1).
Proof.
  revert prev. induction out as [|e rest IH]; intros prev; simpl.
  - split; [intros _; repeat constructor | reflexivity].
  - destruct (e.1 <? prev) eqn:E.
    + apply Z.ltb_lt in E. split; [discriminate|].
      intros H. apply Sorted_inv in H as [_ H]. apply HdRel_inv in H. lia.
    + apply Z.ltb_ge in E. rewrite IH. split.
      * intros H. constructor; [exact H | constructor; exact E].
      * intros H. now apply Sorted_inv in H as [H _].
Qed.

Lemma sorted_check_iff out :
  Rec.sorted_check out = true <-> Sorted Z.le out.*1.
Proof.
  destruct out as [|e rest]; simpl.
  - split; [intros _; constructor | reflexivity].
  - apply sorted_after_iff.
Qed.

(** A sorted vector of edges with pairwise distinct successors has
    strictly increasing successors. *)
Lemma sorted_distinct_increasing (out : list (Z * Z)) :
  StronglySorted Rec.edge_le out -> NoDup out.*1 -> StronglySorted Z.lt out.*1.
Proof.
  induction 1 as [|e rest Hrest IH Hhd]; intros Hnd; simpl; [constructor|].
  apply NoDup_cons in Hnd as [Hnotin Hnd]. constructor; [now apply IH|].
  rewrite Forall_fmap. rewrite Forall_forall in *. intros x Hx. simpl.
  assert (e.1 <> x.1).
  { intros Heq. apply Hnotin. rewrite Heq. apply list_elem_of_fmap. eauto. }
  specialize (Hhd x Hx). unfold Rec.edge_le in Hhd. lia.
Qed.

(** In a strictly increasing vector of integers that are at least [m]
    the entry at index [j] is at least [m + j]. *)
Lemma increasing_index_le (l : list Z) :
  StronglySorted Z.lt l ->
  forall m, Forall (fun x => m <= x) l ->
  forall j x, l !! j = Some x -> m + Z.of_nat j <= x.
Proof.
  induction 1 as [|a rest Hrest IH Hhd]; intros m Hnn j x Hl.
  - discriminate.
  - apply Forall_cons in Hnn as [Ha Hnn]. destruct j as [|j]; simpl in Hl.
    + injection Hl as <-. lia.
    + assert (m + 1 + Z.of_nat j <= x); [|lia].
      apply IH; [|exact Hl].
      eapply Forall_impl; [exact Hhd|]. simpl. intros; lia.
Qed.

Lemma edgeTo_from_lookup (out : list (Z * Z)) s :
  s ∈ out.*1 ->
  0 <= Rec.edgeTo_from out 0 s < Z.of_nat (length out) /\
  exists e, out !! Z.to_nat (Rec.edgeTo_from out 0 s) = Some e /\ e.1 = s.
Proof.
  intros Hin. pose proof (edgeTo_from_bounds out 0 s) as Hb.
  assert (Hne : Rec.edgeTo_from out 0 s <> 0 + Z.of_nat (length out)).
  { intros Heq. now apply edgeTo_from_missing in Heq. }
  split; [lia|].
  destruct (edgeTo_from_found out 0 s) as (e & Hl & He); [lia|].
  rewrite Z.sub_0_r in Hl. eauto.
Qed.

Lemma Forall2_impl_elem_of {A B} (P Q : A -> B -> Prop) (l : list A) (k : list B) :
  Forall2 P l k -> (forall x y, x ∈ l -> P x y -> Q x y) -> Forall2 Q l k.
Proof.
  induction 1 as [|x y l k Hxy _ IH]; intros HPQ; constructor.
  - apply HPQ; [apply list_elem_of_here | exact Hxy].
  - apply IH. intros x' y' Hin. apply HPQ. now apply list_elem_of_further.
Qed.

(** [operator[]] reads the run lengths and the successor of each run's
    out-rank only. *)
Lemma index_loop_congr rec rec' (runs runs' : list (Z * Z)) :
  Forall2 (fun run run' : Z * Z =>
             run'.2 = run.2 /\ Rec.successor rec' run'.1 = Rec.successor rec run.1)
          runs runs' ->
  forall i offset, Rec.index_loop rec' runs' i offset = Rec.index_loop rec runs i offset.
Proof.
  induction 1 as [|run run' rest rest' [Hlen Hsucc] _ IH]; intros i offset; simpl.
  - reflexivity.
  - rewrite Hlen, Hsucc, IH. reflexivity.
Qed.

(** C4. On a non-empty record with pairwise distinct successors and
    every out-rank of the body below [outdegree()], [recode()] changes
    nothing when [outgoing] is sorted by successor; otherwise it leaves
    the successors of [outgoing] strictly increasing and [operator[]]
    the same at every position. *)
Theorem recode_sorts (rec : DynamicRecord) :
  well_typed rec -> Rec.empty rec = false ->
  NoDup (outgoing rec).*1 ->
  Forall (fun run => run.1 < Rec.outdegree rec) (body rec) ->
  exists rec',
    Rec.recode rec = Some rec' /\
    (Sorted Z.le (outgoing rec).*1 -> rec' = rec) /\
    (~ Sorted Z.le (outgoing rec).*1 ->
       StronglySorted Z.lt (outgoing rec').*1 /\
       outgoing rec' ≡ₚ outgoing rec /\
       Rec.size rec' = Rec.size rec /\
       forall i, Rec.op_index rec' i = Rec.op_index rec i).
Proof.
  intros (_ & _ & Hout & Hbody & _) Hne Hnd Hranks.
  unfold Rec.recode. rewrite Hne.
  destruct (Rec.sorted_check (outgoing rec)) eqn:Hchk.
  { exists rec. split; [reflexivity|]. split; [reflexivity|].
    intros Hns. exfalso. apply Hns. now apply sorted_check_iff. }
  set (out := Rec.sequentialSort (outgoing rec)).
  pose proof (sequentialSort_perm (outgoing rec)) as Hperm. fold out in Hperm.
  assert (Hinc : StronglySorted Z.lt out.*1).
  { apply sorted_distinct_increasing; [apply sequentialSort_sorted|].
    now rewrite Hperm. }
  assert (Hnn : Forall (fun x => 0 <= x) out.*1).
  { rewrite Forall_fmap, Hperm. eapply Forall_impl; [exact Hout|].
    intros e [[? _] _]. exact H. }
  (* every old out-rank is carried to an out-rank with the same successor *)
  assert (Hmove : forall run, run ∈ body rec ->
            exists s, Rec.successor rec run.1 = Some s /\
                      fst <$> out !! Z.to_nat (wrap32 (Rec.edgeTo_from out 0 (wrap32 s)))
                        = Some s).
  { intros run Hin. rewrite Forall_forall in Hranks, Hbody.
    specialize (Hranks run Hin). destruct (Hbody run Hin) as [[Hr0 _] _].
    unfold Rec.outdegree in Hranks.
    destruct (lookup_lt_is_Some_2 (outgoing rec) (Z.to_nat run.1)) as [e He]; [lia|].
    exists e.1. unfold Rec.successor. rewrite He. split; [reflexivity|].
    rewrite Forall_lookup in Hout. destruct (Hout _ _ He) as [Hs _].
    rewrite (wrap32_small e.1) by exact Hs.
    assert (Hin' : e.1 ∈ out.*1).
    { rewrite Hperm. apply list_elem_of_fmap. exists e. split; [reflexivity|].
      eapply list_elem_of_lookup_2; exact He. }
    destruct (edgeTo_from_lookup out e.1 Hin') as [Hb (e' & Hl' & He')].
    assert (Hj : Rec.edgeTo_from out 0 e.1 <= e.1).
    { pose proof (increasing_index_le _ Hinc 0 Hnn
                    (Z.to_nat (Rec.edgeTo_from out 0 e.1)) e.1) as Hle.
      rewrite list_lookup_fmap, Hl' in Hle. simpl in Hle.
      rewrite He' in Hle. specialize (Hle eq_refl). lia. }
    rewrite wrap32_small by (unfold is_short_type in Hs; lia).
    rewrite Hl'. simpl. now rewrite He'. }
  destruct (mapM_is_Some_2
              (fun run : Z * Z => (fun s => (wrap32 s, run.2)) <$> Rec.successor rec run.1)
              (body rec)) as [body1 Hmap].
  { rewrite Forall_forall. intros run Hin. destruct (Hmove run Hin) as (s & Hs & _).
    simpl. rewrite Hs. eauto. }
  rewrite Hmap. eexists. split; [reflexivity|]. split.
  { intros Hs. apply sorted_check_iff in Hs. congruence. }
  intros _. simpl. repeat split; auto.
  intros i. unfold Rec.op_index, Rec.size. simpl.
  destruct (i >=? body_size rec); [reflexivity|].
  apply index_loop_congr. apply Forall2_fmap_r.
  apply mapM_Some_1 in Hmap.
  eapply Forall2_impl_elem_of; [exact Hmap|].
  intros run run1 Hin Hrun. simpl in Hrun. simpl.
  destruct (Hmove run Hin) as (s & Hs & Hnew).
  rewrite Hs in Hrun. simpl in Hrun. injection Hrun as <-. simpl.
  split; [reflexivity|].
  unfold Rec.successor at 1. simpl. fold out. now rewrite Hnew, Hs.
Qed.

Lemma recode_sorts_witness :
  exists rec',
    Rec.recode (mkRecord 3 [] [(7, 1); (4, 0)] [(0, 2); (1, 1)] []) = Some rec' /\
    StronglySorted Z.lt (outgoing rec').*1.
Proof.
  destruct (recode_sorts (mkRecord 3 [] [(7, 1); (4, 0)] [(0, 2); (1, 1)] []))
    as (rec' & Hrec & _ & H).
  - unfold well_typed, pair_typed, is_size_type, is_short_type. simpl.
    repeat split; repeat constructor; simpl; lia.
  - reflexivity.
  - simpl. apply NoDup_cons. split; [|apply NoDup_singleton].
    rewrite list_elem_of_singleton. discriminate.
  - repeat constructor.
  - exists rec'. split; [exact Hrec|]. apply H.
    simpl. intros Hs. apply Sorted_inv in Hs as [_ Hs]. apply HdRel_inv in Hs. lia.
Defined.

(** ** The byte codes *)

(** The codec is exercised on outdegree 2, where [RUN_CONTINUES] is 128
    and the length 127 is the last one below it. *)
Example run_continues_2 : Run.RUN_CONTINUES 2 = 128.
Proof. reflexivity. Qed.

(** C7 as stated fails on the rules of section 4.2.  With outdegree 2
    the run [(0, 127)] is written as the single byte 127, since 127 is
    below [RUN_CONTINUES]; [read] takes the byte for the marker, since
    its short length is not below [RUN_CONTINUES - 1], and goes on to
    read a ByteCode that was never written: on the code alone it runs
    off the buffer, and followed by the code of [(0, 1)] it decodes the
    two runs as the one run [(0, 128)].  With outdegree 128 the same
    happens to the run [(0, 1)], and with outdegree 300
    [RUN_CONTINUES] is 0 and [read] has nothing to divide by. *)
Theorem run_codec_short_marker_clash :
  Run.write 2 (0, 127) = [127] /\
  Run.read 2 (Run.write 2 (0, 127)) = None /\
  Run.write_all 2 [(0, 127); (0, 1)] = [127; 1] /\
  Run.read 2 (Run.write_all 2 [(0, 127); (0, 1)]) = Some ((0, 128), []) /\
  Run.read_all 2 (Run.write_all 2 [(0, 127); (0, 1)]) = Some [(0, 128)] /\
  Run.read_all 2 (Run.write_all 2 [(0, 127); (0, 1)]) <> Some [(0, 127); (0, 1)] /\
  Run.write 128 (0, 1) = [1] /\
  Run.read 128 (Run.write 128 (0, 1)) = None /\
  Run.RUN_CONTINUES 300 = 0 /\
  Run.read 300 (Run.write 300 (0, 1)) = None.
Proof.
  split; [reflexivity|]. split; [reflexivity|]. split; [reflexivity|].
  split; [reflexivity|]. split; [reflexivity|].
  split; [vm_compute; discriminate|].
  repeat split; reflexivity.
Qed.

(** With an outdegree above 256 the quotient 256 / sigma is 0: nothing
    fits the first byte, and [read] has no [RUN_CONTINUES] to divide by. *)
Example run_continues_wide :
  Run.RUN_CONTINUES 300 = 0 /\ Run.read 300 (Run.write 300 (0, 1)) = None.
Proof. split; reflexivity. Qed.

Lemma write_loop_read (fuel : nat) : forall value rest shift acc,
  0 <= value < 128 ^ (Z.of_nat fuel + 1) -> 0 <= shift ->
  ByteCode.read_loop (ByteCode.write_loop fuel value ++ rest) shift acc
    = Some (acc + value * 2 ^ shift, rest).
Proof.
  assert (Hlast : forall value rest shift acc,
            0 <= value < 128 -> 0 <= shift ->
            ByteCode.read_loop ([value mod 128] ++ rest) shift acc
              = Some (acc + value * 2 ^ shift, rest)).
  { intros value rest shift acc Hv Hs. simpl.
    rewrite (Z.mod_small value 128) by lia. rewrite (Z.mod_small value 128) by lia.
    destruct (value >=? 128) eqn:E; [apply Z.geb_le in E; lia|].
    now rewrite Z.shiftl_mul_pow2. }
  induction fuel as [|fuel IH]; intros value rest shift acc Hv Hs.
  - simpl ByteCode.write_loop. apply Hlast; [|exact Hs]. simpl in Hv. lia.
  - simpl ByteCode.write_loop. destruct (value >=? 128) eqn:E.
    + apply Z.geb_le in E. simpl.
      pose proof (Z.mod_pos_bound value 128 ltac:(lia)) as Hm.
      assert (Hlow : (value mod 128 + 128) mod 128 = value mod 128).
      { replace (value mod 128 + 128) with (value mod 128 + 1 * 128) by lia.
        rewrite Z.mod_add by lia. apply Z.mod_mod. lia. }
      rewrite Hlow.
      destruct (value mod 128 + 128 >=? 128) eqn:E2;
        [|rewrite Z.geb_leb in E2; apply Z.leb_gt in E2; lia].
      rewrite IH; try lia.
      * f_equal. f_equal. rewrite Z.shiftl_mul_pow2 by lia.
        rewrite Z.pow_add_r by lia.
        pose proof (Z.div_mod value 128 ltac:(lia)) as Hdm.
        change (2 ^ 7) with 128. nia.
      * split; [apply Z.div_pos; lia|].
        apply Z.div_lt_upper_bound; [lia|].
        replace (Z.of_nat (S fuel) + 1) with ((Z.of_nat fuel + 1) + 1) in Hv by lia.
        rewrite (Z.pow_add_r 128 (Z.of_nat fuel + 1) 1) in Hv by lia. lia.
    + rewrite Z.geb_leb in E. apply Z.leb_gt in E. apply Hlast; lia.
Qed.

(** The ByteCode of section 4.1 is read back, whatever follows it. *)
Lemma bytecode_read_write value rest :
  0 <= value -> ByteCode.read (ByteCode.write value ++ rest) = Some (value, rest).
Proof.
  intros Hv. unfold ByteCode.read, ByteCode.write.
  rewrite write_loop_read; try lia.
  - f_equal. f_equal. simpl. lia.
  - split; [exact Hv|]. pose proof (Z.log2_nonneg value) as Hl.
    rewrite Z2Nat.id by exact Hl.
    destruct (Z.eq_dec value 0) as [->|Hne]; [reflexivity|].
    destruct (Z.log2_spec value) as [_ Hup]; [lia|].
    eapply Z.lt_le_trans; [exact Hup|].
    replace (Z.succ (Z.log2 value)) with (Z.log2 value + 1) by lia.
    apply Z.le_trans with (2 ^ (Z.log2 value + 1)); [lia|].
    apply Z.pow_le_mono_l. lia.
Qed.

(** Away from the clash of C7 the rules of section 4.2 do give back the
    run: for an outdegree of at most 256, a rank below it and a length
    of at least 1 other than [RUN_CONTINUES - 1]. *)
Lemma run_read_write sigma (run : Z * Z) rest :
  0 < sigma <= 256 -> 0 <= run.1 < sigma -> 1 <= run.2 ->
  run.2 <> Run.RUN_CONTINUES sigma - 1 ->
  Run.read sigma (Run.write sigma run ++ rest) = Some (run, rest).
Proof.
  destruct run as [rank len]. simpl. intros Hsigma Hrank Hlen Hclash.
  unfold Run.read, Run.write, Run.RUN_CONTINUES in *. simpl.
  assert (Hrc : 1 <= 256 / sigma).
  { apply Z.div_le_lower_bound; lia. }
  assert (Hfit : sigma * (256 / sigma) <= 256) by (apply Z.mul_div_le; lia).
  set (rc := 256 / sigma) in *.
  destruct (rc =? 0) eqn:E0; [apply Z.eqb_eq in E0; lia|].
  destruct (len <? rc) eqn:E.
  - apply Z.ltb_lt in E. simpl.
    rewrite (Z.mod_small (rank * rc + len) 256) by nia.
    assert (Hq : (rank * rc + len) / rc = rank).
    { rewrite Z.add_comm, Z.div_add by lia. rewrite Z.div_small by lia. lia. }
    assert (Hr : (rank * rc + len) mod rc = len).
    { rewrite Z.add_comm, Z.mod_add by lia. apply Z.mod_small. lia. }
    rewrite Hq, Hr.
    destruct (len <? rc - 1) eqn:E1; [reflexivity|].
    apply Z.ltb_ge in E1. lia.
  - apply Z.ltb_ge in E. simpl.
    rewrite (Z.mod_small (rank * rc + (rc - 1)) 256) by nia.
    assert (Hq : (rank * rc + (rc - 1)) / rc = rank).
    { rewrite Z.add_comm, Z.div_add by lia. rewrite Z.div_small by lia. lia. }
    assert (Hr : (rank * rc + (rc - 1)) mod rc = rc - 1).
    { rewrite Z.add_comm, Z.mod_add by lia. apply Z.mod_small. lia. }
    rewrite Hq, Hr, Z.ltb_irrefl.
    rewrite bytecode_read_write by lia. do 3 f_equal. lia.
Qed.

Lemma run_write_nonempty sigma run : (0 < length (Run.write sigma run))%nat.
Proof. unfold Run.write. destruct (_ <? _); simpl; lia. Qed.

Lemma run_read_all_fuel sigma (runs : list (Z * Z)) :
  0 < sigma <= 256 ->
  Forall (fun run : Z * Z =>
            0 <= run.1 < sigma /\ 1 <= run.2 /\
            run.2 <> Run.RUN_CONTINUES sigma - 1) runs ->
  forall fuel, (length (Run.write_all sigma runs) <= fuel)%nat ->
    Run.read_all_fuel fuel sigma (Run.write_all sigma runs) = Some runs.
Proof.
  intros Hsigma. induction 1 as [|run runs (Hrank & Hlen & Hclash) _ IH]; intros fuel Hfuel.
  - destruct fuel; reflexivity.
  - unfold Run.write_all in *. simpl map in *. simpl concat in *.
    rewrite length_app in Hfuel.
    pose proof (run_write_nonempty sigma run) as Hpos.
    destruct fuel as [|fuel]; [lia|].
    assert (Hstep : Run.read_all_fuel (S fuel) sigma
                      (Run.write sigma run ++ concat (map (Run.write sigma) runs))
                    = match Run.read sigma
                              (Run.write sigma run ++ concat (map (Run.write sigma) runs)) with
                      | None => None
                      | Some (r, rest) =>
                          (fun rs => r :: rs) <$> Run.read_all_fuel fuel sigma rest
                      end).
    { destruct (Run.write sigma run) as [|b w]; [simpl in Hpos; lia | reflexivity]. }
    rewrite Hstep, run_read_write by assumption.
    rewrite IH by lia. reflexivity.
Qed.

(** C7, as amended.  With the rules of section 4.2 as they are written,
    for an outdegree of 1 to 256: decoding the code of a run with a
    rank below the outdegree and a length of at least 1 other than
    [RUN_CONTINUES - 1] gives the run back and leaves the buffer after
    it, and decoding the codes of a sequence of such runs, one after
    the other, gives the sequence back. *)
Theorem run_codec_roundtrip (sigma : Z) (runs : list run_type) :
  0 < sigma <= 256 ->
  Forall (fun run : Z * Z =>
            0 <= run.1 < sigma /\ 1 <= run.2 /\
            run.2 <> Run.RUN_CONTINUES sigma - 1) runs ->
  (forall run rest, run ∈ runs ->
     Run.read sigma (Run.write sigma run ++ rest) = Some (run, rest)) /\
  Run.read_all sigma (Run.write_all sigma runs) = Some runs.
Proof.
  intros Hsigma Hruns. split.
  - intros run rest Hin. rewrite Forall_forall in Hruns.
    destruct (Hruns run Hin) as (Hrank & Hlen & Hclash).
    now apply run_read_write.
  - unfold Run.read_all. now apply run_read_all_fuel.
Qed.

Lemma run_codec_roundtrip_witness :
  Run.read_all 2 (Run.write_all 2 [(0, 5); (1, 200); (1, 128)])
    = Some [(0, 5); (1, 200); (1, 128)].
Proof.
  destruct (run_codec_roundtrip 2 [(0, 5); (1, 200); (1, 128)]) as [_ H];
    [lia | | exact H].
  repeat (constructor;
          [cbn [fst snd]; unfold Run.RUN_CONTINUES; change (256 / 2) with 128; lia|]).
  constructor.
Defined.

(** ** The sampled document array *)

Lemma sampled_iff rec : sampled rec = true <-> ids rec <> [].
Proof.
  unfold sampled, Rec.samples. destruct (ids rec); simpl; split; try congruence.
  - intros H. apply Z.gtb_lt in H. lia.
  - intros _. apply Z.gtb_lt. lia.
Qed.

Lemma not_sampled_nil rec : sampled rec = false -> ids rec = [].
Proof.
  intros H. destruct (ids rec) eqn:E; [reflexivity|].
  assert (sampled rec = true) by (apply sampled_iff; congruence). congruence.
Qed.

(** Strictly increasing integers of [lo, hi) are at most [hi - lo] many. *)
Lemma increasing_length (l : list Z) lo hi :
  StronglySorted Z.lt l -> Forall (fun x => lo <= x < hi) l ->
  Z.of_nat (length l) <= Z.max 0 (hi - lo).
Proof.
  intros Hs Hb. destruct (length l) as [|n] eqn:Hn; [lia|].
  destruct (lookup_lt_is_Some_2 l n) as [x Hx]; [lia|].
  pose proof (increasing_index_le l Hs lo) as Hle.
  rewrite Forall_forall in Hb.
  assert (lo <= x < hi) by (apply Hb; eapply list_elem_of_lookup_2; eauto).
  specialize (Hle ltac:(rewrite Forall_forall; intros y Hy; apply Hb in Hy; lia) n x Hx).
  lia.
Qed.

Lemma samples_inv_offsets rec :
  samples_inv rec -> Forall (fun x => 0 <= x < body_size rec) (ids rec).*1.
Proof.
  intros (_ & Ht & Hlt & _). rewrite Forall_fmap.
  rewrite Forall_forall in *. intros s Hs. simpl.
  destruct (Ht s Hs) as [[? _] _]. specialize (Hlt s Hs). lia.
Qed.

Lemma samples_le_size rec :
  samples_inv rec -> Rec.samples rec <= body_size rec.
Proof.
  intros Hinv. pose proof (samples_inv_offsets rec Hinv) as Hoff.
  destruct Hinv as ([? _] & _ & _ & Hs).
  pose proof (increasing_length _ 0 (body_size rec) Hs Hoff) as Hlen.
  rewrite length_fmap in Hlen. unfold Rec.samples. lia.
Qed.

Lemma sampled_size_pos rec :
  samples_inv rec -> sampled rec = true -> 1 <= body_size rec.
Proof.
  intros Hinv Hs. pose proof (samples_le_size rec Hinv).
  unfold sampled in Hs. apply Z.gtb_lt in Hs. lia.
Qed.

Lemma total_nonneg bwt : Forall samples_inv bwt -> 0 <= total bwt.
Proof.
  induction 1 as [|rec rest [[? _] _] _ IH]; simpl; [lia|].
  destruct (sampled rec); lia.
Qed.

Lemma total_app l1 l2 : total (l1 ++ l2) = total l1 + total l2.
Proof. induction l1 as [|rec rest IH]; simpl; lia. Qed.

Lemma starts_app l1 l2 off :
  starts (l1 ++ l2) off = starts l1 off ++ starts l2 (off + total l1).
Proof.
  revert off. induction l1 as [|rec rest IH]; intros off; simpl.
  - now rewrite Z.add_0_r.
  - destruct (sampled rec); rewrite IH; simpl; rewrite ?Z.add_assoc, ?Z.add_0_r; reflexivity.
Qed.

Lemma sample_positions_app l1 l2 off :
  sample_positions (l1 ++ l2) off
    = sample_positions l1 off ++ sample_positions l2 (off + total l1).
Proof.
  revert off. induction l1 as [|rec rest IH]; intros off; simpl.
  - now rewrite Z.add_0_r.
  - destruct (sampled rec); rewrite IH; rewrite <- ?app_assoc; simpl;
      rewrite ?Z.add_assoc, ?Z.add_0_r; reflexivity.
Qed.

Lemma sample_ids_app l1 l2 : sample_ids (l1 ++ l2) = sample_ids l1 ++ sample_ids l2.
Proof.
  induction l1 as [|rec rest IH]; simpl; [reflexivity|].
  destruct (sampled rec); rewrite IH; now rewrite <- ?app_assoc.
Qed.

Lemma sample_positions_length bwt off :
  length (sample_positions bwt off) = length (sample_ids bwt).
Proof.
  revert off. induction bwt as [|rec rest IH]; intros off; simpl; [reflexivity|].
  destruct (sampled rec); [|apply IH].
  rewrite !length_app, length_map, length_fmap. now rewrite IH.
Qed.

Lemma sample_positions_bounds bwt off :
  Forall samples_inv bwt ->
  Forall (fun p => off <= p < off + total bwt) (sample_positions bwt off).
Proof.
  intros H. revert off. induction H as [|rec rest Hrec Hrest IH]; intros off; simpl.
  - constructor.
  - pose proof (total_nonneg rest Hrest) as Hnn.
    destruct (sampled rec) eqn:Hs.
    + apply Forall_app. split.
      * pose proof (samples_inv_offsets rec Hrec) as Hoff.
        rewrite Forall_fmap in Hoff. rewrite Forall_map.
        eapply Forall_impl; [exact Hoff|]. simpl. intros; lia.
      * pose proof (sampled_size_pos rec Hrec Hs).
        eapply Forall_impl; [apply IH|]. simpl. intros; lia.
    + eapply Forall_impl; [apply IH|]. simpl. intros; lia.
Qed.

Lemma starts_length_le bwt off :
  Forall samples_inv bwt -> Z.of_nat (length (starts bwt off)) <= total bwt.
Proof.
  intros H. revert off. induction H as [|rec rest Hrec Hrest IH]; intros off; simpl; [lia|].
  destruct (sampled rec) eqn:Hs; [|apply IH].
  pose proof (sampled_size_pos rec Hrec Hs). specialize (IH (off + body_size rec)).
  simpl. lia.
Qed.

Lemma sample_ids_length_le bwt :
  Forall samples_inv bwt -> Z.of_nat (length (sample_ids bwt)) <= total bwt.
Proof.
  induction 1 as [|rec rest Hrec Hrest IH]; simpl; [lia|].
  destruct (sampled rec) eqn:Hs; [|exact IH].
  pose proof (samples_le_size rec Hrec) as Hle. unfold Rec.samples in Hle.
  rewrite length_app, length_fmap. lia.
Qed.

Lemma starts_length_off bwt off off' :
  length (starts bwt off) = length (starts bwt off').
Proof.
  revert off off'. induction bwt as [|rec rest IH]; intros off off'; simpl; [reflexivity|].
  destruct (sampled rec); simpl; auto.
Qed.

(** The first loop counts and marks the sampled records. *)
Lemma mark_spec bwt : forall i records offsets sample_count (pre : list bool),
  length pre = i -> Forall samples_inv bwt ->
  0 <= records -> 0 <= offsets -> 0 <= sample_count ->
  records + total bwt < 2 ^ 64 -> offsets + total bwt < 2 ^ 64 ->
  sample_count + total bwt < 2 ^ 64 ->
  DA.mark bwt i (records, offsets, sample_count, pre ++ replicate (length bwt) false)
    = (records + Z.of_nat (length (starts bwt 0)), offsets + total bwt,
       sample_count + Z.of_nat (length (sample_ids bwt)), pre ++ map sampled bwt).
Proof.
  induction bwt as [|rec rest IH];
    intros i records offsets sample_count pre Hlen Hinv Hr Ho Hc Hrb Hob Hcb.
  - simpl. now rewrite !Z.add_0_r.
  - apply Forall_cons in Hinv as [Hrec Hrest].
    pose proof (total_nonneg rest Hrest) as Hnn.
    pose proof (starts_length_le rest 0 Hrest) as Hsl.
    pose proof (sample_ids_length_le rest Hrest) as Hil.
    pose proof (samples_le_size rec Hrec) as Hsz.
    simpl in Hrb, Hob, Hcb. simpl DA.mark. fold (sampled rec).
    simpl starts. simpl sample_ids. simpl total. simpl map.
    destruct (sampled rec) eqn:Hs.
    + pose proof (sampled_size_pos rec Hrec Hs) as Hpos.
      assert (Hsam : 0 <= Rec.samples rec) by (unfold Rec.samples; lia).
      unfold Rec.size.
      rewrite !wrap64_small by lia.
      rewrite insert_app_r_alt by lia.
      replace (i - length pre)%nat with 0%nat by lia. simpl.
      rewrite (cons_middle true pre), app_assoc.
      rewrite (cons_middle true pre (map sampled rest)), (app_assoc pre).
      rewrite IH; try lia; try assumption.
      * rewrite (starts_length_off rest (0 + body_size rec) 0).
        rewrite length_app, length_fmap. unfold Rec.samples.
        repeat (f_equal; try lia).
      * rewrite length_app. simpl. lia.
    + rewrite (cons_middle false pre), app_assoc.
      rewrite (cons_middle false pre (map sampled rest)), (app_assoc pre).
      rewrite IH; try lia; try assumption.
      * repeat (f_equal; try lia).
      * rewrite length_app. simpl. lia.
Qed.

Lemma builder_set_spec b i :
  Sdsl.b_tail b <= i < Sdsl.b_size b ->
  Z.of_nat (length (Sdsl.b_items b)) < Sdsl.b_capacity b ->
  exists b', Sdsl.builder_set b i = Some b' /\ extends b b' [i] /\
             Sdsl.b_tail b' = i + 1.
Proof.
  intros Hi Hcap. unfold Sdsl.builder_set.
  rewrite (proj2 (Z.leb_le _ _) (proj1 Hi)), (proj2 (Z.ltb_lt _ _) (proj2 Hi)).
  rewrite (proj2 (Z.ltb_lt _ _) Hcap). simpl.
  eexists. split; [reflexivity|]. unfold extends. simpl. auto.
Qed.

Lemma set_samples_spec (samples : list (Z * Z)) : forall offset ob max_sample hi,
  StronglySorted Z.lt samples.*1 ->
  Forall (fun s : Z * Z => Sdsl.b_tail ob <= offset + s.1 /\ offset + s.1 < hi) samples ->
  0 <= Sdsl.b_tail ob <= hi -> hi <= Sdsl.b_size ob -> hi < 2 ^ 64 ->
  Z.of_nat (length (Sdsl.b_items ob)) + Z.of_nat (length samples) <= Sdsl.b_capacity ob ->
  exists ob' max_sample',
    DA.set_samples samples offset ob max_sample = Some (ob', max_sample') /\
    extends ob ob' (map (fun s : Z * Z => offset + s.1) samples) /\
    Sdsl.b_tail ob <= Sdsl.b_tail ob' <= hi /\
    max_sample <= max_sample' /\
    Forall (fun s : Z * Z => s.2 <= max_sample') samples.
Proof.
  induction samples as [|s rest IH]; intros offset ob ms hi Hsorted Hb Htail Hhi H64 Hcap.
  - exists ob, ms. simpl. unfold extends. rewrite app_nil_r.
    repeat split; auto; try lia.
  - apply Forall_cons in Hb as [[Hs1 Hs2] Hb]. simpl in Hsorted.
    apply StronglySorted_cons in Hsorted as [Hhd Hsorted].
    simpl in Hcap. simpl DA.set_samples.
    rewrite wrap64_small by lia.
    destruct (builder_set_spec ob (offset + s.1)) as (ob1 & Hset & (Hsz & Hcp & Hit) & Htl);
      try lia.
    rewrite Hset.
    destruct (IH offset ob1 (Z.max ms s.2) hi Hsorted)
      as (ob' & ms' & Hrec & (Hsz' & Hcp' & Hit') & Htl' & Hms & Hall); try lia.
    + rewrite Forall_fmap in Hhd. rewrite Forall_forall in *.
      intros x Hx. specialize (Hhd x Hx). simpl in Hhd.
      destruct (Hb x Hx). lia.
    + rewrite Hit, length_app, Hcp. simpl. lia.
    + exists ob', ms'. split; [exact Hrec|].
      split; [|split; [lia|split; [lia|]]].
      * unfold extends. rewrite Hsz', Hcp', Hit', Hit, <- app_assoc. auto.
      * constructor; [lia | exact Hall].
Qed.

(** The second loop sets the start of every sampled record's range and
    the position of every sample, and finds the largest identifier. *)
Lemma build_spec bwt : forall offset max_sample rb ob n,
  Forall samples_inv bwt ->
  0 <= offset -> offset + total bwt <= n -> n < 2 ^ 64 ->
  Sdsl.b_size rb = n -> Sdsl.b_size ob = n ->
  0 <= Sdsl.b_tail rb <= offset -> 0 <= Sdsl.b_tail ob <= offset ->
  Z.of_nat (length (Sdsl.b_items rb)) + Z.of_nat (length (starts bwt 0))
    <= Sdsl.b_capacity rb ->
  Z.of_nat (length (Sdsl.b_items ob)) + Z.of_nat (length (sample_ids bwt))
    <= Sdsl.b_capacity ob ->
  exists rb' ob' max_sample',
    DA.build bwt offset max_sample rb ob = Some (rb', ob', max_sample') /\
    extends rb rb' (starts bwt offset) /\
    extends ob ob' (sample_positions bwt offset) /\
    max_sample <= max_sample' /\
    Forall (fun id => id <= max_sample') (sample_ids bwt).
Proof.
  induction bwt as [|rec rest IH];
    intros offset ms rb ob n Hinv Hoff Htot Hn Hrs Hos Hrt Hot Hrc Hoc.
  - exists rb, ob, ms. simpl. unfold extends. rewrite !app_nil_r.
    repeat split; auto; try lia.
  - apply Forall_cons in Hinv as [Hrec Hrest].
    pose proof (total_nonneg rest Hrest) as Hnn.
    simpl in Htot, Hrc, Hoc. simpl DA.build. fold (sampled rec).
    simpl starts. simpl sample_positions. simpl sample_ids.
    destruct (sampled rec) eqn:Hs.
    + pose proof (sampled_size_pos rec Hrec Hs) as Hpos.
      simpl in Hrc. rewrite length_app, length_fmap in Hoc.
      rewrite (starts_length_off rest (0 + body_size rec) 0) in Hrc.
      destruct (builder_set_spec rb offset) as (rb1 & Hset & (Hsz & Hcp & Hit) & Htl);
        try lia.
      rewrite Hset.
      pose proof (samples_inv_offsets rec Hrec) as Hoffs.
      destruct Hrec as (_ & Htyped & _ & Hsorted).
      destruct (set_samples_spec (ids rec) offset ob ms (offset + body_size rec) Hsorted)
        as (ob1 & ms1 & Hss & (Hsz1 & Hcp1 & Hit1) & Htl1 & Hms1 & Hall1); try lia.
      { rewrite Forall_fmap in Hoffs. eapply Forall_impl; [exact Hoffs|].
        simpl. intros; lia. }
      rewrite Hss. unfold Rec.size. rewrite wrap64_small by lia.
      destruct (IH (offset + body_size rec) ms1 rb1 ob1 n Hrest)
        as (rb' & ob' & ms' & Hb & (Hsz' & Hcp' & Hit') & (Hsz2 & Hcp2 & Hit2) & Hms & Hall);
        try lia.
      { rewrite Hit, length_app, Hcp. simpl. lia. }
      { rewrite Hit1, length_app, length_map, Hcp1. lia. }
      exists rb', ob', ms'. split; [exact Hb|].
      split; [|split; [|split; [lia|]]].
      * unfold extends. rewrite Hsz', Hcp', Hit', Hit, <- app_assoc. auto.
      * unfold extends. rewrite Hsz2, Hcp2, Hit2, Hit1, <- app_assoc. auto.
      * apply Forall_app. split; [|exact Hall].
        rewrite Forall_fmap. eapply Forall_impl; [exact Hall1|]. simpl. intros; lia.
    + destruct (IH offset ms rb ob n Hrest) as (rb' & ob' & ms' & Hb & H1 & H2 & H3 & H4);
        try lia.
      exists rb', ob', ms'. auto.
Qed.

Lemma insert_middle {A} (pre : list A) (x y : A) post :
  <[length pre := y]> (pre ++ x :: post) = pre ++ y :: post.
Proof. induction pre as [|a pre IH]; simpl; [reflexivity | now rewrite IH]. Qed.

Lemma store_samples_spec (samples : list (Z * Z)) : forall curr w (pre mid post : list Z),
  Z.of_nat (length pre) = curr -> length mid = length samples ->
  curr + Z.of_nat (length samples) < 2 ^ 64 ->
  Forall (fun s : Z * Z => 0 <= s.2 < 2 ^ w) samples ->
  DA.store_samples samples curr (Sdsl.mkIv w (pre ++ mid ++ post))
    = Some (curr + Z.of_nat (length samples), Sdsl.mkIv w (pre ++ samples.*2 ++ post)).
Proof.
  induction samples as [|s rest IH]; intros curr w pre mid post Hpre Hmid H64 Hfit.
  - destruct mid; [|discriminate]. simpl. now rewrite Z.add_0_r.
  - destruct mid as [|m mid]; [discriminate|]. simpl in Hmid, H64.
    apply Forall_cons in Hfit as [Hs Hfit].
    simpl DA.store_samples. unfold Sdsl.iv_set. simpl Sdsl.iv_data. simpl Sdsl.iv_width.
    rewrite length_app. simpl length.
    assert (Hin : (0 <=? curr) && (curr <? Z.of_nat (length pre + S (length (mid ++ post))))
                  = true).
    { apply andb_true_iff. split; [apply Z.leb_le | apply Z.ltb_lt]; lia. }
    rewrite Hin. rewrite <- Hpre, Nat2Z.id. simpl app.
    rewrite insert_middle. rewrite Z.mod_small by lia.
    rewrite wrap64_small by lia.
    rewrite (cons_middle s.2 pre), app_assoc.
    rewrite (IH (Z.of_nat (length pre) + 1) w (pre ++ [s.2]) mid post); try lia.
    + rewrite <- app_assoc. simpl. repeat (f_equal; try lia).
    + rewrite length_app. simpl. lia.
    + exact Hfit.
Qed.

(** The third loop writes the identifiers in the order of the samples. *)
Lemma store_spec bwt : forall curr w (pre mid post : list Z),
  Forall samples_inv bwt ->
  Z.of_nat (length pre) = curr -> length mid = length (sample_ids bwt) ->
  curr + Z.of_nat (length (sample_ids bwt)) < 2 ^ 64 ->
  Forall (fun id => id < 2 ^ w) (sample_ids bwt) ->
  DA.store bwt curr (Sdsl.mkIv w (pre ++ mid ++ post))
    = Some (Sdsl.mkIv w (pre ++ sample_ids bwt ++ post)).
Proof.
  induction bwt as [|rec rest IH]; intros curr w pre mid post Hinv Hpre Hmid H64 Hfit.
  - destruct mid; [|discriminate]. reflexivity.
  - apply Forall_cons in Hinv as [Hrec Hrest].
    simpl DA.store. fold (sampled rec). simpl sample_ids in *.
    destruct (sampled rec) eqn:Hs; [|now apply IH].
    rewrite length_app, length_fmap in Hmid, H64.
    apply Forall_app in Hfit as [Hfit1 Hfit2].
    rewrite <- (take_drop (length (ids rec)) mid), <- (app_assoc _ _ post).
    rewrite (store_samples_spec (ids rec) curr w pre); try lia.
    + rewrite app_assoc.
      rewrite (IH (curr + Z.of_nat (length (ids rec))) w (pre ++ (ids rec).*2)); try lia;
        try assumption.
      * now rewrite <- !app_assoc.
      * rewrite length_app, length_fmap. lia.
      * rewrite length_drop. lia.
    + rewrite length_take. lia.
    + destruct Hrec as (_ & Htyped & _). rewrite Forall_fmap in Hfit1.
      rewrite Forall_forall in *. intros s Hin. specialize (Hfit1 s Hin).
      destruct (Htyped s Hin) as [_ [? _]]. simpl in Hfit1. lia.
Qed.

Lemma below_bit_length id max_sample :
  0 <= id <= max_sample -> id < 2 ^ bit_length max_sample.
Proof.
  intros H. unfold bit_length.
  destruct (Z.eq_dec max_sample 0) as [->|Hne].
  - simpl. lia.
  - destruct (Z.log2_spec max_sample) as [_ Hup]; [lia|].
    replace (Z.log2 max_sample + 1) with (Z.succ (Z.log2 max_sample)) by lia. lia.
Qed.

Lemma sample_ids_nonneg bwt :
  Forall samples_inv bwt -> Forall (fun id => 0 <= id) (sample_ids bwt).
Proof.
  induction 1 as [|rec rest Hrec _ IH]; simpl; [constructor|].
  destruct (sampled rec); [|exact IH].
  apply Forall_app. split; [|exact IH].
  destruct Hrec as (_ & Htyped & _). rewrite Forall_fmap.
  eapply Forall_impl; [exact Htyped|]. intros s [_ [? _]]. exact H.
Qed.

(** What the constructor builds. *)
Lemma from_bwt_spec bwt :
  Forall samples_inv bwt -> total bwt < 2 ^ 64 ->
  exists w,
    DA.from_bwt bwt
      = Some (mkDASamples (map sampled bwt)
                (Sdsl.mkSd (total bwt) (starts bwt 0))
                (Sdsl.mkSd (total bwt) (sample_positions bwt 0))
                (Sdsl.mkIv w (sample_ids bwt))).
Proof.
  intros Hinv H64. pose proof (total_nonneg bwt Hinv) as Hnn.
  pose proof (starts_length_le bwt 0 Hinv) as Hsl.
  pose proof (sample_ids_length_le bwt Hinv) as Hil.
  unfold DA.from_bwt, Sdsl.bit_vector_new.
  pose proof (mark_spec bwt 0 0 0 0 [] eq_refl Hinv) as Hm. simpl app in Hm.
  rewrite Hm by lia. clear Hm.
  rewrite !Z.add_0_l. unfold Sdsl.builder_new.
  rewrite (proj2 (Z.leb_le _ _) Hsl), (proj2 (Z.leb_le _ _) Hil).
  destruct (build_spec bwt 0 0
              (Sdsl.mkBuilder (total bwt) (Z.of_nat (length (starts bwt 0))) 0 [])
              (Sdsl.mkBuilder (total bwt) (Z.of_nat (length (sample_ids bwt))) 0 [])
              (total bwt) Hinv)
    as (rb & ob & ms & Hb & (Hrs & Hrc & Hri) & (Hos & Hoc & Hoi) & Hms & Hall);
    simpl; try lia.
  rewrite Hb. unfold Sdsl.sd_of_builder. rewrite Hri, Hoi, Hrc, Hoc. simpl.
  rewrite sample_positions_length, !Z.eqb_refl.
  unfold Sdsl.int_vector_new. rewrite Hrs, Hos. simpl.
  exists (bit_length ms).
  pose proof (store_spec bwt 0 (bit_length ms) []
                (replicate (Z.to_nat (Z.of_nat (length (sample_ids bwt))))
                           (0 mod 2 ^ bit_length ms)) [] Hinv) as Hst.
  simpl in Hst. rewrite !app_nil_r in Hst. rewrite Hst; try lia; auto.
  - rewrite length_replicate. lia.
  - pose proof (sample_ids_nonneg bwt Hinv) as Hpos.
    rewrite Forall_forall in *. intros id Hin. apply below_bit_length.
    specialize (Hall id Hin). specialize (Hpos id Hin). lia.
Qed.

Lemma filter_length_all {A} (P : A -> Prop) `{forall x, Decision (P x)} (l : list A) :
  Forall P l -> length (filter P l) = length l.
Proof.
  induction 1 as [|x l Hx _ IH]; [reflexivity|].
  rewrite filter_cons. destruct (decide (P x)); [simpl; now rewrite IH | contradiction].
Qed.

Lemma filter_length_none {A} (P : A -> Prop) `{forall x, Decision (P x)} (l : list A) :
  Forall (fun x => ~ P x) l -> length (filter P l) = 0%nat.
Proof.
  induction 1 as [|x l Hx _ IH]; [reflexivity|].
  rewrite filter_cons. destruct (decide (P x)); [contradiction | exact IH].
Qed.

Lemma sampled_rank pre (rest : list DynamicRecord) :
  Sdsl.bv_rank (map sampled (pre ++ rest)) (Z.of_nat (length pre))
    = Z.of_nat (length (starts pre 0)).
Proof.
  unfold Sdsl.bv_rank. rewrite Nat2Z.id, map_app.
  rewrite take_app_length' by now rewrite length_map.
  f_equal. generalize 0. induction pre as [|rec pre IH]; intros off; [reflexivity|].
  simpl. rewrite filter_cons. destruct (sampled rec); simpl.
  - destruct (decide (true = true)); [|contradiction]. simpl. now rewrite (IH (off + body_size rec)).
  - destruct (decide (false = true)); [discriminate|]. apply IH.
Qed.

(** C5, as amended.  For a vector of records whose samples stand at positions of
    their bodies, in increasing order, and whose sampled records have
    fewer than 2^64 positions in all, the constructor succeeds, and
    [tryLocate(record, offset)] at an offset of the record returns the
    identifier stored with that offset when the record's [ids] hold one,
    and [invalid_sequence()] when they hold none (in particular when the
    record has no sample at all). *)
Theorem tryLocate_samples (bwt : list DynamicRecord) :
  Forall samples_inv bwt -> total bwt < 2 ^ 64 ->
  exists das,
    DA.from_bwt bwt = Some das /\
    forall (record : nat) rec offset,
      bwt !! record = Some rec -> 0 <= offset < Rec.size rec ->
      (forall id, (offset, id) ∈ ids rec ->
         DA.tryLocate das (Z.of_nat record) offset = Some id) /\
      ((forall id, (offset, id) ∉ ids rec) ->
         DA.tryLocate das (Z.of_nat record) offset = Some invalid_sequence) /\
      (Rec.samples rec = 0 ->
         DA.tryLocate das (Z.of_nat record) offset = Some invalid_sequence).
Proof.
  intros Hinv H64. destruct (from_bwt_spec bwt Hinv H64) as [w Hdas].
  eexists. split; [exact Hdas|]. clear Hdas.
  intros record rec offset Hrec Hoff. unfold Rec.size in Hoff.
  apply list_elem_of_split_length in Hrec as (pre & post & -> & ->).
  apply Forall_app in Hinv as [Hpre Hinv]. apply Forall_cons in Hinv as [Hr Hpost].
  pose proof (total_nonneg pre Hpre) as Hnpre.
  pose proof (total_nonneg post Hpost) as Hnpost.
  rewrite total_app in H64. simpl in H64.
  unfold DA.tryLocate. simpl sampled_records. simpl bwt_ranges.
  simpl sampled_offsets. simpl array.
  assert (Hget : Sdsl.bv_get (map sampled (pre ++ rec :: post)) (Z.of_nat (length pre))
                 = Some (sampled rec)).
  { unfold Sdsl.bv_get. rewrite Nat2Z.id, list_lookup_fmap.
    now rewrite list_lookup_middle. }
  rewrite Hget.
  destruct (sampled rec) eqn:Hs.
  2:{ pose proof (not_sampled_nil rec Hs) as Hnil. repeat split; auto.
      intros id Hid. rewrite Hnil in Hid. now apply elem_of_nil in Hid. }
  pose proof (starts_length_le pre 0 Hpre) as Hsl.
  rewrite sampled_rank, wrap64_small by lia.
  unfold Sdsl.sd_select. simpl Sdsl.sd_ones.
  rewrite (proj2 (Z.leb_le 1 _)) by lia.
  rewrite starts_app. simpl starts. rewrite Hs.
  rewrite list_lookup_middle by lia.
  rewrite total_app. simpl total. rewrite Hs.
  rewrite sample_positions_app, sample_ids_app.
  simpl sample_positions. simpl sample_ids. rewrite Hs. rewrite !Z.add_0_l.
  pose proof (sample_positions_bounds pre 0 Hpre) as Hbpre.
  pose proof (sample_positions_bounds post (total pre + body_size rec) Hpost) as Hbpost.
  rewrite wrap64_small by lia.
  unfold Sdsl.sd_get. simpl Sdsl.sd_size. simpl Sdsl.sd_ones.
  assert (Hin : (0 <=? total pre + offset)
                && (total pre + offset <? total pre + (body_size rec + total post)) = true).
  { apply andb_true_iff. split; [apply Z.leb_le | apply Z.ltb_lt]; lia. }
  rewrite Hin.
  assert (Hnone : (forall id, (offset, id) ∉ ids rec) ->
            bool_decide
              (total pre + offset
               ∈ sample_positions pre 0
                 ++ map (fun s : Z * Z => total pre + s.1) (ids rec)
                 ++ sample_positions post (total pre + body_size rec)) = false).
  { intros Hnone. apply bool_decide_eq_false_2.
    rewrite !elem_of_app. intros [Hp | [Hp | Hp]].
    - rewrite Forall_forall in Hbpre. apply Hbpre in Hp. lia.
    - apply list_elem_of_fmap in Hp as (s & Heq & Hs1).
      apply (Hnone s.2). replace offset with s.1 by lia.
      destruct s. exact Hs1.
    - rewrite Forall_forall in Hbpost. apply Hbpost in Hp. lia. }
  split; [|split].
  - intros id Hid.
    destruct (list_elem_of_split _ _ Hid) as (l1 & l2 & Hl).
    destruct Hr as (_ & _ & _ & Hsorted). rewrite Hl in Hsorted.
    rewrite fmap_app in Hsorted. simpl in Hsorted.
    apply StronglySorted_app in Hsorted as (Hlow & _ & Hhigh).
    apply StronglySorted_cons in Hhigh as [Hhigh _].
    rewrite bool_decide_eq_true_2.
    2:{ rewrite Hl. rewrite !elem_of_app. right. left.
        apply list_elem_of_fmap. exists (offset, id). split; [reflexivity|].
        rewrite elem_of_app. right. apply list_elem_of_here. }
    unfold Sdsl.iv_get, Sdsl.sd_rank. simpl Sdsl.sd_ones. simpl Sdsl.iv_data.
    rewrite Hl, map_app. simpl map.
    rewrite !filter_app, filter_cons.
    destruct (decide (total pre + offset < total pre + offset)) as [Hbad|_]; [lia|].
    rewrite !length_app.
    rewrite (filter_length_all _ (sample_positions pre 0))
      by (eapply Forall_impl; [exact Hbpre|]; simpl; intros; lia).
    rewrite (filter_length_all _ (map _ l1)).
    2:{ rewrite Forall_map. rewrite Forall_forall. intros s Hs1. simpl.
        assert (s.1 < offset); [|lia].
        apply Hlow; [apply list_elem_of_fmap; eauto | apply list_elem_of_here]. }
    rewrite (filter_length_none _ (map _ l2)).
    2:{ rewrite Forall_map. rewrite Forall_forall. intros s Hs2. simpl.
        rewrite Forall_fmap, Forall_forall in Hhigh. specialize (Hhigh s Hs2).
        simpl in Hhigh. lia. }
    rewrite (filter_length_none _ (sample_positions post _))
      by (eapply Forall_impl; [exact Hbpost|]; simpl; intros; lia).
    rewrite length_map, sample_positions_length.
    rewrite fmap_app. simpl fmap.
    rewrite lookup_app_r by lia.
    match goal with
    | |- _ !! ?n = _ => replace n with (length l1.*2) by (rewrite length_fmap; lia)
    end.
    rewrite <- app_assoc.
    now apply (list_lookup_middle l1.*2 (l2.*2 ++ sample_ids post) id).
  - intros Hno. now rewrite (Hnone Hno).
  - intros Hzero. unfold sampled in Hs. apply Z.gtb_lt in Hs. lia.
Qed.

Lemma tryLocate_samples_witness :
  exists das,
    DA.from_bwt
      [ mkRecord 2 [] [] [] [(0, 7); (1, 9)];
        mkRecord 5 [] [] [] [];
        mkRecord 4 [] [] [] [(1, 3); (3, 300)] ] = Some das /\
    DA.tryLocate das 2 3 = Some 300.
Proof.
  destruct (tryLocate_samples
              [ mkRecord 2 [] [] [] [(0, 7); (1, 9)];
                mkRecord 5 [] [] [] [];
                mkRecord 4 [] [] [] [(1, 3); (3, 300)] ])
    as (das & Hdas & Hloc).
  - unfold samples_inv, pair_typed, is_size_type, is_short_type.
    repeat constructor; simpl; lia.
  - simpl. lia.
  - exists das. split; [exact Hdas|].
    destruct (Hloc 2%nat (mkRecord 4 [] [] [] [(1, 3); (3, 300)]) 3 eq_refl) as [H _].
    + simpl. lia.
    + apply H. simpl. apply list_elem_of_further, list_elem_of_here.
Defined.

(** C5 as stated fails on [stray_sample_bwt]: the constructor builds
    the samples, the second record has a sample at offset 2 only, and
    [tryLocate(1, 1)] returns 7, the identifier the first record keeps
    at offset 3, past the 2 positions of its body. *)
Lemma tryLocate_stray_sample :
  exists das rec,
    DA.from_bwt stray_sample_bwt = Some das /\
    Forall record_inv stray_sample_bwt /\ Forall well_typed stray_sample_bwt /\
    stray_sample_bwt !! 1%nat = Some rec /\
    0 <= 1 < Rec.size rec /\
    (forall id, (1, id) ∉ ids rec) /\
    DA.tryLocate das 1 1 = Some 7 /\
    Some 7 <> Some invalid_sequence.
Proof.
  eexists. exists (mkRecord 4 [] [(5, 0)] [(0, 4)] [(2, 5)]).
  split; [reflexivity|]. split; [|split; [|split; [|split; [|split; [|split]]]]].
  - repeat constructor.
  - unfold well_typed, pair_typed, is_size_type, is_short_type.
    repeat constructor; simpl; lia.
  - reflexivity.
  - simpl. lia.
  - intros id Hin. apply list_elem_of_singleton in Hin. discriminate.
  - reflexivity.
  - discriminate.
Qed.

(** With 2^64 positions in the sampled records the count of positions
    wraps to 0, and the builders are asked for more marks than they have
    positions. *)
Example sampled_positions_overflow :
  total overflowing_bwt = 2 ^ 64 /\ DA.from_bwt overflowing_bwt = None.
Proof. split; reflexivity. Qed.

(** ** Serialization *)


Lemma read_bytes_length n stream :
  0 <= n -> Z.of_nat (length (read_bytes n stream).1) = n.
Proof.
  intros Hn. unfold read_bytes. simpl.
  rewrite length_app, length_take, length_replicate. lia.
Qed.

(** The constructors leave as many bytes in [data] as [index] is long:
    the builder of the index is made with [data.size()]. *)
Lemma set_all_size offsets : forall b b',
  RA.set_all offsets b = Some b' -> Sdsl.b_size b' = Sdsl.b_size b.
Proof.
  induction offsets as [|o rest IH]; intros b b' H; simpl in H.
  - now injection H as <-.
  - destruct (Sdsl.builder_set b o) as [b1|] eqn:E; [|discriminate].
    rewrite (IH _ _ H). unfold Sdsl.builder_set in E.
    destruct (_ && _); [|discriminate]. now injection E as <-.
Qed.

Lemma from_bwt_data_length bwt x :
  RA.from_bwt bwt = Some x ->
  Z.of_nat (length (data x)) = Sdsl.sd_size (index x) /\
  records x = Z.of_nat (length bwt).
Proof.
  unfold RA.from_bwt. destruct (RA.compress bwt [] []) as [bytes offsets].
  unfold Sdsl.builder_new. destruct (_ <=? _); [|discriminate].
  destruct (RA.set_all offsets _) as [b|] eqn:E; [|discriminate].
  apply set_all_size in E. simpl in E.
  unfold Sdsl.sd_of_builder. destruct (_ =? _); [|discriminate].
  intros [= <-]. simpl. auto.
Qed.

Lemma empty_data_length :
  Z.of_nat (length (data RA.empty)) = Sdsl.sd_size (index RA.empty).
Proof. reflexivity. Qed.


(** [load] sets the length of [data] from [index]: a [RecordArray] with
    any other number of bytes is not what loading returns. *)
Lemma RecordArray_load_data_length
    {size_codec : Codec Z} {sd_codec : Codec Sdsl.sd_vector}
    (select_codec : SupportCodec Sdsl.sd_vector) stream y rest :
  RecordArray_load select_codec stream = Some (y, rest) ->
  0 <= Sdsl.sd_size (index y) ->
  Z.of_nat (length (data y)) = Sdsl.sd_size (index y).
Proof.
  unfold RecordArray_load.
  destruct (get stream) as [[n s1]|]; [|discriminate].
  destruct (get s1) as [[idx s2]|]; [|discriminate].
  destruct (get_support s2) as [s3|]; [|discriminate].
  destruct (read_bytes (Sdsl.sd_size idx) s3) as [bytes s4] eqn:E.
  intros [= <- <-]. simpl. intros Hn.
  pose proof (read_bytes_length (Sdsl.sd_size idx) s3 Hn) as Hl.
  now rewrite E in Hl.
Qed.

(** *** The byte codecs are lawful *)













Example serialized_bytes :
  RecordArray_serialize (size_codec := Z_codec) (sd_codec := sd_vector_codec)
    (silent_support _) (mkRecordArray 2 (Sdsl.mkSd 3 [0; 2]) [1; 0; 5])
  = [4; 6; 4; 0; 4; 1; 0; 5].
Proof. reflexivity. Qed.

(** * Further properties of the code *)

(** ** Ranges away from the wrap *)

(** X1.  For bounds below [invalid_offset()], where neither [first + 1]
    nor [second + 1] wraps, a range is empty exactly when
    [first > second]; a range that is not empty has
    [second - first + 1] positions, and the empty range has none.  The
    two overloads of [empty] agree. *)
Theorem range_length_positions (first second : Z) :
  0 <= first < 2 ^ 64 - 1 -> 0 <= second < 2 ^ 64 - 1 ->
  (Range.empty (first, second) = true <-> first > second) /\
  (Range.empty (first, second) = false ->
     Range.length (first, second) = second - first + 1 /\
     1 <= Range.length (first, second)) /\
  (first = second + 1 -> Range.length (first, second) = 0) /\
  Range.empty_at first second = Range.empty (first, second) /\
  Range.length Range.empty_range = 0.
Proof.
  intros Hf Hs. unfold Range.empty, Range.empty_at, Range.length. simpl.
  rewrite (wrap64_small (first + 1)), (wrap64_small (second + 1)) by lia.
  repeat split.
  - intros H. apply Z.gtb_lt in H. lia.
  - intros H. apply Z.gtb_lt. lia.
  - rewrite Z.gtb_ltb, Z.ltb_ge in H. rewrite wrap64_small; lia.
  - rewrite Z.gtb_ltb, Z.ltb_ge in H. rewrite wrap64_small; lia.
  - intros ->. replace (second + 1 - (second + 1)) with 0 by lia. reflexivity.
Qed.

Lemma range_length_positions_witness :
  Range.empty (3, 7) = false /\ Range.length (3, 7) = 5.
Proof.
  destruct (range_length_positions 3 7 ltac:(lia) ltac:(lia)) as (_ & H & _).
  split; [reflexivity|]. apply H. reflexivity.
Defined.

(** X2.  [bound] never returns less than [low]; with [low <= high] it
    returns a value of [low .. high], the value itself when it already
    lies there, and bounding again changes nothing. *)
Theorem bound_clamps (value low high : Z) :
  low <= Range.bound value low high /\
  (low <= high ->
     Range.bound value low high <= high /\
     (low <= value <= high -> Range.bound value low high = value) /\
     (value < low -> Range.bound value low high = low) /\
     (high < value -> Range.bound value low high = high) /\
     Range.bound (Range.bound value low high) low high = Range.bound value low high) /\
  Range.bound_in value (low, high) = Range.bound value low high.
Proof. unfold Range.bound_in, Range.bound. simpl. lia. Qed.

(** ** Node identifiers and records *)

(** X3.  On a header whose alphabet size is a [size_type] and whose
    offset is not negative, [toComp] sends the endmarker to 0 and every
    other contained node to an index of [1 .. effective() - 1], distinct
    nodes to distinct indexes; with [effective()] records in [bwt],
    [record] is inside [bwt] for each of them. *)
Theorem toComp_contained (header : GBWTHeader) (bwt : list DynamicRecord) :
  is_size_type (h_alphabet_size header) -> 0 <= h_offset header ->
  DynamicGBWT.toComp header 0 = 0 /\
  (forall n, DynamicGBWT.contains header n = true -> n <> 0 ->
     1 <= DynamicGBWT.toComp header n < DynamicGBWT.effective header /\
     DynamicGBWT.toComp header n = n - h_offset header) /\
  (forall n m,
     DynamicGBWT.contains header n = true -> DynamicGBWT.contains header m = true ->
     DynamicGBWT.toComp header n = DynamicGBWT.toComp header m -> n = m) /\
  (Z.of_nat (length bwt) = DynamicGBWT.effective header ->
   forall n, DynamicGBWT.contains header n = true -> n <> 0 ->
     is_Some (DynamicGBWT.record header bwt n)).
Proof.
  intros [Hs0 Hs1] Ho.
  assert (Hcomp : forall n, DynamicGBWT.contains header n = true -> n <> 0 ->
            h_offset header < n < h_alphabet_size header /\
            DynamicGBWT.toComp header n = n - h_offset header /\
            DynamicGBWT.effective header = h_alphabet_size header - h_offset header).
  { intros n Hc Hn. unfold DynamicGBWT.contains, DynamicGBWT.sigma in Hc.
    apply orb_true_iff in Hc as [Hc|Hc]; [|apply Z.eqb_eq in Hc; contradiction].
    apply andb_true_iff in Hc as [H1 H2].
    apply Z.ltb_lt in H1. apply Z.gtb_lt in H2.
    unfold DynamicGBWT.toComp, DynamicGBWT.effective.
    rewrite (proj2 (Z.eqb_neq n 0) Hn). rewrite !wrap64_small by lia. lia. }
  split; [reflexivity|]. split; [|split].
  - intros n Hc Hn. destruct (Hcomp n Hc Hn) as (Hr & Ht & He). lia.
  - intros n m Hn Hm Heq.
    destruct (Z.eq_dec n 0) as [->|Hn0]; destruct (Z.eq_dec m 0) as [->|Hm0];
      try reflexivity.
    + destruct (Hcomp m Hm Hm0) as (Hr & Ht & _). rewrite Ht in Heq.
      change (DynamicGBWT.toComp header 0) with 0 in Heq. lia.
    + destruct (Hcomp n Hn Hn0) as (Hr & Ht & _). rewrite Ht in Heq.
      change (DynamicGBWT.toComp header 0) with 0 in Heq. lia.
    + destruct (Hcomp n Hn Hn0) as (_ & Ht & _).
      destruct (Hcomp m Hm Hm0) as (_ & Ht' & _). lia.
  - intros Hlen n Hc Hn. destruct (Hcomp n Hc Hn) as (Hr & Ht & He).
    unfold DynamicGBWT.record. apply lookup_lt_is_Some. lia.
Qed.

Lemma toComp_contained_witness :
  DynamicGBWT.toComp (mkHeader 0 0 7 2) 5 = 3 /\
  is_Some (DynamicGBWT.record (mkHeader 0 0 7 2)
             (replicate 5 (mkRecord 0 [] [] [] [])) 5).
Proof.
  destruct (toComp_contained (mkHeader 0 0 7 2) (replicate 5 (mkRecord 0 [] [] [] [])))
    as (_ & H1 & _ & H2).
  - unfold is_size_type. simpl. lia.
  - simpl. lia.
  - split.
    + apply (H1 5); [reflexivity | lia].
    + apply H2; [reflexivity | reflexivity | lia].
Defined.

(** ** Dynamic records: edges by successor and by predecessor *)

(** X4.  [edgeTo] and [successor] undo each other: when [edgeTo(to)] is
    below [outdegree()] the successor at that out-rank is [to] and no
    smaller out-rank has it, and on a record whose successors are
    pairwise distinct [edgeTo(successor(r))] is [r]. *)
Theorem edgeTo_successor (rec : DynamicRecord) :
  (forall to,
     Rec.edgeTo rec to < Rec.outdegree rec ->
     Rec.successor rec (Rec.edgeTo rec to) = Some to /\
     forall r, 0 <= r < Rec.edgeTo rec to -> Rec.successor rec r <> Some to) /\
  (NoDup (outgoing rec).*1 ->
   forall r s, 0 <= r -> Rec.successor rec r = Some s -> Rec.edgeTo rec s = r).
Proof.
  assert (Hfound : forall to,
            Rec.edgeTo rec to < Rec.outdegree rec ->
            Rec.successor rec (Rec.edgeTo rec to) = Some to).
  { intros to Hlt. unfold Rec.edgeTo, Rec.outdegree, Rec.successor in *.
    destruct (edgeTo_from_found (outgoing rec) 0 to) as (e & Hl & He); [lia|].
    rewrite Z.sub_0_r in Hl. now rewrite Hl, <- He. }
  split.
  - intros to Hlt. split; [now apply Hfound|].
    intros r Hr Hs. unfold Rec.successor in Hs.
    apply fmap_Some in Hs as (e & Hl & He).
    apply (edgeTo_from_before (outgoing rec) 0 to (Z.to_nat r) e Hl); [|now symmetry].
    unfold Rec.edgeTo in Hr. lia.
  - intros Hnd r s Hr Hs.
    assert (Hin : s ∈ (outgoing rec).*1).
    { unfold Rec.successor in Hs. apply fmap_Some in Hs as (e & Hl & ->).
      apply list_elem_of_fmap. exists e. split; [reflexivity|].
      eapply list_elem_of_lookup_2; exact Hl. }
    pose proof (edgeTo_bounds rec s) as Hb.
    assert (Hlt : Rec.edgeTo rec s < Rec.outdegree rec).
    { destruct (Z.eq_dec (Rec.edgeTo rec s) (Rec.outdegree rec)) as [Heq|]; [|lia].
      apply (edgeTo_from_missing (outgoing rec) 0 s) in Heq. contradiction. }
    pose proof (Hfound s Hlt) as Hs'. unfold Rec.successor in Hs, Hs'.
    rewrite <- list_lookup_fmap in Hs, Hs'.
    pose proof (NoDup_lookup _ _ _ _ Hnd Hs Hs'). lia.
Qed.

Lemma findFirst_from_bounds inc i from :
  i <= Rec.findFirst_from inc i from <= i + Z.of_nat (length inc).
Proof.
  revert i. induction inc as [|e rest IH]; intros i; simpl; [lia|].
  destruct (e.1 >=? from); [lia|]. specialize (IH (i + 1)). lia.
Qed.

Lemma findFirst_from_before (inc : list (Z * Z)) : forall i from (j : nat) e,
  inc !! j = Some e -> i + Z.of_nat j < Rec.findFirst_from inc i from -> e.1 < from.
Proof.
  induction inc as [|e0 rest IH]; intros i from j e Hl Hlt; [discriminate|].
  simpl in Hlt. destruct (e0.1 >=? from) eqn:E; [lia|].
  rewrite Z.geb_leb in E. apply Z.leb_gt in E. destruct j as [|j]; simpl in Hl.
  - now injection Hl as <-.
  - apply (IH (i + 1) from j e Hl). lia.
Qed.

Lemma findFirst_from_at (inc : list (Z * Z)) : forall i from,
  Rec.findFirst_from inc i from < i + Z.of_nat (length inc) ->
  exists e, inc !! Z.to_nat (Rec.findFirst_from inc i from - i) = Some e /\ from <= e.1.
Proof.
  induction inc as [|e0 rest IH]; intros i from Hlt; simpl in *; [lia|].
  destruct (e0.1 >=? from) eqn:E.
  - apply Z.geb_le in E. exists e0. replace (i - i) with 0 by lia. auto.
  - destruct (IH (i + 1) from) as (e & Hl & He); [lia|].
    exists e. split; [|exact He].
    pose proof (findFirst_from_bounds rest (i + 1) from).
    replace (Z.to_nat (Rec.findFirst_from rest (i + 1) from - i))
      with (S (Z.to_nat (Rec.findFirst_from rest (i + 1) from - (i + 1)))) by lia.
    exact Hl.
Qed.

(** X5.  [findFirst(from)] is an index of [0 .. indegree()]: every entry
    before it has a predecessor below [from], the entry at it, if there
    is one, has a predecessor of at least [from], and when [incoming] is
    sorted by predecessor so has every entry after it. *)
Theorem findFirst_lower_bound (rec : DynamicRecord) (from : Z) :
  0 <= Rec.findFirst rec from <= Rec.indegree rec /\
  (forall (j : nat) e,
     incoming rec !! j = Some e -> Z.of_nat j < Rec.findFirst rec from -> e.1 < from) /\
  (Rec.findFirst rec from < Rec.indegree rec ->
     exists p, Rec.predecessor rec (Rec.findFirst rec from) = Some p /\ from <= p) /\
  (Sorted Z.le (incoming rec).*1 ->
   forall (j : nat) e,
     incoming rec !! j = Some e -> Rec.findFirst rec from <= Z.of_nat j -> from <= e.1).
Proof.
  pose proof (findFirst_from_bounds (incoming rec) 0 from) as Hb.
  assert (Hat : Rec.findFirst rec from < Rec.indegree rec ->
            exists e, incoming rec !! Z.to_nat (Rec.findFirst rec from) = Some e /\
                      from <= e.1).
  { intros Hlt. unfold Rec.findFirst, Rec.indegree in *.
    destruct (findFirst_from_at (incoming rec) 0 from) as (e & Hl & He); [lia|].
    rewrite Z.sub_0_r in Hl. eauto. }
  split; [exact Hb|]. split; [|split].
  - intros j e Hl Hlt. apply (findFirst_from_before (incoming rec) 0 from j e Hl).
    unfold Rec.findFirst in Hlt. lia.
  - intros Hlt. destruct (Hat Hlt) as (e & Hl & He).
    exists e.1. unfold Rec.predecessor. now rewrite Hl.
  - intros Hsorted j e Hl Hle.
    assert (Hlt : Rec.findFirst rec from < Rec.indegree rec).
    { apply lookup_lt_Some in Hl. unfold Rec.indegree. lia. }
    destruct (Hat Hlt) as (e0 & Hl0 & He0).
    apply Sorted_StronglySorted in Hsorted; [|intros ? ? ?; lia].
    destruct (decide (Z.to_nat (Rec.findFirst rec from) = j)) as [<-|Hne].
    + rewrite Hl0 in Hl. now injection Hl as <-.
    + assert (e0.1 <= e.1); [|lia].
      assert (Hj : (Z.to_nat (Rec.findFirst rec from) < j)%nat) by lia.
      clear -Hsorted Hl Hl0 Hj.
      revert Hl0 Hl Hj. generalize (Z.to_nat (Rec.findFirst rec from)) as k.
      revert j. induction (incoming rec) as [|a l IH]; intros j k Hk Hj Hlt;
        [discriminate|].
      simpl in Hsorted. apply StronglySorted_cons in Hsorted as [Hhd Hsorted].
      destruct j as [|j]; [lia|]. simpl in Hj. destruct k as [|k]; simpl in Hk.
      * injection Hk as <-. rewrite Forall_forall in Hhd. apply Hhd.
        apply list_elem_of_fmap. exists e. split; [reflexivity|].
        eapply list_elem_of_lookup_2; exact Hj.
      * apply (IH Hsorted j k Hk Hj). lia.
Qed.

Lemma incoming_count_cons e inc p :
  incoming_count (e :: inc) p = (if e.1 =? p then e.2 else 0) + incoming_count inc p.
Proof. reflexivity. Qed.

Lemma incoming_count_perm inc inc' p :
  inc ≡ₚ inc' -> incoming_count inc p = incoming_count inc' p.
Proof.
  induction 1 as [|e l l' _ IH|e e' l|l l' l'' _ IH1 _ IH2];
    rewrite ?incoming_count_cons; try lia; congruence.
Qed.

Lemma incoming_count_app inc inc' p :
  incoming_count (inc ++ inc') p = incoming_count inc p + incoming_count inc' p.
Proof.
  induction inc as [|e inc IH]; [reflexivity|].
  simpl app. rewrite !incoming_count_cons, IH. lia.
Qed.

Lemma incoming_count_nonneg inc p :
  Forall pair_typed inc -> 0 <= incoming_count inc p.
Proof.
  induction 1 as [|e inc [_ [He _]] _ IH]; [reflexivity|].
  rewrite incoming_count_cons. destruct (e.1 =? p); lia.
Qed.

Lemma increment_loop_None inc from :
  Rec.increment_loop inc from = None -> from ∉ inc.*1.
Proof.
  induction inc as [|e inc IH]; simpl; [intros _; apply not_elem_of_nil|].
  destruct (Z.eqb_spec e.1 from) as [E|E]; [discriminate|].
  intros H. apply fmap_None in H. rewrite not_elem_of_cons. auto.
Qed.

Lemma increment_loop_Some inc from : forall inc',
  Rec.increment_loop inc from = Some inc' ->
  inc'.*1 = inc.*1 /\
  (forall p, p <> from -> incoming_count inc' p = incoming_count inc p) /\
  (Forall pair_typed inc -> incoming_count inc from < 2 ^ 32 - 1 ->
   incoming_count inc' from = incoming_count inc from + 1).
Proof.
  induction inc as [|e inc IH]; intros inc' H; simpl in H; [discriminate|].
  destruct (Z.eqb_spec e.1 from) as [E|E].
  - injection H as <-. split; [reflexivity|]. split.
    + intros p Hp. rewrite !incoming_count_cons. simpl.
      destruct (Z.eqb_spec e.1 p); [congruence | reflexivity].
    + intros Hty Hlt. apply Forall_cons in Hty as [[_ [He _]] Hty].
      pose proof (incoming_count_nonneg inc from Hty).
      rewrite !incoming_count_cons in *. simpl.
      destruct (Z.eqb_spec e.1 from); [|contradiction].
      rewrite wrap32_small by lia. lia.
  - apply fmap_Some in H as (rest' & Hrest & ->).
    destruct (IH rest' Hrest) as (Hfst & Hother & Hfrom).
    split; [rewrite !fmap_cons; now rewrite Hfst|]. split.
    + intros p Hp. rewrite !incoming_count_cons, Hother by exact Hp. reflexivity.
    + intros Hty Hlt. apply Forall_cons in Hty as [_ Hty].
      rewrite !incoming_count_cons in *.
      destruct (Z.eqb_spec e.1 from); [contradiction|].
      rewrite Hfrom by (auto; lia). lia.
Qed.

Lemma increasing_NoDup (l : list Z) : StronglySorted Z.lt l -> NoDup l.
Proof.
  induction 1 as [|a l _ IH Hhd]; constructor; [|exact IH].
  intros Hin. rewrite Forall_forall in Hhd. specialize (Hhd a Hin). lia.
Qed.

(** X6.  [increment(from)] counts one more incoming edge from [from]
    and leaves the count of every other predecessor, the body, the
    outgoing edges and the samples as they were; predecessors that were
    strictly increasing stay strictly increasing, whether the count of
    an entry was raised or a new entry was added and sorted in. *)
Theorem increment_counts (rec : DynamicRecord) (from : Z) :
  is_short_type from ->
  Forall pair_typed (incoming rec) ->
  incoming_count (incoming rec) from < 2 ^ 32 - 1 ->
  incoming_count (incoming (Rec.increment rec from)) from
    = incoming_count (incoming rec) from + 1 /\
  (forall p, p <> from ->
     incoming_count (incoming (Rec.increment rec from)) p
       = incoming_count (incoming rec) p) /\
  (StronglySorted Z.lt (incoming rec).*1 ->
     StronglySorted Z.lt (incoming (Rec.increment rec from)).*1) /\
  (from ∈ (incoming rec).*1 ->
     (incoming (Rec.increment rec from)).*1 = (incoming rec).*1) /\
  (from ∉ (incoming rec).*1 ->
     Rec.indegree (Rec.increment rec from) = Rec.indegree rec + 1) /\
  body_size (Rec.increment rec from) = body_size rec /\
  outgoing (Rec.increment rec from) = outgoing rec /\
  body (Rec.increment rec from) = body rec /\
  ids (Rec.increment rec from) = ids rec.
Proof.
  intros Hfrom Hty Hlt. unfold Rec.increment.
  destruct (Rec.increment_loop (incoming rec) from) as [inc'|] eqn:E; simpl.
  - destruct (increment_loop_Some _ _ _ E) as (Hfst & Hother & Hcount).
    split; [now apply Hcount|]. split; [exact Hother|].
    split; [now rewrite Hfst|]. split; [auto|]. split; [|auto].
    intros Hnot. exfalso. apply Hnot. rewrite <- Hfst.
    clear -E. revert inc' E. induction (incoming rec) as [|e inc IH]; intros inc' E;
      simpl in E; [discriminate|].
    destruct (Z.eqb_spec e.1 from) as [He|He].
    + injection E as <-. simpl. rewrite He. apply list_elem_of_here.
    + apply fmap_Some in E as (rest' & Hrest & ->). simpl.
      apply list_elem_of_further. now apply IH.
  - apply increment_loop_None in E.
    rewrite (wrap32_small from) by exact Hfrom.
    assert (Hperm : Rec.sequentialSort (incoming rec ++ [(from, 1)])
                      ≡ₚ (from, 1) :: incoming rec).
    { rewrite sequentialSort_perm. symmetry. apply Permutation_cons_append. }
    split; [|split; [|split; [|split; [|split]]]]; auto.
    + rewrite (incoming_count_perm _ _ _ Hperm), incoming_count_cons. simpl.
      rewrite Z.eqb_refl. lia.
    + intros p Hp. rewrite (incoming_count_perm _ _ _ Hperm), incoming_count_cons.
      simpl. destruct (Z.eqb_spec from p); [congruence | reflexivity].
    + intros Hsorted. apply sorted_distinct_increasing; [apply sequentialSort_sorted|].
      rewrite Hperm. simpl. constructor; [exact E | now apply increasing_NoDup].
    + intros Hin. contradiction.
    + intros _. unfold Rec.indegree.
      etransitivity; [apply (f_equal Z.of_nat), (Permutation_length Hperm)|].
      simpl length. lia.
Qed.

Lemma increment_counts_witness :
  incoming_count (incoming (Rec.increment (mkRecord 0 [(2, 1); (7, 3)] [] [] []) 7)) 7 = 4 /\
  incoming_count (incoming (Rec.increment (mkRecord 0 [(2, 1); (7, 3)] [] [] []) 5)) 5 = 1.
Proof.
  split.
  - refine (proj1 (increment_counts (mkRecord 0 [(2, 1); (7, 3)] [] [] []) 7 _ _ _)).
    + unfold is_short_type. lia.
    + repeat constructor; simpl; lia.
    + vm_compute. reflexivity.
  - refine (proj1 (increment_counts (mkRecord 0 [(2, 1); (7, 3)] [] [] []) 5 _ _ _)).
    + unfold is_short_type. lia.
    + repeat constructor; simpl; lia.
    + vm_compute. reflexivity.
Defined.

(** ** Removing duplicates *)

Section RemoveDuplicatesProperties.

Context {A : Type} `{EqDecision A}.
Context (le : relation A) `{forall x y, Decision (le x y)}.
Context `{!Transitive le, !Total le, !AntiSymm eq le}.

Lemma unique_after_elem_of (kept : A) (v : list A) (x : A) :
  (x ∈ unique_after kept v -> x ∈ v) /\
  (x ∈ v -> x = kept \/ x ∈ unique_after kept v).
Proof.
  revert kept. induction v as [|y rest IH]; intros kept; simpl.
  - split; [auto | intros Hin; now apply elem_of_nil in Hin].
  - destruct (decide (kept = y)) as [<-|Hne].
    + split.
      * intros Hin. apply list_elem_of_further. now apply (IH kept).
      * intros Hin. apply elem_of_cons in Hin as [->|Hin]; [auto|].
        now apply (IH kept).
    + split.
      * intros Hin. apply elem_of_cons in Hin as [->|Hin];
          [apply list_elem_of_here | apply list_elem_of_further; now apply (IH y)].
      * intros Hin. right. apply elem_of_cons in Hin as [->|Hin];
          [apply list_elem_of_here|].
        destruct (proj2 (IH y) Hin) as [->|Hin'];
          [apply list_elem_of_here | now apply list_elem_of_further].
Qed.

Lemma unique_after_sorted (v : list A) : forall kept : A,
  StronglySorted le (kept :: v) ->
  StronglySorted (fun x y => le x y /\ x <> y) (kept :: unique_after kept v).
Proof.
  induction v as [|y rest IH]; intros kept Hs; simpl.
  - repeat constructor.
  - apply StronglySorted_cons in Hs as [Hhd Hs].
    apply Forall_cons in Hhd as [Hy Hhd].
    destruct (decide (kept = y)) as [<-|Hne]; [exact (IH kept Hs)|].
    constructor; [exact (IH y Hs)|].
    pose proof Hs as Hs'. apply StronglySorted_cons in Hs' as [Hrest _].
    rewrite Forall_forall in *. intros x Hin.
    assert (Hx : x = y \/ x ∈ rest).
    { apply elem_of_cons in Hin as [->|Hin]; [auto|].
      right. now apply (unique_after_elem_of y rest x). }
    split.
    + destruct Hx as [->|Hx]; auto.
    + intros Heq. subst x. destruct Hx as [Hx|Hx]; [contradiction|].
      apply Hne. apply (anti_symm le); [exact Hy | now apply Hrest].
Qed.

Lemma unique_after_fixed (v : list A) : forall kept : A,
  StronglySorted (fun x y => le x y /\ x <> y) (kept :: v) ->
  unique_after kept v = v.
Proof.
  induction v as [|y rest IH]; intros kept Hs; simpl; [reflexivity|].
  apply StronglySorted_cons in Hs as [Hhd Hs].
  apply Forall_cons in Hhd as [[_ Hne] _].
  destruct (decide (kept = y)); [contradiction|]. f_equal. now apply IH.
Qed.

(** X7.  [removeDuplicates] leaves the elements of the vector, each one
    once, in strictly increasing order; the flag [parallel] does not
    change the result, and removing duplicates a second time changes
    nothing. *)
Theorem removeDuplicates_strictly_sorted (vec : list A) (parallel : bool) :
  StronglySorted (fun x y => le x y /\ x <> y) (removeDuplicates le vec parallel) /\
  NoDup (removeDuplicates le vec parallel) /\
  (forall x, x ∈ removeDuplicates le vec parallel <-> x ∈ vec) /\
  removeDuplicates le vec parallel = removeDuplicates le vec (negb parallel) /\
  removeDuplicates le (removeDuplicates le vec parallel) parallel
    = removeDuplicates le vec parallel.
Proof.
  assert (Hflag : forall v b, removeDuplicates le v b = unique (merge_sort le v)).
  { intros v []; reflexivity. }
  assert (Hsorted : forall v,
            StronglySorted (fun x y => le x y /\ x <> y) (unique (merge_sort le v))).
  { intros v. pose proof (StronglySorted_merge_sort le v) as Hs.
    destruct (merge_sort le v) as [|k rest]; [constructor|].
    now apply unique_after_sorted. }
  rewrite !Hflag. split; [apply Hsorted|]. split; [|split; [|split]].
  - specialize (Hsorted vec). induction Hsorted as [|x l _ IH Hhd]; constructor; auto.
    intros Hin. rewrite Forall_forall in Hhd. now destruct (Hhd x Hin).
  - intros x. rewrite <- (merge_sort_Permutation le vec) at 2.
    destruct (merge_sort le vec) as [|k rest]; [reflexivity|]. simpl.
    rewrite !elem_of_cons. pose proof (unique_after_elem_of k rest x). tauto.
  - reflexivity.
  - assert (Hle : StronglySorted le (unique (merge_sort le vec))).
    { specialize (Hsorted vec).
      induction Hsorted as [|x l _ IH Hhd]; constructor; auto.
      eapply Forall_impl; [exact Hhd|]. now intros ? [? _]. }
    assert (Hsame : merge_sort le (unique (merge_sort le vec)) = unique (merge_sort le vec)).
    { apply (Sorted_unique le).
      - now apply Sorted_merge_sort.
      - now apply StronglySorted_Sorted.
      - apply merge_sort_Permutation. }
    rewrite Hsame. specialize (Hsorted vec).
    destruct (unique (merge_sort le vec)) as [|k rest]; [reflexivity|].
    simpl. f_equal. now apply unique_after_fixed.
Qed.

End RemoveDuplicatesProperties.

Lemma removeDuplicates_strictly_sorted_witness :
  removeDuplicates Z.le [3; 1; 3; 2; 1] true = [1; 2; 3] /\
  NoDup (removeDuplicates Z.le [3; 1; 3; 2; 1] true).
Proof.
  split; [vm_compute; reflexivity|].
  exact (proj1 (proj2 (removeDuplicates_strictly_sorted Z.le [3; 1; 3; 2; 1] true))).
Defined.

(** ** Dynamic records: [LF(i, to)], [LF(range, to)] and [operator[]] *)

Lemma run_sum_app runs runs' : run_sum (runs ++ runs') = run_sum runs + run_sum runs'.
Proof.
  induction runs as [|run runs IH]; [reflexivity|].
  simpl app. rewrite !run_sum_cons, IH. lia.
Qed.

Lemma run_total_app r runs runs' :
  run_total r (runs ++ runs') = run_total r runs + run_total r runs'.
Proof. unfold run_total. now rewrite filter_app, run_sum_app. Qed.

Lemma run_total_nil r : run_total r [] = 0.
Proof. reflexivity. Qed.

Lemma positions_length runs :
  Forall (fun run : Z * Z => 0 <= run.2) runs ->
  Z.of_nat (length (positions runs)) = run_sum runs.
Proof.
  induction 1 as [|run rest H _ IH]; [reflexivity|].
  simpl positions. rewrite length_app, length_replicate, run_sum_cons. lia.
Qed.

Lemma rank_before_le_sum r runs i :
  Forall (fun run : Z * Z => 0 <= run.2) runs ->
  rank_before r runs i <= run_sum runs.
Proof.
  intros H. rewrite <- (positions_length runs H). unfold rank_before.
  pose proof (length_filter (fun x => x = r) (take (Z.to_nat i) (positions runs))) as Hl.
  rewrite length_take in Hl. lia.
Qed.

Lemma rank_before_app r pre runs i :
  Forall (fun run : Z * Z => 0 <= run.2) pre ->
  run_sum pre <= i ->
  rank_before r (pre ++ runs) i = run_total r pre + rank_before r runs (i - run_sum pre).
Proof.
  intros Hnn. revert i. induction Hnn as [|run pre Hrun Hpre IH]; intros i Hle.
  - simpl. unfold run_total. simpl. rewrite Z.sub_0_r. lia.
  - rewrite run_sum_cons in Hle. simpl app.
    pose proof (run_sum_nonneg pre Hpre).
    rewrite rank_before_later by lia. rewrite IH by lia.
    rewrite run_total_cons, run_sum_cons.
    replace (i - (run.2 + run_sum pre)) with (i - run.2 - run_sum pre) by lia. lia.
Qed.

Lemma rank_before_mono r runs i j :
  i <= j -> rank_before r runs i <= rank_before r runs j.
Proof.
  intros Hij. unfold rank_before.
  replace (take (Z.to_nat i) (positions runs))
    with (take (Z.to_nat i) (take (Z.to_nat j) (positions runs)))
    by (rewrite take_take; f_equal; lia).
  rewrite <- (take_drop (Z.to_nat i) (take (Z.to_nat j) (positions runs))) at 2.
  rewrite filter_app, length_app. lia.
Qed.

Lemma rank_before_step r runs i x :
  0 <= i -> positions runs !! Z.to_nat i = Some x ->
  rank_before r runs (i + 1) = rank_before r runs i + (if x =? r then 1 else 0).
Proof.
  intros Hi Hl. unfold rank_before.
  replace (Z.to_nat (i + 1)) with (S (Z.to_nat i)) by lia.
  rewrite (take_S_r _ _ _ Hl), filter_app, length_app, filter_cons.
  destruct (Z.eqb_spec x r); destruct (decide (x = r)); try contradiction; simpl; lia.
Qed.

(** The loop of [LF(i, to)] from any of its states: what it returns is
    the running result plus the rank of [i] among the remaining runs. *)
Lemma LF_to_loop_spec runs r : forall i result offset,
  Forall (fun run : Z * Z => 0 <= run.2) runs ->
  0 <= result < 2 ^ 64 ->
  0 <= offset <= i -> i < 2 ^ 64 -> offset + run_sum runs < 2 ^ 64 ->
  Rec.LF_to_loop runs r i result offset
    = wrap64 (result + rank_before r runs (i - offset)).
Proof.
  induction runs as [|run rest IH]; intros i result offset Hnn Hres Hoff Hi Hmax.
  - simpl. unfold rank_before. simpl. rewrite take_nil. simpl.
    rewrite Z.add_0_r. symmetry. now apply wrap64_small.
  - apply Forall_cons in Hnn as [Hrun Hnn]. rewrite run_sum_cons in Hmax.
    pose proof (run_sum_nonneg rest Hnn) as Hrs.
    simpl Rec.LF_to_loop. rewrite (wrap64_small (offset + run.2)) by lia.
    destruct (offset + run.2 >=? i) eqn:Hge.
    + rewrite Z.geb_leb in Hge. apply Z.leb_le in Hge.
      rewrite rank_before_here by lia.
      destruct (run.1 =? r).
      * rewrite (wrap64_small (offset + run.2 - i)) by lia.
        unfold wrap64. rewrite Zminus_mod_idemp_l. f_equal. lia.
      * rewrite Z.add_0_r. symmetry. now apply wrap64_small.
    + rewrite Z.geb_leb in Hge. apply Z.leb_gt in Hge.
      rewrite rank_before_later by lia.
      rewrite IH; auto; try lia.
      * replace (i - (offset + run.2)) with (i - offset - run.2) by lia.
        destruct (run.1 =? r).
        -- rewrite wrap64_idemp_l. f_equal. lia.
        -- reflexivity.
      * destruct (run.1 =? r); [apply wrap64_range | exact Hres].
Qed.

Lemma well_typed_lengths rec :
  well_typed rec -> Forall (fun run : Z * Z => 0 <= run.2) (body rec).
Proof.
  intros (_ & _ & _ & Hbody & _). eapply Forall_impl; [exact Hbody|].
  intros run [_ [H _]]. exact H.
Qed.

Lemma LF_to_value rec i to :
  well_typed rec -> record_inv rec -> is_size_type i ->
  Rec.edgeTo rec to < Rec.outdegree rec ->
  exists off,
    Rec.offset rec (Rec.edgeTo rec to) = Some off /\ is_short_type off /\
    Rec.LF_to rec i to
      = Some (wrap64 (off + rank_before (Rec.edgeTo rec to) (body rec) i)).
Proof.
  intros Hwt [Hsum _] Hi Hlt.
  pose proof (well_typed_lengths rec Hwt) as Hnn.
  destruct Hwt as (Hsize & _ & Hout & _).
  pose proof (edgeTo_bounds rec to) as Hb.
  destruct (offset_is_Some rec (Rec.edgeTo rec to)) as [off Hoff]; [lia|].
  assert (Hty : is_short_type off).
  { unfold Rec.offset in Hoff. apply fmap_Some in Hoff as (e & Hl & ->).
    rewrite Forall_lookup in Hout. now destruct (Hout _ _ Hl). }
  exists off. split; [exact Hoff|]. split; [exact Hty|].
  unfold Rec.LF_to. rewrite Z.geb_leb, (proj2 (Z.leb_gt _ _) Hlt), Hoff.
  unfold is_size_type, is_short_type in *.
  rewrite LF_to_loop_spec; auto; try lia. now rewrite Z.sub_0_r.
Qed.

(** X8.  On a record that satisfies the record invariants, [LF(i, to)]
    for a successor [to] is, for every [i], [offset(r)] plus the number
    of body positions [j < i] with out-rank [r = edgeTo(to)], modulo
    2^64; it is the plain sum when [size()] leaves room for a 32-bit
    offset, [LF(0, to)] is then the offset itself, and the result does
    not decrease when [i] grows. *)
Theorem LF_to_rank (rec : DynamicRecord) (i to : Z) :
  well_typed rec -> record_inv rec -> is_size_type i ->
  Rec.edgeTo rec to < Rec.outdegree rec ->
  exists off,
    Rec.offset rec (Rec.edgeTo rec to) = Some off /\
    Rec.LF_to rec i to
      = Some (wrap64 (off + rank_before (Rec.edgeTo rec to) (body rec) i)) /\
    (Rec.size rec + 2 ^ 32 <= 2 ^ 64 ->
       Rec.LF_to rec i to
         = Some (off + rank_before (Rec.edgeTo rec to) (body rec) i) /\
       Rec.LF_to rec 0 to = Some off /\
       forall j x y, i <= j -> is_size_type j ->
         Rec.LF_to rec i to = Some x -> Rec.LF_to rec j to = Some y -> x <= y).
Proof.
  intros Hwt Hinv Hi Hlt.
  destruct (LF_to_value rec i to Hwt Hinv Hi Hlt) as (off & Hoff & Hty & HLF).
  exists off. split; [exact Hoff|]. split; [exact HLF|].
  intros Hroom.
  pose proof (well_typed_lengths rec Hwt) as Hnn.
  assert (Hsmall : forall k,
            wrap64 (off + rank_before (Rec.edgeTo rec to) (body rec) k)
              = off + rank_before (Rec.edgeTo rec to) (body rec) k).
  { intros k. apply wrap64_small.
    pose proof (rank_before_bounds (Rec.edgeTo rec to) (body rec) k).
    pose proof (rank_before_le_sum (Rec.edgeTo rec to) (body rec) k Hnn).
    destruct Hinv as [Hsum _]. unfold Rec.size, is_short_type in *. lia. }
  split; [now rewrite HLF, Hsmall|]. split.
  - destruct (LF_to_value rec 0 to Hwt Hinv) as (off0 & Hoff0 & _ & HLF0);
      [unfold is_size_type; lia | exact Hlt |].
    rewrite Hoff in Hoff0. injection Hoff0 as <-.
    rewrite HLF0, Hsmall. unfold rank_before. simpl. now rewrite Z.add_0_r.
  - intros j x y Hij Hj Hx Hy.
    destruct (LF_to_value rec j to Hwt Hinv Hj Hlt) as (offj & Hoffj & _ & HLFj).
    rewrite Hoff in Hoffj. injection Hoffj as <-.
    rewrite HLF, Hsmall in Hx. rewrite HLFj, Hsmall in Hy.
    injection Hx as <-. injection Hy as <-.
    apply Z.add_le_mono_l. now apply rank_before_mono.
Qed.

Lemma two_edge_record_typed : well_typed two_edge_record.
Proof.
  unfold well_typed, pair_typed, is_size_type, is_short_type. simpl.
  repeat split; repeat constructor; simpl; lia.
Qed.

Lemma two_edge_record_inv : record_inv two_edge_record.
Proof. split; [reflexivity | repeat constructor]. Qed.

Lemma LF_to_rank_witness :
  exists off,
    Rec.offset two_edge_record (Rec.edgeTo two_edge_record 4) = Some off /\
    Rec.LF_to two_edge_record 3 4
      = Some (wrap64 (off + rank_before (Rec.edgeTo two_edge_record 4)
                              (body two_edge_record) 3)).
Proof.
  destruct (LF_to_rank two_edge_record 3 4) as (off & Hoff & HLF & _).
  - exact two_edge_record_typed.
  - exact two_edge_record_inv.
  - unfold is_size_type. lia.
  - vm_compute. reflexivity.
  - exists off. split; [exact Hoff | exact HLF].
Defined.

Lemma index_loop_spec rec runs : forall i offset,
  Forall (fun run : Z * Z => 0 <= run.2) runs ->
  0 <= offset <= i -> i < offset + run_sum runs ->
  offset + run_sum runs < 2 ^ 64 ->
  exists r,
    positions runs !! Z.to_nat (i - offset) = Some r /\
    Rec.index_loop rec runs i offset = Rec.successor rec r.
Proof.
  induction runs as [|run rest IH]; intros i offset Hnn Hoff Hlt Hmax.
  - simpl in Hlt. lia.
  - apply Forall_cons in Hnn as [Hrun Hnn]. rewrite run_sum_cons in Hlt, Hmax.
    pose proof (run_sum_nonneg rest Hnn) as Hrs.
    simpl Rec.index_loop. rewrite (wrap64_small (offset + run.2)) by lia.
    destruct (offset + run.2 >? i) eqn:Hgt.
    + apply Z.gtb_lt in Hgt. exists run.1. split; [|reflexivity].
      apply positions_lookup_here. lia.
    + rewrite Z.gtb_ltb in Hgt. apply Z.ltb_ge in Hgt.
      destruct (IH i (offset + run.2)) as (r & Hpos & Hidx); auto; try lia.
      exists r. split; [|exact Hidx].
      rewrite positions_lookup_later by lia.
      replace (Z.to_nat (i - offset) - Z.to_nat run.2)%nat
        with (Z.to_nat (i - (offset + run.2))) by lia.
      exact Hpos.
Qed.

(** [LF(i)] and [operator[]] at a position of the body, by the out-rank
    of the run that covers it. *)
Lemma LF_at rec i :
  well_typed rec -> record_inv rec -> 0 <= i < Rec.size rec ->
  exists r e,
    positions (body rec) !! Z.to_nat i = Some r /\
    0 <= r /\ outgoing rec !! Z.to_nat r = Some e /\
    Rec.LF rec i = Some (e.1, wrap32 (e.2 + rank_before r (body rec) i)) /\
    Rec.op_index rec i = Some e.1.
Proof.
  intros Hwt Hinv Hi. pose proof (record_inv_runs rec Hwt Hinv) as Hruns.
  pose proof (well_typed_lengths rec Hwt) as Hnn.
  destruct Hwt as (Hsize & _ & _ & _ & _). destruct Hinv as [Hsum _].
  unfold is_size_type, Rec.size in *.
  destruct (LF_loop_spec (body rec) i (outgoing rec) 0 0 Hruns)
    as (result' & r & offset' & Hloop & Hpos & Hoff' & Hr & Hres); try lia.
  destruct (lookup_lt_is_Some_2 (outgoing rec) (Z.to_nat r)) as [e He]; [lia|].
  specialize (Hres e He). rewrite Z.sub_0_r in Hpos.
  exists r, e. split; [exact Hpos|]. split; [lia|]. split; [exact He|]. split.
  - unfold Rec.LF, Rec.size. rewrite Z.geb_leb, (proj2 (Z.leb_gt _ _) (proj2 Hi)).
    rewrite Hloop, Hres. simpl. do 2 f_equal.
    rewrite wrap32_wrap64, (wrap64_small (offset' - i)) by lia.
    rewrite wrap32_sub_l, Z.sub_0_r. f_equal. lia.
  - unfold Rec.op_index, Rec.size. rewrite Z.geb_leb, (proj2 (Z.leb_gt _ _) (proj2 Hi)).
    destruct (index_loop_spec rec (body rec) i 0 Hnn) as (r' & Hpos' & Hidx); try lia.
    rewrite Z.sub_0_r, Hpos in Hpos'. injection Hpos' as <-.
    rewrite Hidx. unfold Rec.successor. now rewrite He.
Qed.

Lemma edgeTo_at rec r e :
  NoDup (outgoing rec).*1 -> 0 <= r ->
  outgoing rec !! Z.to_nat r = Some e -> Rec.edgeTo rec e.1 = r.
Proof.
  intros Hnd Hr Hl.
  assert (Hin : e.1 ∈ (outgoing rec).*1).
  { apply list_elem_of_fmap. exists e. split; [reflexivity|].
    eapply list_elem_of_lookup_2; exact Hl. }
  destruct (edgeTo_from_lookup (outgoing rec) e.1 Hin) as (Hb & e' & Hl' & He').
  assert (H1 : (outgoing rec).*1 !! Z.to_nat r = Some e.1)
    by (now rewrite list_lookup_fmap, Hl).
  assert (H2 : (outgoing rec).*1 !! Z.to_nat (Rec.edgeTo_from (outgoing rec) 0 e.1)
               = Some e.1)
    by (now rewrite list_lookup_fmap, Hl'; simpl; rewrite He').
  pose proof (NoDup_lookup _ _ _ _ Hnd H1 H2). unfold Rec.edgeTo. lia.
Qed.

(** X9.  At a position [i] of the body the three queries agree:
    [LF(i)] returns the node that [operator[]] returns at [i], and, on a
    record with pairwise distinct successors, its offset is the 32-bit
    truncation of what [LF(i, to)] returns for that node. *)
Theorem LF_agrees (rec : DynamicRecord) (i : Z) :
  well_typed rec -> record_inv rec -> 0 <= i < Rec.size rec ->
  exists s x,
    Rec.LF rec i = Some (s, x) /\
    Rec.op_index rec i = Some s /\
    (NoDup (outgoing rec).*1 ->
       exists y, Rec.LF_to rec i s = Some y /\ x = wrap32 y /\
                 (Rec.size rec + 2 ^ 32 <= 2 ^ 64 -> y < 2 ^ 32 -> x = y)).
Proof.
  intros Hwt Hinv Hi.
  destruct (LF_at rec i Hwt Hinv Hi) as (r & e & Hpos & Hr & He & HLF & Hidx).
  exists e.1, (wrap32 (e.2 + rank_before r (body rec) i)).
  split; [exact HLF|]. split; [exact Hidx|].
  intros Hnd. pose proof (edgeTo_at rec r e Hnd Hr He) as Hedge.
  assert (Hisz : is_size_type i).
  { destruct Hwt as (Hsize & _). unfold is_size_type, Rec.size in *. lia. }
  assert (Hlt : Rec.edgeTo rec e.1 < Rec.outdegree rec).
  { rewrite Hedge. apply lookup_lt_Some in He. unfold Rec.outdegree. lia. }
  destruct (LF_to_value rec i e.1 Hwt Hinv Hisz Hlt) as (off & Hoff & Hty & HLFto).
  rewrite Hedge in Hoff, HLFto. unfold Rec.offset in Hoff. rewrite He in Hoff.
  injection Hoff as <-.
  exists (wrap64 (e.2 + rank_before r (body rec) i)).
  split; [exact HLFto|]. split; [now rewrite wrap32_wrap64|].
  intros _ Hy. rewrite <- (wrap32_wrap64 (e.2 + _)). apply wrap32_small.
  pose proof (wrap64_range (e.2 + rank_before r (body rec) i)). lia.
Qed.

Lemma LF_agrees_witness :
  exists s x, Rec.LF two_edge_record 3 = Some (s, x) /\
              Rec.op_index two_edge_record 3 = Some s.
Proof.
  destruct (LF_agrees two_edge_record 3) as (s & x & HLF & Hidx & _).
  - exact two_edge_record_typed.
  - exact two_edge_record_inv.
  - change (0 <= 3 < 5). lia.
  - exists s, x. split; [exact HLF | exact Hidx].
Defined.

(** X10.  [LF(i, to)] counts the occurrences of [to]: on a record with
    pairwise distinct successors, moving [i] one position forward inside
    the body raises [LF(i, to)] by one when [operator[]] finds [to] at
    position [i], and leaves it unchanged otherwise. *)
Theorem LF_to_step (rec : DynamicRecord) (i to : Z) :
  well_typed rec -> record_inv rec -> NoDup (outgoing rec).*1 ->
  0 <= i < Rec.size rec -> Rec.size rec + 2 ^ 32 <= 2 ^ 64 ->
  Rec.edgeTo rec to < Rec.outdegree rec ->
  exists x s,
    Rec.LF_to rec i to = Some x /\
    Rec.op_index rec i = Some s /\
    Rec.LF_to rec (i + 1) to = Some (x + (if s =? to then 1 else 0)).
Proof.
  intros Hwt Hinv Hnd Hi Hroom Hlt.
  destruct (LF_at rec i Hwt Hinv Hi) as (r & e & Hpos & Hr & He & _ & Hidx).
  pose proof (well_typed_lengths rec Hwt) as Hnn.
  assert (Hsz : is_size_type (body_size rec)) by (now destruct Hwt).
  assert (Hsum : run_sum (body rec) = body_size rec) by (now destruct Hinv).
  unfold is_size_type, Rec.size in *.
  destruct (LF_to_value rec i to Hwt Hinv) as (off & Hoff & Hty & HLF);
    [unfold is_size_type; lia | exact Hlt |].
  destruct (LF_to_value rec (i + 1) to Hwt Hinv) as (off' & Hoff' & _ & HLF');
    [unfold is_size_type; lia | exact Hlt |].
  rewrite Hoff in Hoff'. injection Hoff' as <-.
  assert (Hsmall : forall k,
            wrap64 (off + rank_before (Rec.edgeTo rec to) (body rec) k)
              = off + rank_before (Rec.edgeTo rec to) (body rec) k).
  { intros k. apply wrap64_small.
    pose proof (rank_before_bounds (Rec.edgeTo rec to) (body rec) k).
    pose proof (rank_before_le_sum (Rec.edgeTo rec to) (body rec) k Hnn).
    unfold is_short_type in *. lia. }
  rewrite Hsmall in HLF, HLF'.
  exists (off + rank_before (Rec.edgeTo rec to) (body rec) i), e.1.
  split; [exact HLF|]. split; [exact Hidx|].
  rewrite HLF', (rank_before_step _ _ _ r) by (lia || exact Hpos).
  rewrite Z.add_assoc. do 2 f_equal.
  pose proof (edgeTo_at rec r e Hnd Hr He) as Hedge.
  destruct (Z.eqb_spec r (Rec.edgeTo rec to)) as [E|E];
    destruct (Z.eqb_spec e.1 to) as [E'|E']; try reflexivity.
  - exfalso. apply E'. rewrite E in He.
    destruct (edgeTo_from_found (outgoing rec) 0 to) as (e' & Hl' & He');
      [unfold Rec.edgeTo, Rec.outdegree in Hlt; lia|].
    rewrite Z.sub_0_r in Hl'. unfold Rec.edgeTo in He. rewrite He in Hl'.
    now injection Hl' as ->.
  - exfalso. apply E. now rewrite <- E', Hedge.
Qed.

Lemma LF_to_step_witness :
  exists x s,
    Rec.LF_to two_edge_record 3 4 = Some x /\
    Rec.op_index two_edge_record 3 = Some s /\
    Rec.LF_to two_edge_record 4 4 = Some (x + (if s =? 4 then 1 else 0)).
Proof.
  apply (LF_to_step two_edge_record 3 4).
  - exact two_edge_record_typed.
  - exact two_edge_record_inv.
  - apply (bool_decide_unpack _). vm_compute. reflexivity.
  - change (0 <= 3 < 5). lia.
  - change (5 + 2 ^ 32 <= 2 ^ 64). lia.
  - vm_compute. reflexivity.
Defined.

(** The loops of [LF(range, to)] keep the iterator on a run of the
    body, with [offset] and [result] the sums over the runs up to and
    including it, and stop on the first run that reaches the bound. *)
Lemma advance_from_valid (off r bound : Z) (runs : list (Z * Z)) :
  Forall (fun run : Z * Z => 0 <= run.2) runs -> run_sum runs < 2 ^ 64 ->
  forall rest pre run,
  runs = pre ++ run :: rest ->
  run_sum pre <= bound <= run_sum runs ->
  exists pre' run' rest',
    runs = pre' ++ run' :: rest' /\
    Rec.advance_from rest r bound false run
        (wrap64 (off + run_total r (pre ++ [run]))) (run_sum (pre ++ [run]))
      = Rec.mkCursor false rest' run'
          (wrap64 (off + run_total r (pre' ++ [run']))) (run_sum (pre' ++ [run'])) /\
    run_sum pre' <= bound <= run_sum (pre' ++ [run']).
Proof.
  intros Hnn Hmax. induction rest as [|next rest IH]; intros pre run Hruns Hb.
  - exists pre, run, []. split; [exact Hruns|].
    assert (Hsum : run_sum (pre ++ [run]) = run_sum runs) by (now rewrite Hruns).
    split; [|lia]. simpl Rec.advance_from.
    rewrite (proj2 (Z.ltb_ge _ _)) by lia. reflexivity.
  - simpl Rec.advance_from.
    destruct (run_sum (pre ++ [run]) <? bound) eqn:Hlt; simpl andb; cbv iota.
    + apply Z.ltb_lt in Hlt.
      assert (Hruns' : runs = (pre ++ [run]) ++ next :: rest)
        by (now rewrite <- app_assoc).
      destruct (IH (pre ++ [run]) next Hruns') as (pre' & run' & rest' & H1 & H2 & H3);
        [lia|].
      exists pre', run', rest'. split; [exact H1|]. split; [|exact H3].
      rewrite <- H2. f_equal.
      * rewrite (run_total_app r (pre ++ [run]) [next]), run_total_cons, run_total_nil.
        destruct (next.1 =? r).
        -- rewrite wrap64_idemp_l. f_equal. lia.
        -- f_equal. lia.
      * rewrite (run_sum_app (pre ++ [run]) [next]), run_sum_cons. simpl.
        rewrite Z.add_0_r. apply wrap64_small.
        pose proof Hnn as Hnn'. rewrite Hruns' in Hnn'.
        apply Forall_app in Hnn' as [Hp Hq]. apply Forall_cons in Hq as [Hnext Hq].
        pose proof (run_sum_nonneg _ Hp). pose proof (run_sum_nonneg _ Hq).
        pose proof Hmax as Hmax'.
        rewrite Hruns', run_sum_app, run_sum_cons in Hmax'. lia.
    + apply Z.ltb_ge in Hlt. exists pre, run, (next :: rest).
      split; [exact Hruns|]. split; [reflexivity | lia].
Qed.

(** What [LF(range, to)] makes of the state its loop stopped in. *)
Lemma cursor_rank (off r bound : Z) (pre : list (Z * Z)) (run : Z * Z) rest :
  Forall (fun run : Z * Z => 0 <= run.2) (pre ++ run :: rest) ->
  run_sum (pre ++ run :: rest) < 2 ^ 64 ->
  run_sum pre <= bound <= run_sum (pre ++ [run]) ->
  wrap64 (wrap64 (off + run_total r (pre ++ [run])) -
          (if run.1 =? r then wrap64 (run_sum (pre ++ [run]) - bound) else 0))
    = wrap64 (off + rank_before r (pre ++ run :: rest) bound).
Proof.
  intros Hnn Hmax Hb.
  apply Forall_app in Hnn as [Hpre Hnn]. apply Forall_cons in Hnn as [Hrun Hrest].
  pose proof (run_sum_nonneg pre Hpre). pose proof (run_sum_nonneg rest Hrest).
  rewrite run_sum_app, run_sum_cons in Hmax.
  rewrite run_sum_app, run_sum_cons in Hb. simpl in Hb. rewrite Z.add_0_r in Hb.
  rewrite rank_before_app by (auto; lia). rewrite rank_before_here by lia.
  rewrite run_total_app, run_total_cons, run_total_nil, run_sum_app, run_sum_cons.
  change (run_sum []) with 0. rewrite !Z.add_0_r.
  destruct (run.1 =? r).
  - rewrite (wrap64_small (run_sum pre + run.2 - bound)) by lia.
    unfold wrap64. rewrite Zminus_mod_idemp_l. f_equal. lia.
  - now rewrite Z.sub_0_r, wrap64_wrap64.
Qed.

(** X11.  On a record that satisfies the record invariants,
    [LF(range, to)] for a successor [to] and a range
    [0 <= sp <= ep <= size()] of a non-empty record is the pair of
    [LF(sp, to)] and [LF(ep, to)]: each end is mapped as a single
    position is. *)
Theorem LF_range_ends (rec : DynamicRecord) (sp ep to : Z) :
  well_typed rec -> record_inv rec ->
  0 <= sp <= ep -> ep <= Rec.size rec -> 0 < Rec.size rec -> ep < 2 ^ 64 - 1 ->
  Rec.edgeTo rec to < Rec.outdegree rec ->
  exists a b,
    Rec.LF_to rec sp to = Some a /\
    Rec.LF_to rec ep to = Some b /\
    Rec.LF_range rec (sp, ep) to = Some (a, b).
Proof.
  intros Hwt Hinv Hsp Hep Hpos Hmax Hlt.
  pose proof (well_typed_lengths rec Hwt) as Hnn.
  assert (Hsz : is_size_type (body_size rec)) by (now destruct Hwt).
  assert (Hsum : run_sum (body rec) = body_size rec) by (now destruct Hinv).
  unfold is_size_type, Rec.size in *.
  destruct (LF_to_value rec sp to Hwt Hinv) as (off & Hoff & Hty & HLFsp);
    [unfold is_size_type; lia | exact Hlt |].
  destruct (LF_to_value rec ep to Hwt Hinv) as (off' & Hoff' & _ & HLFep);
    [unfold is_size_type; lia | exact Hlt |].
  rewrite Hoff in Hoff'. injection Hoff' as <-.
  exists (wrap64 (off + rank_before (Rec.edgeTo rec to) (body rec) sp)),
         (wrap64 (off + rank_before (Rec.edgeTo rec to) (body rec) ep)).
  split; [exact HLFsp|]. split; [exact HLFep|].
  assert (Hne : Range.empty (sp, ep) = false).
  { unfold Range.empty. cbn [fst snd]. rewrite !wrap64_small by lia.
    rewrite Z.gtb_ltb. apply Z.ltb_ge. lia. }
  unfold Rec.LF_range. rewrite Hne, Z.geb_leb, (proj2 (Z.leb_gt _ _) Hlt).
  destruct (body rec) as [|run rest] eqn:Hbody; [simpl in Hsum; lia|].
  rewrite Hoff. cbv zeta. cbn [fst snd].
  set (r := Rec.edgeTo rec to) in *.
  set (c0 := Rec.mkCursor false rest run
               (wrap64 (off + (if run.1 =? r then run.2 else 0))) run.2).
  assert (Hmax' : run_sum (run :: rest) < 2 ^ 64) by lia.
  destruct (advance_from_valid off r sp (run :: rest) Hnn Hmax' rest [] run eq_refl)
    as (pre1 & run1 & rest1 & Hruns1 & Hadv1 & Hb1); [change (run_sum []) with 0; lia|].
  assert (Hadv1' : Rec.advance r sp c0
                   = Rec.mkCursor false rest1 run1
                       (wrap64 (off + run_total r (pre1 ++ [run1])))
                       (run_sum (pre1 ++ [run1]))).
  { rewrite <- Hadv1. unfold Rec.advance, c0.
    cbn [Rec.it_end Rec.it_rest Rec.it_run Rec.it_result Rec.it_offset].
    f_equal.
    - simpl app. rewrite run_total_cons, run_total_nil. f_equal. lia.
    - simpl app. rewrite run_sum_cons. change (run_sum []) with 0. lia. }
  destruct (advance_from_valid off r ep (run :: rest) Hnn Hmax' rest1 pre1 run1 Hruns1)
    as (pre2 & run2 & rest2 & Hruns2 & Hadv2 & Hb2); [lia|].
  assert (Hadv2' : Rec.advance r ep (Rec.advance r sp c0)
                   = Rec.mkCursor false rest2 run2
                       (wrap64 (off + run_total r (pre2 ++ [run2])))
                       (run_sum (pre2 ++ [run2]))).
  { rewrite Hadv1', <- Hadv2. reflexivity. }
  rewrite Hadv2', Hadv1'.
  cbn [Rec.it_end Rec.it_rest Rec.it_run Rec.it_result Rec.it_offset].
  do 2 f_equal.
  - rewrite Hruns1. apply cursor_rank; try rewrite <- Hruns1; auto.
  - rewrite Hruns2. apply cursor_rank; try rewrite <- Hruns2; auto.
Qed.

Lemma LF_range_ends_witness :
  exists a b,
    Rec.LF_to two_edge_record 1 4 = Some a /\
    Rec.LF_to two_edge_record 4 4 = Some b /\
    Rec.LF_range two_edge_record (1, 4) 4 = Some (a, b).
Proof.
  apply (LF_range_ends two_edge_record 1 4 4).
  - exact two_edge_record_typed.
  - exact two_edge_record_inv.
  - lia.
  - change (4 <= 5). lia.
  - change (0 < 5). lia.
  - lia.
  - vm_compute. reflexivity.
Defined.

(** ** The array of compressed records *)

Lemma bytecode_write_nonempty value : (0 < length (ByteCode.write value))%nat.
Proof.
  unfold ByteCode.write. destruct (Z.to_nat (Z.log2 value)); simpl; [lia|].
  destruct (value >=? 128); simpl; lia.
Qed.

Lemma write_record_nonempty rec : (0 < length (RA.write_record rec))%nat.
Proof.
  unfold RA.write_record. rewrite length_app.
  pose proof (bytecode_write_nonempty (Rec.outdegree rec)). lia.
Qed.

Lemma compress_spec bwt : forall bytes offsets,
  RA.compress bwt bytes offsets
    = (bytes ++ concat (map RA.write_record bwt),
       offsets ++ record_starts bwt (Z.of_nat (length bytes))).
Proof.
  induction bwt as [|rec rest IH]; intros bytes offsets; simpl.
  - now rewrite !app_nil_r.
  - rewrite IH, length_app, Nat2Z.inj_add, <- !app_assoc. reflexivity.
Qed.

Lemma record_starts_length bwt off : length (record_starts bwt off) = length bwt.
Proof.
  revert off. induction bwt as [|rec rest IH]; intros off; simpl; [reflexivity|].
  now rewrite IH.
Qed.

Lemma record_starts_lookup pre rec post off :
  record_starts (pre ++ rec :: post) off !! length pre
    = Some (off + Z.of_nat (length (concat (map RA.write_record pre)))).
Proof.
  revert off. induction pre as [|r pre IH]; intros off; simpl.
  - f_equal. lia.
  - rewrite IH, length_app. f_equal. lia.
Qed.

Lemma set_all_starts bwt : forall off b,
  Sdsl.b_tail b <= off ->
  off + Z.of_nat (length (concat (map RA.write_record bwt))) <= Sdsl.b_size b ->
  Z.of_nat (length (Sdsl.b_items b)) + Z.of_nat (length bwt) <= Sdsl.b_capacity b ->
  exists b', RA.set_all (record_starts bwt off) b = Some b' /\
             extends b b' (record_starts bwt off).
Proof.
  induction bwt as [|rec rest IH]; intros off b Htail Hsize Hcap; simpl.
  - exists b. split; [reflexivity|]. unfold extends. now rewrite app_nil_r.
  - simpl in Hsize, Hcap. rewrite length_app in Hsize.
    pose proof (write_record_nonempty rec) as Hpos.
    destruct (builder_set_spec b off) as (b1 & Hset & (Hs1 & Hc1 & Hi1) & Ht1); [lia|lia|].
    rewrite Hset.
    destruct (IH (off + Z.of_nat (length (RA.write_record rec))) b1)
      as (b' & Hall & (Hs & Hc & Hi)); try lia.
    { rewrite Hi1, length_app. simpl. lia. }
    exists b'. split; [exact Hall|]. unfold extends.
    rewrite Hs, Hc, Hi, Hs1, Hc1, Hi1, <- app_assoc. auto.
Qed.

(** X12.  The constructor of [RecordArray] succeeds on every vector of
    records: [records] is their number, [data] the bytes of the records
    one after the other, and [index] is as long as [data] and marks the
    first byte of every record, so that [select(i + 1)] is where the
    bytes of record [i] start and they end where the next record starts,
    or with [data] for the last one. *)
Theorem RecordArray_layout (bwt : list DynamicRecord) :
  exists x,
    RA.from_bwt bwt = Some x /\
    records x = Z.of_nat (length bwt) /\
    data x = concat (map RA.write_record bwt) /\
    Sdsl.sd_size (index x) = Z.of_nat (length (data x)) /\
    forall pre rec post, bwt = pre ++ rec :: post ->
      exists start,
        Sdsl.sd_select (index x) (Z.of_nat (length pre) + 1) = Some start /\
        start = Z.of_nat (length (concat (map RA.write_record pre))) /\
        take (length (RA.write_record rec)) (drop (Z.to_nat start) (data x))
          = RA.write_record rec /\
        match post with
        | [] => start + Z.of_nat (length (RA.write_record rec))
                  = Z.of_nat (length (data x))
        | _ :: _ =>
            Sdsl.sd_select (index x) (Z.of_nat (length pre) + 2)
              = Some (start + Z.of_nat (length (RA.write_record rec)))
        end.
Proof.
  unfold RA.from_bwt. rewrite compress_spec. simpl app. simpl length.
  change (Z.of_nat 0) with 0.
  assert (Hlen : Z.of_nat (length bwt)
                   <= Z.of_nat (length (concat (map RA.write_record bwt)))).
  { induction bwt as [|rec rest IH]; simpl; [lia|].
    rewrite length_app. pose proof (write_record_nonempty rec). lia. }
  unfold Sdsl.builder_new. rewrite record_starts_length.
  rewrite (proj2 (Z.leb_le _ _) Hlen).
  destruct (set_all_starts bwt 0
              (Sdsl.mkBuilder (Z.of_nat (length (concat (map RA.write_record bwt))))
                 (Z.of_nat (length bwt)) 0 []))
    as (b' & Hall & (Hs & Hc & Hi)); simpl; try lia.
  rewrite Hall. unfold Sdsl.sd_of_builder. simpl in Hs, Hc, Hi.
  rewrite Hi, Hc, Hs, record_starts_length, Z.eqb_refl.
  eexists. split; [reflexivity|]. simpl. repeat split.
  intros pre rec post ->.
  exists (Z.of_nat (length (concat (map RA.write_record pre)))).
  unfold Sdsl.sd_select. simpl.
  rewrite (proj2 (Z.leb_le 1 _)) by lia.
  replace (Z.to_nat (Z.of_nat (length pre) + 1 - 1)) with (length pre) by lia.
  rewrite record_starts_lookup, Z.add_0_l. split; [reflexivity|].
  split; [reflexivity|]. rewrite Nat2Z.id. split.
  - rewrite map_app, concat_app, drop_app_length. simpl.
    now rewrite take_app_length.
  - destruct post as [|next post].
    + rewrite map_app, concat_app, length_app. simpl. rewrite app_nil_r. lia.
    + rewrite (proj2 (Z.leb_le 1 _)) by lia.
      replace (Z.to_nat (Z.of_nat (length pre) + 2 - 1))
        with (length (pre ++ [rec])) by (rewrite length_app; simpl; lia).
      replace (pre ++ rec :: next :: post) with ((pre ++ [rec]) ++ next :: post)
        by (now rewrite <- app_assoc).
      rewrite record_starts_lookup, map_app, concat_app, length_app. simpl.
      rewrite app_nil_r. f_equal. lia.
Qed.

(** ** Compressed records *)

Lemma read_outgoing_written (out : list (Z * Z)) : forall prev rest,
  Forall pair_typed out ->
  CRec.read_outgoing (length out) (RA.write_outgoing out prev ++ rest) prev
    = Some (out, rest).
Proof.
  induction out as [|e out IH]; intros prev rest Hty; [reflexivity|].
  apply Forall_cons in Hty as [[Hfirst Hsecond] Hty].
  unfold is_short_type in *. simpl length. simpl RA.write_outgoing.
  simpl CRec.read_outgoing. rewrite <- !app_assoc.
  rewrite bytecode_read_write by apply wrap64_range.
  rewrite wrap64_idemp_l. replace (e.1 - prev + prev) with e.1 by lia.
  rewrite wrap32_wrap64, (wrap32_small e.1) by exact Hfirst.
  rewrite bytecode_read_write by lia.
  rewrite IH by exact Hty. rewrite (wrap32_small e.2) by exact Hsecond.
  now destruct e.
Qed.

(** X13.  The constructor of [CompressedRecord] reads back what the
    constructor of [RecordArray] wrote for a record: at the bytes of a
    record with 32-bit edges, wherever they stand in the source, it
    recovers the vector of outgoing edges, in whatever order they were,
    leaves [body] at the encoded runs with [data_size] their number of
    bytes, and [edgeTo] answers as on the dynamic record. *)
Theorem CompressedRecord_reads_outgoing (rec : DynamicRecord) (pre post : list Z) :
  Forall pair_typed (outgoing rec) ->
  Z.of_nat (length (pre ++ RA.write_record rec ++ post)) < 2 ^ 64 ->
  exists cr,
    CRec.from_bytes (pre ++ RA.write_record rec ++ post)
        (Z.of_nat (length pre))
        (Z.of_nat (length pre) + Z.of_nat (length (RA.write_record rec)))
      = Some cr /\
    c_outgoing cr = outgoing rec /\
    CRec.outdegree cr = Rec.outdegree rec /\
    take (Z.to_nat (c_data_size cr)) (c_body cr)
      = (if Rec.outdegree rec >? 0
         then Run.write_all (Rec.outdegree rec) (body rec) else []) /\
    (forall to, CRec.edgeTo cr to = Rec.edgeTo rec to) /\
    (forall outrank, CRec.successor cr outrank = Rec.successor rec outrank).
Proof.
  intros Hty Hlen. unfold CRec.from_bytes.
  rewrite Nat2Z.id, drop_app_length.
  set (runs := if Rec.outdegree rec >? 0
               then Run.write_all (Rec.outdegree rec) (body rec) else []).
  assert (Hwr : RA.write_record rec
                = ByteCode.write (Rec.outdegree rec)
                    ++ RA.write_outgoing (outgoing rec) 0 ++ runs) by reflexivity.
  rewrite Hwr in *. rewrite <- !app_assoc.
  rewrite bytecode_read_write by (unfold Rec.outdegree; lia).
  unfold Rec.outdegree at 1. rewrite Nat2Z.id.
  rewrite read_outgoing_written by exact Hty.
  eexists. split; [reflexivity|]. simpl.
  split; [reflexivity|]. split; [reflexivity|]. split; [|split; reflexivity].
  rewrite !length_app in *.
  rewrite wrap64_small by lia.
  replace (Z.to_nat _) with (length runs) by lia.
  now rewrite take_app_length.
Qed.

Lemma CompressedRecord_reads_outgoing_witness :
  exists cr,
    CRec.from_bytes ([7] ++ RA.write_record two_edge_record ++ [9]) 1
        (1 + Z.of_nat (length (RA.write_record two_edge_record)))
      = Some cr /\
    c_outgoing cr = outgoing two_edge_record.
Proof.
  destruct (CompressedRecord_reads_outgoing two_edge_record [7] [9])
    as (cr & Hcr & Hout & _).
  - exact (proj1 (proj2 (proj2 two_edge_record_typed))).
  - vm_compute. reflexivity.
  - exists cr. split; [exact Hcr | exact Hout].
Defined.

(** ** Recoding a record *)

Lemma edge_by_successor (out : list (Z * Z)) e e' :
  NoDup out.*1 -> e ∈ out -> e' ∈ out -> e.1 = e'.1 -> e = e'.
Proof.
  intros Hnd Hin Hin' Heq.
  apply list_elem_of_lookup_1 in Hin as [j Hj].
  apply list_elem_of_lookup_1 in Hin' as [j' Hj'].
  assert (H1 : out.*1 !! j = Some e.1) by (now rewrite list_lookup_fmap, Hj).
  assert (H2 : out.*1 !! j' = Some e.1) by (now rewrite list_lookup_fmap, Hj', Heq).
  pose proof (NoDup_lookup _ _ _ _ Hnd H1 H2) as ->. congruence.
Qed.

(** What [recode()] returns: the outgoing edges rearranged into sorted
    order, and every run renamed to the new out-rank of its edge. *)
Lemma recode_shape rec :
  well_typed rec -> Rec.empty rec = false -> NoDup (outgoing rec).*1 ->
  Forall (fun run => run.1 < Rec.outdegree rec) (body rec) ->
  exists rec',
    Rec.recode rec = Some rec' /\
    body_size rec' = body_size rec /\ incoming rec' = incoming rec /\
    ids rec' = ids rec /\
    outgoing rec' ≡ₚ outgoing rec /\
    Sorted Z.le (outgoing rec').*1 /\
    Forall2 (same_edge rec rec') (body rec) (body rec').
Proof.
  intros (_ & _ & Hout & Hbody & _) Hne Hnd Hranks.
  assert (Hedge : forall run, run ∈ body rec ->
            0 <= run.1 /\ is_short_type run.1 /\
            exists e, outgoing rec !! Z.to_nat run.1 = Some e).
  { intros run Hin. rewrite Forall_forall in Hranks, Hbody.
    specialize (Hranks run Hin). destruct (Hbody run Hin) as [Hr _].
    unfold Rec.outdegree in Hranks. split; [apply Hr|]. split; [exact Hr|].
    apply lookup_lt_is_Some_2. destruct Hr. lia. }
  unfold Rec.recode. rewrite Hne.
  destruct (Rec.sorted_check (outgoing rec)) eqn:Hchk.
  { exists rec. repeat split; auto.
    - now apply sorted_check_iff.
    - apply Forall2_same_length_lookup. split; [reflexivity|].
      intros j run run' Hj Hj'. rewrite Hj in Hj'. injection Hj' as <-.
      destruct (Hedge run) as (_ & Hty & e & He);
        [eapply list_elem_of_lookup_2; exact Hj|].
      split; [reflexivity|]. split; [exact Hty|]. eauto. }
  set (out := Rec.sequentialSort (outgoing rec)).
  pose proof (sequentialSort_perm (outgoing rec)) as Hperm. fold out in Hperm.
  assert (Hnd' : NoDup out.*1) by (now rewrite Hperm).
  assert (Hinc : StronglySorted Z.lt out.*1).
  { apply sorted_distinct_increasing; [apply sequentialSort_sorted | exact Hnd']. }
  assert (Hnn : Forall (fun x => 0 <= x) out.*1).
  { rewrite Forall_fmap, Hperm. eapply Forall_impl; [exact Hout|].
    intros e [[? _] _]. exact H. }
  assert (Hmove : forall run, run ∈ body rec ->
            exists e, outgoing rec !! Z.to_nat run.1 = Some e /\
                      out !! Z.to_nat (wrap32 (Rec.edgeTo_from out 0 (wrap32 e.1)))
                        = Some e).
  { intros run Hin. destruct (Hedge run Hin) as (_ & _ & e & He).
    exists e. split; [exact He|].
    rewrite Forall_lookup in Hout. destruct (Hout _ _ He) as [Hs _].
    rewrite (wrap32_small e.1) by exact Hs.
    assert (Hin' : e ∈ out).
    { rewrite Hperm. eapply list_elem_of_lookup_2; exact He. }
    assert (Hin1 : e.1 ∈ out.*1).
    { apply list_elem_of_fmap. exists e. auto. }
    destruct (edgeTo_from_lookup out e.1 Hin1) as [Hb (e' & Hl' & He')].
    assert (Hj : Rec.edgeTo_from out 0 e.1 <= e.1).
    { pose proof (increasing_index_le _ Hinc 0 Hnn
                    (Z.to_nat (Rec.edgeTo_from out 0 e.1)) e.1) as Hle.
      rewrite list_lookup_fmap, Hl' in Hle. simpl in Hle.
      rewrite He' in Hle. specialize (Hle eq_refl). lia. }
    rewrite wrap32_small by (unfold is_short_type in Hs; lia).
    rewrite Hl'. f_equal. apply (edge_by_successor out); auto.
    eapply list_elem_of_lookup_2; exact Hl'. }
  destruct (mapM_is_Some_2
              (fun run : Z * Z => (fun s => (wrap32 s, run.2)) <$> Rec.successor rec run.1)
              (body rec)) as [body1 Hmap].
  { rewrite Forall_forall. intros run Hin. destruct (Hmove run Hin) as (e & He & _).
    unfold compose, Rec.successor. rewrite He. simpl. eauto. }
  rewrite Hmap. eexists. split; [reflexivity|]. simpl.
  split; [reflexivity|]. split; [reflexivity|]. split; [reflexivity|].
  split; [exact Hperm|]. split.
  { apply StronglySorted_Sorted. clear -Hinc.
    induction Hinc as [|x l _ IH Hhd]; constructor; auto.
    eapply Forall_impl; [exact Hhd|]. intros; simpl in *; lia. }
  apply Forall2_fmap_r. apply mapM_Some_1 in Hmap.
  eapply Forall2_impl_elem_of; [exact Hmap|].
  intros run run1 Hin Hrun. simpl in Hrun.
  destruct (Hmove run Hin) as (e & He & Hnew).
  unfold Rec.successor in Hrun. rewrite He in Hrun. simpl in Hrun.
  injection Hrun as <-. unfold same_edge. simpl.
  split; [reflexivity|]. split.
  - unfold is_short_type, wrap32. apply Z.mod_pos_bound. lia.
  - exists e. fold out. auto.
Qed.

Lemma LF_to_loop_congr (runs runs' : list (Z * Z)) r r' :
  Forall2 (fun run run' : Z * Z =>
             run'.2 = run.2 /\ (run'.1 =? r') = (run.1 =? r)) runs runs' ->
  forall i result offset,
    Rec.LF_to_loop runs' r' i result offset = Rec.LF_to_loop runs r i result offset.
Proof.
  induction 1 as [|run run' rest rest' [Hlen Hrank] _ IH]; intros i result offset; simpl.
  - reflexivity.
  - rewrite Hlen, Hrank, IH. reflexivity.
Qed.

Lemma same_edge_run_sum rec rec' runs runs' :
  Forall2 (same_edge rec rec') runs runs' -> run_sum runs' = run_sum runs.
Proof.
  induction 1 as [|run run' rest rest' [Hlen _] _ IH]; [reflexivity|].
  rewrite !run_sum_cons. lia.
Qed.

(** X14.  [recode()] does not change what the record answers: on a
    non-empty record with pairwise distinct successors that satisfies
    the record invariants, the recoded record satisfies them as well,
    [LF(i, to)] and [LF(i)] return on it what they returned before, for
    every position and every node, and recoding it again changes
    nothing. *)
Theorem recode_preserves_queries (rec : DynamicRecord) :
  well_typed rec -> record_inv rec -> Rec.empty rec = false ->
  NoDup (outgoing rec).*1 ->
  exists rec',
    Rec.recode rec = Some rec' /\
    Rec.recode rec' = Some rec' /\
    well_typed rec' /\ record_inv rec' /\ NoDup (outgoing rec').*1 /\
    (forall i to, Rec.LF_to rec' i to = Rec.LF_to rec i to) /\
    (forall i, 0 <= i -> Rec.LF rec' i = Rec.LF rec i).
Proof.
  intros Hwt Hinv Hne Hnd.
  destruct (recode_shape rec Hwt Hne Hnd (proj2 Hinv))
    as (rec' & Hrec & Hsize & Hinc & Hids & Hperm & Hsorted & Hbody).
  assert (Hnd' : NoDup (outgoing rec').*1) by (now rewrite Hperm).
  assert (Hdeg : Rec.outdegree rec' = Rec.outdegree rec).
  { unfold Rec.outdegree. now rewrite (Permutation_length Hperm). }
  assert (Hwt' : well_typed rec').
  { destruct Hwt as (H1 & H2 & H3 & H4 & H5). unfold well_typed.
    rewrite Hsize, Hinc, Hids, Hperm.
    split; [exact H1|]. split; [exact H2|]. split; [exact H3|]. split; [|exact H5].
    clear -Hbody H4. induction Hbody as [|run run' l l' (Hlen & Hty & _) _ IH];
      [constructor|].
    apply Forall_cons in H4 as [[_ Hr] H4]. constructor; [|now apply IH].
    split; [exact Hty | now rewrite Hlen]. }
  assert (Hinv' : record_inv rec').
  { destruct Hinv as [Hsum Hranks]. split.
    - now rewrite (same_edge_run_sum _ _ _ _ Hbody), Hsize.
    - clear -Hbody.
      induction Hbody as [|run run' l l' (_ & _ & e & _ & He) _ IH]; constructor; auto.
      apply lookup_lt_Some in He. unfold Rec.outdegree. lia. }
  assert (HLFto : forall i to, Rec.LF_to rec' i to = Rec.LF_to rec i to).
  { intros i to. unfold Rec.LF_to. rewrite Hdeg.
    pose proof (edgeTo_bounds rec to) as Hb. pose proof (edgeTo_bounds rec' to) as Hb'.
    destruct (decide (to ∈ (outgoing rec).*1)) as [Hin|Hnot].
    - assert (Hin' : to ∈ (outgoing rec').*1) by (now rewrite Hperm).
      destruct (edgeTo_from_lookup (outgoing rec) to Hin) as (Hr & e & He & Hto).
      destruct (edgeTo_from_lookup (outgoing rec') to Hin') as (Hr' & e' & He' & Hto').
      assert (Hsame : e' = e).
      { apply (edge_by_successor (outgoing rec)); auto; [| |congruence].
        - rewrite <- Hperm. eapply list_elem_of_lookup_2; exact He'.
        - eapply list_elem_of_lookup_2; exact He. }
      subst e'. fold (Rec.edgeTo rec to) in He, Hr. fold (Rec.edgeTo rec' to) in He', Hr'.
      unfold Rec.outdegree in *.
      rewrite !Z.geb_leb, !(proj2 (Z.leb_gt _ _)) by lia.
      unfold Rec.offset. rewrite He, He'. simpl. f_equal.
      apply LF_to_loop_congr.
      eapply Forall2_impl_elem_of; [exact Hbody|].
      intros run run' Hrun (Hlen & Hty & e0 & H0 & H0'). split; [exact Hlen|].
      assert (Hrun0 : 0 <= run.1).
      { destruct Hwt as (_ & _ & _ & H4 & _). rewrite Forall_forall in H4.
        now destruct (H4 run Hrun) as [[? _] _]. }
      destruct (Z.eqb_spec run.1 (Rec.edgeTo rec to)) as [E|E];
        destruct (Z.eqb_spec run'.1 (Rec.edgeTo rec' to)) as [E'|E']; try reflexivity.
      + exfalso. apply E'. rewrite E, He in H0. injection H0 as <-.
        assert (H1 : (outgoing rec').*1 !! Z.to_nat run'.1 = Some e.1)
          by (now rewrite list_lookup_fmap, H0').
        assert (H2 : (outgoing rec').*1 !! Z.to_nat (Rec.edgeTo rec' to) = Some e.1)
          by (now rewrite list_lookup_fmap, He').
        pose proof (NoDup_lookup _ _ _ _ Hnd' H1 H2). destruct Hty. lia.
      + exfalso. apply E. rewrite E', He' in H0'. injection H0' as <-.
        assert (H1 : (outgoing rec).*1 !! Z.to_nat run.1 = Some e.1)
          by (now rewrite list_lookup_fmap, H0).
        assert (H2 : (outgoing rec).*1 !! Z.to_nat (Rec.edgeTo rec to) = Some e.1)
          by (now rewrite list_lookup_fmap, He).
        pose proof (NoDup_lookup _ _ _ _ Hnd H1 H2). lia.
    - assert (Hnot' : to ∉ (outgoing rec').*1) by (now rewrite Hperm).
      apply (edgeTo_from_missing _ 0) in Hnot. apply (edgeTo_from_missing _ 0) in Hnot'.
      pose proof (Permutation_length Hperm) as Hl.
      unfold Rec.edgeTo, Rec.outdegree. rewrite Hnot, Hnot'.
      rewrite !Z.geb_leb, !(proj2 (Z.leb_le _ _)) by lia. reflexivity. }
  exists rec'. split; [exact Hrec|]. split.
  { unfold Rec.recode.
    destruct (Rec.empty rec'); [reflexivity|].
    now rewrite (proj2 (sorted_check_iff (outgoing rec')) Hsorted). }
  split; [exact Hwt'|]. split; [exact Hinv'|]. split; [exact Hnd'|].
  split; [exact HLFto|].
  intros i Hi. destruct (Z.lt_ge_cases i (Rec.size rec)) as [Hlt|Hge].
  - assert (Hlt' : 0 <= i < Rec.size rec') by (unfold Rec.size in *; lia).
    destruct (LF_at rec i Hwt Hinv (conj Hi Hlt)) as (r & e & Hpos & Hr & He & HLF & Hidx).
    destruct (LF_at rec' i Hwt' Hinv' Hlt')
      as (r' & e' & Hpos' & Hr' & He' & HLF' & Hidx').
    assert (Hsame : e' = e).
    { assert (Hrel : Forall2 (fun x x' =>
                        exists e0, outgoing rec !! Z.to_nat x = Some e0 /\
                                   outgoing rec' !! Z.to_nat x' = Some e0)
                       (positions (body rec)) (positions (body rec'))).
      { clear -Hbody. induction Hbody as [|run run' l l' (Hlen & _ & He) _ IH];
          [constructor|].
        simpl. rewrite Hlen. apply Forall2_app; [|exact IH].
        apply Forall2_replicate. exact He. }
      destruct (Forall2_lookup_lr _ _ _ _ _ _ Hrel Hpos Hpos') as (e0 & H0 & H0').
      congruence. }
    subst e'. rewrite HLF, HLF'. do 2 f_equal.
    assert (Hisz : is_size_type i).
    { destruct Hwt as (Hs & _). unfold is_size_type, Rec.size in *. lia. }
    pose proof (edgeTo_at rec r e Hnd Hr He) as Hedge.
    pose proof (edgeTo_at rec' r' e Hnd' Hr' He') as Hedge'.
    assert (Hdeg1 : Rec.edgeTo rec e.1 < Rec.outdegree rec).
    { rewrite Hedge. apply lookup_lt_Some in He. unfold Rec.outdegree. lia. }
    assert (Hdeg2 : Rec.edgeTo rec' e.1 < Rec.outdegree rec').
    { rewrite Hedge'. apply lookup_lt_Some in He'. unfold Rec.outdegree. lia. }
    destruct (LF_to_value rec i e.1 Hwt Hinv Hisz Hdeg1) as (off & Hoff & _ & Hv).
    destruct (LF_to_value rec' i e.1 Hwt' Hinv' Hisz Hdeg2) as (off' & Hoff' & _ & Hv').
    rewrite Hedge in Hoff, Hv. rewrite Hedge' in Hoff', Hv'.
    unfold Rec.offset in Hoff, Hoff'. rewrite He in Hoff. rewrite He' in Hoff'.
    injection Hoff as <-. injection Hoff' as <-.
    rewrite HLFto, Hv in Hv'. injection Hv' as Hv'.
    rewrite <- (wrap32_wrap64 (e.2 + rank_before r' _ _)), <- Hv'.
    now rewrite wrap32_wrap64.
  - unfold Rec.LF, Rec.size in *. rewrite Hsize.
    now rewrite (proj2 (Z.geb_le _ _)) by lia.
Qed.

Lemma recode_preserves_queries_witness :
  exists rec',
    Rec.recode (mkRecord 4 [] [(7, 5); (4, 0)] [(0, 1); (1, 2); (0, 1)] []) = Some rec' /\
    forall i to,
      Rec.LF_to rec' i to
        = Rec.LF_to (mkRecord 4 [] [(7, 5); (4, 0)] [(0, 1); (1, 2); (0, 1)] []) i to.
Proof.
  destruct (recode_preserves_queries
              (mkRecord 4 [] [(7, 5); (4, 0)] [(0, 1); (1, 2); (0, 1)] []))
    as (rec' & Hrec & _ & _ & _ & _ & HLF & _).
  - unfold well_typed, pair_typed, is_size_type, is_short_type. simpl.
    repeat split; repeat constructor; simpl; lia.
  - split; [reflexivity | repeat constructor].
  - reflexivity.
  - apply (bool_decide_unpack _). vm_compute. reflexivity.
  - exists rec'. split; [exact Hrec | exact HLF].
Defined.

(** ** The members of the sampled document array *)

Lemma starts_bounds bwt : forall off,
  Forall samples_inv bwt ->
  Forall (fun p => off <= p < off + total bwt) (starts bwt off).
Proof.
  induction bwt as [|rec rest IH]; intros off Hinv; simpl; [constructor|].
  apply Forall_cons in Hinv as [Hrec Hrest].
  pose proof (total_nonneg rest Hrest) as Hnn.
  destruct (sampled rec) eqn:Hs.
  - pose proof (sampled_size_pos rec Hrec Hs) as Hpos. constructor; [lia|].
    eapply Forall_impl; [apply (IH (off + body_size rec) Hrest)|].
    intros p Hp. simpl in Hp. lia.
  - eapply Forall_impl; [apply (IH off Hrest)|]. intros p Hp. simpl in Hp. lia.
Qed.

Lemma starts_increasing bwt : forall off,
  Forall samples_inv bwt -> StronglySorted Z.lt (starts bwt off).
Proof.
  induction bwt as [|rec rest IH]; intros off Hinv; simpl; [constructor|].
  apply Forall_cons in Hinv as [Hrec Hrest].
  destruct (sampled rec) eqn:Hs; [|now apply IH].
  pose proof (sampled_size_pos rec Hrec Hs) as Hpos.
  constructor; [now apply IH|].
  eapply Forall_impl; [apply (starts_bounds rest (off + body_size rec) Hrest)|].
  intros p Hp. simpl in Hp. lia.
Qed.

Lemma sample_positions_increasing bwt : forall off,
  Forall samples_inv bwt -> StronglySorted Z.lt (sample_positions bwt off).
Proof.
  induction bwt as [|rec rest IH]; intros off Hinv; simpl; [constructor|].
  apply Forall_cons in Hinv as [Hrec Hrest].
  destruct (sampled rec) eqn:Hs; [|now apply IH].
  apply StronglySorted_app_2; [| |now apply IH].
  - intros x1 x2 H1 H2.
    pose proof (sample_positions_bounds rest (off + body_size rec) Hrest) as Hb.
    rewrite Forall_forall in Hb. specialize (Hb x2 H2).
    apply list_elem_of_fmap in H1 as (s & -> & Hin).
    pose proof (samples_inv_offsets rec Hrec) as Hoff.
    rewrite Forall_fmap, Forall_forall in Hoff. specialize (Hoff s Hin).
    simpl in Hoff. lia.
  - destruct Hrec as (_ & _ & _ & Hsorted).
    replace (map (fun s : Z * Z => off + s.1) (ids rec))
      with ((fun x => off + x) <$> (ids rec).*1)
      by (rewrite <- list_fmap_compose; reflexivity).
    eapply StronglySorted_fmap; [|exact Hsorted]. intros x y Hxy. simpl. lia.
Qed.

(** X15.  What the constructor of [DASamples] leaves in the members,
    for records whose samples stand at increasing positions of their
    bodies: [sampled_records] has one bit per record, set exactly for
    the records with samples; [bwt_ranges] and [sampled_offsets] have
    the same length, their marked positions are strictly increasing and
    inside the vector; [bwt_ranges] marks as many positions as there are
    sampled records, and [array] has one entry per marked position of
    [sampled_offsets]. *)
Theorem DASamples_members (bwt : list DynamicRecord) :
  Forall samples_inv bwt -> total bwt < 2 ^ 64 ->
  exists das,
    DA.from_bwt bwt = Some das /\
    length (sampled_records das) = length bwt /\
    (forall (i : nat) rec, bwt !! i = Some rec ->
       Sdsl.bv_get (sampled_records das) (Z.of_nat i) = Some (Rec.samples rec >? 0)) /\
    Sdsl.sd_size (bwt_ranges das) = Sdsl.sd_size (sampled_offsets das) /\
    Z.of_nat (length (Sdsl.sd_ones (bwt_ranges das)))
      = Sdsl.bv_rank (sampled_records das) (Z.of_nat (length bwt)) /\
    length (Sdsl.iv_data (array das)) = length (Sdsl.sd_ones (sampled_offsets das)) /\
    StronglySorted Z.lt (Sdsl.sd_ones (bwt_ranges das)) /\
    StronglySorted Z.lt (Sdsl.sd_ones (sampled_offsets das)) /\
    Forall (fun p => 0 <= p < Sdsl.sd_size (bwt_ranges das))
           (Sdsl.sd_ones (bwt_ranges das)) /\
    Forall (fun p => 0 <= p < Sdsl.sd_size (sampled_offsets das))
           (Sdsl.sd_ones (sampled_offsets das)).
Proof.
  intros Hinv H64. destruct (from_bwt_spec bwt Hinv H64) as [w Hdas].
  eexists. split; [exact Hdas|]. simpl.
  split; [apply length_map|]. split.
  { intros i rec Hi. unfold Sdsl.bv_get. rewrite Nat2Z.id, list_lookup_fmap, Hi.
    reflexivity. }
  split; [reflexivity|]. split.
  { pose proof (sampled_rank bwt []) as Hr. rewrite app_nil_r in Hr.
    now rewrite Hr. }
  split; [now rewrite sample_positions_length|].
  split; [now apply starts_increasing|].
  split; [now apply sample_positions_increasing|].
  split.
  - eapply Forall_impl; [apply (starts_bounds bwt 0 Hinv)|].
    intros p Hp. simpl in Hp. lia.
  - eapply Forall_impl; [apply (sample_positions_bounds bwt 0 Hinv)|].
    intros p Hp. simpl in Hp. lia.
Qed.

Lemma DASamples_members_witness :
  exists das,
    DA.from_bwt [mkRecord 2 [(4, 2)] [(3, 0)] [(0, 2)] [(0, 0); (1, 1)];
                 mkRecord 2 [] [(4, 0)] [(0, 2)] []] = Some das /\
    length (sampled_records das) = 2%nat.
Proof.
  destruct (DASamples_members
              [mkRecord 2 [(4, 2)] [(3, 0)] [(0, 2)] [(0, 0); (1, 1)];
               mkRecord 2 [] [(4, 0)] [(0, 2)] []])
    as (das & Hdas & Hlen & _).
  - unfold samples_inv, pair_typed, is_size_type, is_short_type.
    repeat constructor; simpl; lia.
  - vm_compute. reflexivity.
  - exists das. split; [exact Hdas | exact Hlen].
Defined.

(** ** [LF(range, to)] with an end past the record *)





Example two_edge_record_past_end :
  Rec.LF_to two_edge_record 7 4 = Some 14 /\
  Rec.LF_range two_edge_record (1, 7) 4 = Some (11, 16).
Proof. split; reflexivity. Qed.

(** ** Records by node identifier *)

(** X17.  In an index whose [bwt] holds [effective()] records,
    [record(node)] reads inside [bwt] exactly for the nodes [contains]
    accepts and for the node [offset]: every other node indexes past the
    end, and [offset] itself, which [contains] rejects when it is not 0,
    is answered from the record of the endmarker by [count] and every
    [LF]. *)
Theorem record_in_bounds (header : GBWTHeader) (bwt : list DynamicRecord) (node : Z) :
  is_size_type (h_alphabet_size header) ->
  0 <= h_offset header < h_alphabet_size header ->
  Z.of_nat (length bwt) = DynamicGBWT.effective header ->
  is_size_type node ->
  (is_Some (DynamicGBWT.record header bwt node) <->
     DynamicGBWT.contains header node = true \/ node = h_offset header) /\
  (node = h_offset header ->
     DynamicGBWT.count header bwt node = DynamicGBWT.count header bwt 0 /\
     (forall i, DynamicGBWT.LF header bwt node i = DynamicGBWT.LF header bwt 0 i) /\
     (forall i to, DynamicGBWT.LF_to header bwt node i to
                     = DynamicGBWT.LF_to header bwt 0 i to) /\
     (forall range to, DynamicGBWT.LF_range header bwt node range to
                         = DynamicGBWT.LF_range header bwt 0 range to)).
Proof.
  intros [Hs0 Hs1] Ho Hlen [Hn0 Hn1].
  unfold DynamicGBWT.effective in Hlen. rewrite wrap64_small in Hlen by lia.
  assert (Halias : node = h_offset header ->
            DynamicGBWT.record header bwt node = DynamicGBWT.record header bwt 0).
  { intros ->. unfold DynamicGBWT.record, DynamicGBWT.toComp.
    destruct (Z.eqb_spec (h_offset header) 0) as [->|Hne]; [reflexivity|].
    rewrite Z.sub_diag. reflexivity. }
  split.
  - unfold DynamicGBWT.record. rewrite lookup_lt_is_Some.
    unfold DynamicGBWT.contains, DynamicGBWT.toComp, DynamicGBWT.sigma.
    destruct (Z.eqb_spec node 0) as [->|Hne].
    + rewrite orb_true_r. split; [auto | intros _; lia].
    + rewrite orb_false_r, andb_true_iff, Z.ltb_lt, Z.gtb_lt.
      destruct (Z.lt_ge_cases node (h_offset header)) as [Hlt|Hge].
      * replace (wrap64 (node - h_offset header))
          with (node - h_offset header + 2 ^ 64).
        -- split; [lia | intros [[_ H]|H]; lia].
        -- unfold wrap64. symmetry.
           rewrite <- (Z.mod_add _ 1) by lia. rewrite Z.mul_1_l.
           apply Z.mod_small. lia.
      * rewrite wrap64_small by lia. split; [lia | intros [[? ?]|H]; lia].
  - intros Heq. specialize (Halias Heq).
    unfold DynamicGBWT.count, DynamicGBWT.LF, DynamicGBWT.LF_to, DynamicGBWT.LF_range.
    rewrite Halias. auto.
Qed.

Lemma record_in_bounds_witness :
  is_Some (DynamicGBWT.record (mkHeader 0 0 7 2) (replicate 5 (mkRecord 0 [] [] [] [])) 2)
  <-> DynamicGBWT.contains (mkHeader 0 0 7 2) 2 = true \/ 2 = h_offset (mkHeader 0 0 7 2).
Proof.
  apply (record_in_bounds (mkHeader 0 0 7 2) (replicate 5 (mkRecord 0 [] [] [] [])) 2).
  - unfold is_size_type. simpl. lia.
  - simpl. lia.
  - reflexivity.
  - unfold is_size_type. lia.
Defined.

(** ** The FNV-1a hash *)

Lemma lxor_size_type a b :
  is_size_type a -> 0 <= b < 2 ^ 64 -> is_size_type (Z.lxor a b).
Proof.
  unfold is_size_type. intros Ha Hb.
  assert (Hnn : 0 <= Z.lxor a b) by (apply Z.lxor_nonneg; lia).
  split; [exact Hnn|].
  destruct (Z.eq_dec (Z.lxor a b) 0) as [->|Hne]; [lia|].
  apply Z.log2_lt_pow2; [lia|].
  pose proof (Z.log2_lxor a b (proj1 Ha) (proj1 Hb)) as Hle.
  assert (Hla : Z.log2 a < 64).
  { destruct (Z.eq_dec a 0) as [->|]; [reflexivity | apply Z.log2_lt_pow2; lia]. }
  assert (Hlb : Z.log2 b < 64).
  { destruct (Z.eq_dec b 0) as [->|]; [reflexivity | apply Z.log2_lt_pow2; lia]. }
  lia.
Qed.

Lemma lxor_cancel_r a a' b : Z.lxor a b = Z.lxor a' b -> a = a'.
Proof.
  intros H. apply (f_equal (fun x => Z.lxor x b)) in H.
  now rewrite !Z.lxor_assoc, Z.lxor_nilpotent, !Z.lxor_0_r in H.
Qed.

Lemma lxor_cancel_l a b b' : Z.lxor a b = Z.lxor a b' -> b = b'.
Proof. rewrite !(Z.lxor_comm a). apply lxor_cancel_r. Qed.

(** Multiplication by the odd [FNV_PRIME] is undone, modulo 2^64, by
    multiplication by its inverse. *)
Lemma fnv_prime_cancel x y :
  is_size_type x -> is_size_type y ->
  wrap64 (x * FNV_PRIME) = wrap64 (y * FNV_PRIME) -> x = y.
Proof.
  intros Hx Hy H.
  assert (Hinv : forall z, is_size_type z ->
            wrap64 (wrap64 (z * FNV_PRIME) * 14886173955864302971) = z).
  { intros z Hz. unfold wrap64. rewrite Z.mul_mod_idemp_l by lia.
    rewrite <- Z.mul_assoc, <- Z.mul_mod_idemp_r by lia.
    replace ((FNV_PRIME * 14886173955864302971) mod 2 ^ 64) with 1
      by (vm_compute; reflexivity).
    rewrite Z.mul_1_r. now apply Z.mod_small. }
  rewrite <- (Hinv x Hx), <- (Hinv y Hy). now rewrite H.
Qed.

Lemma fnv1a_hash_byte_range b seed : is_size_type (fnv1a_hash_byte b seed).
Proof. apply wrap64_range. Qed.

Lemma fnv1a_hash_byte_seed b s1 s2 :
  is_size_type s1 -> is_size_type s2 -> 0 <= b < 256 ->
  fnv1a_hash_byte b s1 = fnv1a_hash_byte b s2 -> s1 = s2.
Proof.
  intros H1 H2 Hb H. apply fnv_prime_cancel in H.
  - now apply lxor_cancel_r in H.
  - apply lxor_size_type; [exact H1 | lia].
  - apply lxor_size_type; [exact H2 | lia].
Qed.

Lemma fnv1a_hash_array_range array : is_size_type (fnv1a_hash_array array).
Proof.
  unfold fnv1a_hash_array.
  assert (H : forall seed, is_size_type seed ->
            is_size_type (foldl (fun res x => fnv1a_hash_byte (x mod 256) res) seed array)).
  { induction array as [|x array IH]; intros seed Hs; simpl; [exact Hs|].
    apply IH, fnv1a_hash_byte_range. }
  apply H. unfold is_size_type, FNV_OFFSET_BASIS. lia.
Qed.

(** X18.  The FNV-1a step is a bijection in each argument: for a fixed
    byte different seeds give different hashes, and for a fixed seed
    different bytes do; hence hashing a [size_type] value is one-to-one
    in the seed, and two byte arrays that differ in their last byte
    only have different hashes. *)
Theorem fnv1a_hash_injective :
  (forall b s1 s2, is_size_type s1 -> is_size_type s2 -> 0 <= b < 256 ->
     fnv1a_hash_byte b s1 = fnv1a_hash_byte b s2 -> s1 = s2) /\
  (forall b1 b2 s, is_size_type s -> 0 <= b1 < 256 -> 0 <= b2 < 256 ->
     fnv1a_hash_byte b1 s = fnv1a_hash_byte b2 s -> b1 = b2) /\
  (forall val s1 s2, is_size_type s1 -> is_size_type s2 ->
     fnv1a_hash val s1 = fnv1a_hash val s2 -> s1 = s2) /\
  (forall array a b, 0 <= a < 256 -> 0 <= b < 256 ->
     fnv1a_hash_array (array ++ [a]) = fnv1a_hash_array (array ++ [b]) -> a = b) /\
  (forall val seed, is_size_type seed -> is_size_type (fnv1a_hash val seed)).
Proof.
  assert (Hbyte : forall b1 b2 s, is_size_type s -> 0 <= b1 < 256 -> 0 <= b2 < 256 ->
            fnv1a_hash_byte b1 s = fnv1a_hash_byte b2 s -> b1 = b2).
  { intros b1 b2 s Hs H1 H2 H. apply fnv_prime_cancel in H.
    - now apply lxor_cancel_l in H.
    - apply lxor_size_type; [exact Hs | lia].
    - apply lxor_size_type; [exact Hs | lia]. }
  split; [exact fnv1a_hash_byte_seed|]. split; [exact Hbyte|]. split; [|split].
  - intros val. unfold fnv1a_hash. generalize 8%nat as n. intros n. revert val.
    induction n as [|n IH]; intros val s1 s2 H1 H2 H; simpl in H; [exact H|].
    apply IH in H; try apply fnv1a_hash_byte_range.
    apply fnv1a_hash_byte_seed in H; auto.
    apply Z.mod_pos_bound. lia.
  - intros array a b Ha Hb. unfold fnv1a_hash_array. rewrite !foldl_app. simpl.
    rewrite !Z.mod_small by lia. apply Hbyte; auto.
    apply fnv1a_hash_array_range.
  - intros val seed Hs. unfold fnv1a_hash. generalize 8%nat as n. intros n.
    revert val seed Hs. induction n as [|n IH]; intros val seed Hs; simpl; [exact Hs|].
    apply IH, fnv1a_hash_byte_range.
Qed.
